(** * MiCall-Lite, [micall/core/sam2aln.py]: CIGAR decoding, mate-pair
    merging and variant aggregation.

    A shallow embedding of the Python module.  Python 2 byte strings are
    lists of 8-bit characters, Python integers are [Z] (or [nat] where the
    source can only produce a non-negative value), dictionaries are finite
    maps, and a raised exception is the [Err] branch of a result type. *)

From Stdlib Require Import ZArith List Ascii String Floats.
From stdpp Require Import gmap strings list fin_maps sorting.

Local Open Scope Z_scope.

(** ** Strings *)

Abbreviation str := (list ascii).

(** String literals of the source, as character lists. *)
Definition lit (x : string) : str := list_ascii_of_string x.

Definition gap : ascii := "-"%char.
Definition newline : ascii := "010"%char.

(** [c * n] for a one-character string [c]; a negative [n] gives the empty
    string, as in Python. *)
Definition str_mul (c : ascii) (n : Z) : str := replicate (Z.to_nat n) c.

(** Python's normalisation of one slice bound against a length. *)
Definition py_index (len : nat) (i : Z) : nat :=
  if i <? 0 then Z.to_nat (i + Z.of_nat len) else Nat.min (Z.to_nat i) len.

(** [l[lo:hi]], where [hi = None] is Python's [None] bound. *)
Definition py_slice {A} (l : list A) (lo : Z) (hi : option Z) : list A :=
  let n := length l in
  let a := py_index n lo in
  let b := match hi with None => n | Some h => py_index n h end in
  take (b - a)%nat (drop a l).

(** [l[left:(left+len)]] for non-negative [left] and [len]. *)
Definition substr {A} (l : list A) (left len : nat) : list A :=
  take len (drop left l).

(** [s.strip('-')] *)
Fixpoint lstrip_gap (s : str) : str :=
  match s with
  | c :: s' => if decide (c = gap) then lstrip_gap s' else s
  | [] => []
  end.

Definition rstrip_gap (s : str) : str := reverse (lstrip_gap (reverse s)).

Definition strip_gap (s : str) : str := rstrip_gap (lstrip_gap s).

(** [s.count(c)] for a one-character [c]. *)
Definition str_count (c : ascii) (s : str) : nat :=
  length (filter (λ x, x = c) s).

(** ** Results of code that may raise *)

Inductive result (E A : Type) : Type :=
  | Ok (a : A)
  | Err (e : E).
Arguments Ok {E A} a.
Arguments Err {E A} e.

Definition rbind {E A B} (r : result E A) (k : A → result E B) : result E B :=
  match r with
  | Ok a => k a
  | Err e => Err e
  end.

Notation "x ←ᵣ r ; k" := (rbind r (λ x, k))
  (at level 20, r at level 100, k at level 200, only parsing, right associativity).

(** ** The CIGAR regular expressions

    [re.match(r'^((\d+)([MIDNSHPX=]))*$', cigar)] and
    [re.findall(r'(\d+)([MIDNSHPX=])', cigar)].  On a byte-string pattern
    [\d] is [[0-9]]. *)

Definition is_digit (c : ascii) : bool :=
  (48 <=? nat_of_ascii c)%nat && (nat_of_ascii c <=? 57)%nat.

Definition is_op (c : ascii) : bool :=
  bool_decide (c ∈ lit "MIDNSHPX=").

(** The anchored match, run as the automaton of the pattern: the flag tells
    whether a digit run has been opened.  Python's [$] succeeds at the end
    of the string and also just before a newline that ends the string. *)
Fixpoint cigar_match (in_digits : bool) (s : str) : bool :=
  match s with
  | [] => negb in_digits
  | c :: s' =>
      if is_digit c then cigar_match true s'
      else if in_digits then is_op c && cigar_match false s'
      else bool_decide (c = newline) && bool_decide (s' = [])
  end.

Definition is_valid (cigar : str) : bool := cigar_match false cigar.

(** The leftmost, non-overlapping matches of one token: a maximal digit run
    followed at once by an operation letter.  [digits] is the run read so
    far. *)
Fixpoint cigar_findall (digits : str) (s : str) : list (str * ascii) :=
  match s with
  | [] => []
  | c :: s' =>
      if is_digit c then cigar_findall (digits ++ [c]) s'
      else if is_op c && bool_decide (digits ≠ [])
      then (digits, c) :: cigar_findall [] s'
      else cigar_findall [] s'
  end.

(** [int(length)] on a string of decimal digits. *)
Definition int_of_digits (d : str) : nat :=
  foldl (λ n c, (10 * n + (nat_of_ascii c - 48))%nat) 0%nat d.

(** ** apply_cigar *)

Inductive decoding_error : Type :=
  | InvalidCigar (cigar : str)
  | UnsupportedToken (token : str)
  | CigarTooLong (cigar seq : str)
  | CigarTooShort (cigar seq : str).

Record cigar_state : Type := CigarState {
  newseq : str;
  newqual : str;
  insertions : gmap Z (str * str);
  left : nat
}.

(** [end is None or left < end] *)
Definition before_end (end_ : option Z) (left : nat) : bool :=
  match end_ with
  | None => true
  | Some e => Z.of_nat left <? e
  end.

(** One iteration of [for token in tokens]. *)
Definition apply_token (cigar seq qual : str) (pos : Z) (end_ : option Z)
    (st : cigar_state) (token : str * ascii) : result decoding_error cigar_state :=
  let length := int_of_digits token.1 in
  let operation := token.2 in
  st' ←ᵣ
    (if decide (operation = "M"%char) then
       Ok {| newseq := newseq st ++ substr seq (left st) length;
             newqual := newqual st ++ substr qual (left st) length;
             insertions := insertions st;
             left := (left st + length)%nat |}
     else if decide (operation = "D"%char) then
       Ok {| newseq := newseq st ++ replicate length gap;
             newqual := newqual st ++ replicate length " "%char;
             insertions := insertions st;
             left := left st |}
     else if decide (operation = "I"%char) then
       Ok {| newseq := newseq st;
             newqual := newqual st;
             insertions :=
               if before_end end_ (left st)
               then <[Z.of_nat (left st) + pos :=
                        (substr seq (left st) length, substr qual (left st) length)]>
                      (insertions st)
               else insertions st;
             left := (left st + length)%nat |}
     else if decide (operation = "S"%char) then
       Ok {| newseq := newseq st;
             newqual := newqual st;
             insertions := insertions st;
             left := (left st + length)%nat |}
     else Err (UnsupportedToken (token.1 ++ [token.2])));
  if decide (List.length seq < left st')%nat
  then Err (CigarTooLong cigar seq)
  else Ok st'.

Fixpoint apply_tokens (cigar seq qual : str) (pos : Z) (end_ : option Z)
    (st : cigar_state) (tokens : list (str * ascii))
    : result decoding_error cigar_state :=
  match tokens with
  | [] => Ok st
  | token :: tokens' =>
      st' ←ᵣ apply_token cigar seq qual pos end_ st token;
      apply_tokens cigar seq qual pos end_ st' tokens'
  end.

Definition apply_cigar (cigar seq qual : str) (pos : Z) (clip_from : Z)
    (clip_to : option Z)
    : result decoding_error (str * str * gmap Z (str * str)) :=
  let st0 := {| newseq := str_mul gap pos;
                newqual := str_mul "!"%char pos;
                insertions := ∅;
                left := 0 |} in
  let tokens := cigar_findall [] cigar in
  if negb (is_valid cigar) then Err (InvalidCigar cigar)
  else
    let end_ := (λ c, c + 1) <$> clip_to in
    st ←ᵣ apply_tokens cigar seq qual pos end_ st0 tokens;
    if decide (left st < List.length seq)%nat
    then Err (CigarTooShort cigar seq)
    else Ok (py_slice (newseq st) clip_from end_,
             py_slice (newqual st) clip_from end_,
             insertions st).


(** ** merge_pairs *)

(** [ord(c) - 33] *)
Definition phred (c : ascii) : Z := Z.of_nat (nat_of_ascii c) - 33.

(** The branch [i < len(seq1)] of the loop body: both mates cover the
    position. *)
Definition merge_overlap (c1 c2 : ascii) (q1 q2 q_cutoff minimum_q_delta : Z)
    : ascii :=
  if decide (c1 = gap ∧ c2 = gap) then gap
  else if decide (c1 = c2) then
    if decide (q_cutoff < q1 ∨ q_cutoff < q2) then c1 else "N"%char
  else if decide (minimum_q_delta ≤ Z.abs (q2 - q1)) then
    if decide (Z.max q2 q_cutoff < q1) then c1
    else if decide (Z.max q1 q_cutoff < q2) then c2
    else "N"%char
  else "N"%char.

(** The branch past the end of read 1. *)
Definition merge_tail (c2 : ascii) (q2 q_cutoff : Z) : ascii :=
  if decide (c2 = gap ∧ q2 = 0) then "n"%char
  else if decide (q_cutoff < q2) then c2
  else "N"%char.

(** The body of [for i, c2 in enumerate(seq2)]; [None] is the [IndexError]
    of [qual2[i]] or [qual1[i]]. *)
Definition merge_char (seq1 seq2 qual1 qual2 : str) (q_cutoff minimum_q_delta : Z)
    (i : nat) : option ascii :=
  c2 ← seq2 !! i;
  k2 ← qual2 !! i;
  let q2 := phred k2 in
  if decide (i < length seq1)%nat then
    c1 ← seq1 !! i;
    k1 ← qual1 !! i;
    let q1 := phred k1 in
    Some (merge_overlap c1 c2 q1 q2 q_cutoff minimum_q_delta)
  else Some (merge_tail c2 q2 q_cutoff).

Definition merge_loop (seq1 seq2 qual1 qual2 : str) (q_cutoff minimum_q_delta : Z)
    : option str :=
  mapM (merge_char seq1 seq2 qual1 qual2 q_cutoff minimum_q_delta)
       (seq 0 (length seq2)).

(** [merge_pairs] called with [ins1 = ins2 = None]: the swap that makes the
    second read the longest, then the first loop.  With empty insertion
    maps the second loop of the source finds nothing to splice in. *)
Definition merge_reads (seq1 seq2 qual1 qual2 : str) (q_cutoff minimum_q_delta : Z)
    : option str :=
  if decide (length seq2 < length seq1)%nat
  then merge_loop seq2 seq1 qual2 qual1 q_cutoff minimum_q_delta
  else merge_loop seq1 seq2 qual1 qual2 q_cutoff minimum_q_delta.

(** [ins.get(pos, ('', ''))] after [ins = {} if ins is None else ins]. *)
Definition ins_get (ins : option (gmap Z (str * str))) (pos : nat) : str * str :=
  default ([], []) (default ∅ ins !! Z.of_nat pos).

(** [for pos in range(len(mseq)-1, -1, -1)], entered with [n = len(mseq)].
    The recursive call of the source passes no insertion maps and the
    default cutoffs, so it is [merge_reads] at 10 and 5. *)
Fixpoint insert_loop (ins1 ins2 : option (gmap Z (str * str))) (n : nat)
    (mseq : str) : option str :=
  match n with
  | O => Some mseq
  | S pos =>
      let '(ins_seq1, ins_qual1) := ins_get ins1 pos in
      let '(ins_seq2, ins_qual2) := ins_get ins2 pos in
      if decide (ins_seq1 ≠ [] ∨ ins_seq2 ≠ []) then
        ins_mseq ← merge_reads ins_seq1 ins_seq2 ins_qual1 ins_qual2 10 5;
        insert_loop ins1 ins2 pos (take pos mseq ++ ins_mseq ++ drop pos mseq)
      else insert_loop ins1 ins2 pos mseq
  end.

Definition merge_pairs (seq1 seq2 qual1 qual2 : str)
    (ins1 ins2 : option (gmap Z (str * str))) (q_cutoff minimum_q_delta : Z)
    : option str :=
  mseq ← merge_reads seq1 seq2 qual1 qual2 q_cutoff minimum_q_delta;
  insert_loop ins1 ins2 (length mseq) mseq.


(** ** len_gap_prefix and is_first_read *)

(** The length of the first hit of [^[-]+], or 0 without a hit. *)
Fixpoint len_gap_prefix (s : str) : nat :=
  match s with
  | c :: s' => if decide (c = gap) then S (len_gap_prefix s') else 0%nat
  | [] => 0%nat
  end.

Definition is_first_read (flag : Z) : bool :=
  negb (Z.land flag 64 =? 0).

(** ** Rows read and written *)

(** One row of the remap CSV; the numeric columns are held as integers. *)
Record sam_row : Type := SamRow {
  row_qname : str;
  row_flag : Z;
  row_rname : str;
  row_pos : Z;
  row_mapq : Z;
  row_cigar : str;
  row_seq : str;
  row_qual : str
}.

Record insert_row : Type := InsertRow {
  ins_qname : str;
  ins_fwd_rev : ascii;
  ins_refname : str;
  ins_pos : Z;
  ins_insert : str;
  ins_qual : str
}.

(** A row of the failure report: a pair that was not merged at all, or a
    merge turned down at one cutoff. *)
Inductive failed_row : Type :=
  | FailedPair (qname seq1 qual1 : str) (seq2 qual2 : option str)
               (mapq1 : Z) (mapq2 : option Z)
  | FailedMerge (qname : str) (qcut : Z) (seq1 qual1 seq2 qual2 : str)
                (prop_N : float) (mseq : str).

Record aligned_row : Type := AlignedRow {
  al_refname : str;
  al_qcut : Z;
  al_rank : nat;
  al_count : nat;
  al_offset : nat;
  al_seq : str
}.

(** The three constants imported from [micall.settings], a module that is
    not part of the sources at hand: they are parameters of the model. *)
Record settings : Type := Settings {
  max_prop_N : float;
  read_mapping_cutoff : Z;
  sam2aln_q_cutoffs : list Z
}.

(** What the module can raise on well-typed rows. *)
Inductive exn : Type :=
  | RuntimeError (e : decoding_error)
  | IndexError
  | ZeroDivisionError
  | ValueError.

(** ** matchmaker *)

(** The order in which a Python dictionary yields its items is that of its
    hash table and is left open here: [map_to_list] stands for it, here for
    the unmatched reads and below for the insertions of a mate, the cutoffs
    of a region and the groups of the aligned CSV.  The statements are about
    one group, one row or one set of rows, and hold for any such order. *)
Fixpoint matchmaker_loop (rows : list sam_row) (cached_rows : gmap str sam_row)
    : list (sam_row * option sam_row) :=
  match rows with
  | [] => (λ kv : str * sam_row, (kv.2, None)) <$> map_to_list cached_rows
  | row :: rows' =>
      let qname := row_qname row in
      match cached_rows !! qname with
      | None => matchmaker_loop rows' (<[qname := row]> cached_rows)
      | Some old_row =>
          (old_row, Some row) :: matchmaker_loop rows' (delete qname cached_rows)
      end
  end.

Definition matchmaker (remap_csv : list sam_row) : list (sam_row * option sam_row) :=
  matchmaker_loop remap_csv ∅.

(** ** parse_sam *)

(** [float(n)] for a length or a count, which on a 64-bit build is below
    2^63 and so is converted as Python converts it, to the nearest
    binary64. *)
Definition float_of_nat (n : nat) : float :=
  PrimFloat.of_uint63 (Uint63.of_Z (Z.of_nat n)).

(** [mseq.count('N') / float(len(mseq.strip('-')))], for a divisor that is
    not zero. *)
Definition prop_N (mseq : str) : float :=
  PrimFloat.div (float_of_nat (str_count "N"%char mseq))
                (float_of_nat (length (strip_gap mseq))).

(** The rows appended for one mate's insertions. *)
Definition insert_rows (qname rname : str) (flag pos : Z)
    (inserts : gmap Z (str * str)) : list insert_row :=
  (λ kv : Z * (str * str),
     {| ins_qname := qname;
        ins_fwd_rev := if is_first_read flag then "F"%char else "R"%char;
        ins_refname := rname;
        ins_pos := pos + kv.1;
        ins_insert := kv.2.1;
        ins_qual := kv.2.2 |}) <$> map_to_list inserts.

Definition of_option {A} (e : exn) (o : option A) : result exn A :=
  match o with
  | Some a => Ok a
  | None => Err e
  end.

(** [for qcut in sam2aln_q_cutoffs], threading [mseqs] and [failed_list]. *)
Fixpoint merge_cutoffs (cfg : settings) (qname seq1 seq2 qual1 qual2 : str)
    (qcuts : list Z) (mseqs : gmap Z str) (failed_list : list failed_row)
    : result exn (gmap Z str * list failed_row) :=
  match qcuts with
  | [] => Ok (mseqs, failed_list)
  | qcut :: qcuts' =>
      mseq ←ᵣ of_option IndexError
                (merge_pairs seq1 seq2 qual1 qual2 None None qcut 5);
      if decide (length (strip_gap mseq) = 0%nat) then Err ZeroDivisionError
      else
        if PrimFloat.ltb (max_prop_N cfg) (prop_N mseq) then
          merge_cutoffs cfg qname seq1 seq2 qual1 qual2 qcuts' mseqs
            (failed_list ++
               [FailedMerge qname qcut seq1 qual1 seq2 qual2 (prop_N mseq) mseq])
        else
          merge_cutoffs cfg qname seq1 seq2 qual1 qual2 qcuts'
            (<[qcut := mseq]> mseqs) failed_list
  end.

(** The test that sends a pair to the failure report without decoding. *)
Definition pair_rejected (cfg : settings) (row1 : sam_row) (row2 : option sam_row)
    : bool :=
  match row2 with
  | None => true
  | Some row2 =>
      bool_decide (row_cigar row1 = lit "*")
      || (row_mapq row1 <? read_mapping_cutoff cfg)
      || bool_decide (row_cigar row2 = lit "*")
      || (row_mapq row2 <? read_mapping_cutoff cfg)
      || bool_decide (row_rname row1 ≠ row_rname row2)
  end.

Definition parse_sam (cfg : settings) (rows : sam_row * option sam_row)
    : result exn (str * gmap Z str * list insert_row * list failed_row) :=
  let '(row1, row2) := rows in
  let rname := row_rname row1 in
  let qname := row_qname row1 in
  match row2 with
  | Some r2 =>
      if pair_rejected cfg row1 row2 then
        Ok (rname, ∅, [],
            [FailedPair qname (row_seq row1) (row_qual row1)
               (Some (row_seq r2)) (Some (row_qual r2))
               (row_mapq row1) (Some (row_mapq r2))])
      else
        let pos1 := row_pos row1 - 1 in
        match apply_cigar (row_cigar row1) (row_seq row1) (row_qual row1) 0 0 None with
        | Err e => Err (RuntimeError e)
        | Ok (seq1, qual1, inserts1) =>
            let insert_list1 := insert_rows qname rname (row_flag row1) pos1 inserts1 in
            let seq1 := str_mul gap pos1 ++ seq1 in
            let qual1 := str_mul "!"%char pos1 ++ qual1 in
            let pos2 := row_pos r2 - 1 in
            match apply_cigar (row_cigar r2) (row_seq r2) (row_qual r2) 0 0 None with
            | Err e => Err (RuntimeError e)
            | Ok (seq2, qual2, inserts2) =>
                let insert_list :=
                  insert_list1 ++ insert_rows qname rname (row_flag r2) pos2 inserts2 in
                let seq2 := str_mul gap pos2 ++ seq2 in
                let qual2 := str_mul "!"%char pos2 ++ qual2 in
                match merge_cutoffs cfg qname seq1 seq2 qual1 qual2
                        (sam2aln_q_cutoffs cfg) ∅ [] with
                | Err e => Err e
                | Ok (mseqs, failed_list) =>
                    Ok (rname, mseqs, insert_list, failed_list)
                end
            end
        end
  | None =>
      Ok (rname, ∅, [],
          [FailedPair qname (row_seq row1) (row_qual row1) None None
             (row_mapq row1) None])
  end.

(** ** Ordering of the tuples sorted by sam2aln *)

(** Python's comparison of byte strings. *)
Fixpoint str_compare (a b : str) : comparison :=
  match a, b with
  | [], [] => Eq
  | [], _ :: _ => Lt
  | _ :: _, [] => Gt
  | x :: a', y :: b' =>
      match Nat.compare (nat_of_ascii x) (nat_of_ascii y) with
      | Eq => str_compare a' b'
      | c => c
      end
  end.

(** Python's comparison of [(count, offset, seq)] tuples. *)
Definition tuple_compare (x y : nat * nat * str) : comparison :=
  match Nat.compare x.1.1 y.1.1 with
  | Eq =>
      match Nat.compare x.1.2 y.1.2 with
      | Eq => str_compare x.2 y.2
      | c => c
      end
  | c => c
  end.

(** The order [sort(reverse=True)] leaves the list in. *)
Definition tuple_ge (x y : nat * nat * str) : Prop := tuple_compare x y ≠ Lt.

Global Instance tuple_ge_dec x y : Decision (tuple_ge x y).
Proof. unfold tuple_ge. apply _. Defined.

(** ** sam2aln *)

(** [mseq_counter[mseq] += 1] on a [Counter]. *)
Definition counter_incr (mseq : str) (mseq_counter : gmap str nat) : gmap str nat :=
  <[mseq := S (default 0%nat (mseq_counter !! mseq))]> mseq_counter.

(** [region[qcut]] on a [defaultdict(Counter)], then the increment. *)
Definition region_add (region : gmap Z (gmap str nat)) (item : Z * str)
    : gmap Z (gmap str nat) :=
  <[item.1 := counter_incr item.2 (default ∅ (region !! item.1))]> region.

(** The part of the body of the main loop that updates [aligned]. *)
Definition collect (aligned : gmap str (gmap Z (gmap str nat)))
    (rname : str) (mseqs : gmap Z str) : gmap str (gmap Z (gmap str nat)) :=
  let region := default ∅ (aligned !! rname) in
  <[rname := foldl region_add region (map_to_list mseqs)]> aligned.

(** [intermed] after the sort, from the items of one counter in the order
    the dictionary yields them. *)
Definition intermed (items : list (str * nat)) : list (nat * nat * str) :=
  merge_sort tuple_ge
    ((λ sc : str * nat, (sc.2, len_gap_prefix sc.1, sc.1)) <$> items).

(** The rows written for one counter. *)
Definition rank_rows (rname : str) (qcut : Z) (sorted : list (nat * nat * str))
    : list aligned_row :=
  imap (λ rank t,
          {| al_refname := rname;
             al_qcut := qcut;
             al_rank := rank;
             al_count := t.1.1;
             al_offset := t.1.2;
             al_seq := strip_gap t.2 |}) sorted.

Definition group_rows (rname : str) (qcut : Z) (data2 : gmap str nat)
    : list aligned_row :=
  rank_rows rname qcut (intermed (map_to_list data2)).

(** The two nested loops that write the aligned CSV. *)
Definition write_aligned (aligned : gmap str (gmap Z (gmap str nat)))
    : list aligned_row :=
  rd ← map_to_list aligned;
  qd ← map_to_list rd.2;
  group_rows rd.1 qd.1 qd.2.

(** What a run leaves behind: the three files of a run that ends, or the
    exception and the two files written before it.  The aligned CSV is
    opened after the main loop, so a run that raises writes none of it. *)
Inductive outcome : Type :=
  | Finished (aligned_csv : list aligned_row) (insert_csv : list insert_row)
             (failed_csv : list failed_row)
  | Raised (e : exn) (insert_csv : list insert_row) (failed_csv : list failed_row).

(** The main loop over the pairs, in the order they are yielded. *)
Fixpoint sam2aln_loop (cfg : settings) (pairs : list (sam_row * option sam_row))
    (aligned : gmap str (gmap Z (gmap str nat)))
    (insert_csv : list insert_row) (failed_csv : list failed_row) : outcome :=
  match pairs with
  | [] => Finished (write_aligned aligned) insert_csv failed_csv
  | rows :: pairs' =>
      match parse_sam cfg rows with
      | Err e => Raised e insert_csv failed_csv
      | Ok (rname, mseqs, insert_list, failed_list) =>
          sam2aln_loop cfg pairs' (collect aligned rname mseqs)
            (insert_csv ++ insert_list) (failed_csv ++ failed_list)
      end
  end.

(** ** parse_sam_in_threads *)

(** [Pool._get_tasks] of the standard library: the iterable cut into tuples
    of [size] items, the last one shorter when the items run out; [chunk] is
    the tuple being filled. *)
Fixpoint get_tasks_from {A} (size : nat) (chunk it : list A) : list (list A) :=
  match it with
  | [] => match chunk with [] => [] | _ :: _ => [chunk] end
  | x :: it' =>
      if decide (length (chunk ++ [x]) = size)
      then (chunk ++ [x]) :: get_tasks_from size [] it'
      else get_tasks_from size (chunk ++ [x]) it'
  end.

Definition get_tasks {A} (size : nat) (it : list A) : list (list A) :=
  get_tasks_from size [] it.

(** [mapstar], the task a worker runs on one chunk: [map(parse_sam, chunk)],
    that is the results of the whole chunk, or the exception of its first
    pair that raises. *)
Fixpoint mapstar (cfg : settings) (chunk : list (sam_row * option sam_row))
    : result exn (list (str * gmap Z str * list insert_row * list failed_row)) :=
  match chunk with
  | [] => Ok []
  | rows :: chunk' =>
      res ←ᵣ parse_sam cfg rows;
      results ←ᵣ mapstar cfg chunk';
      Ok (res :: results)
  end.

(** The body of the main loop, run on the results of one chunk. *)
Fixpoint sam2aln_results
    (results : list (str * gmap Z str * list insert_row * list failed_row))
    (aligned : gmap str (gmap Z (gmap str nat)))
    (insert_csv : list insert_row) (failed_csv : list failed_row)
    : gmap str (gmap Z (gmap str nat)) * list insert_row * list failed_row :=
  match results with
  | [] => (aligned, insert_csv, failed_csv)
  | (rname, mseqs, insert_list, failed_list) :: results' =>
      sam2aln_results results' (collect aligned rname mseqs)
        (insert_csv ++ insert_list) (failed_csv ++ failed_list)
  end.

(** The main loop over what [pool.imap(parse_sam, ..., chunksize=100)]
    yields: the results come chunk by chunk, in order, and a chunk one of
    whose pairs raised yields none of its results but that exception. *)
Fixpoint sam2aln_pool_loop (cfg : settings)
    (chunks : list (list (sam_row * option sam_row)))
    (aligned : gmap str (gmap Z (gmap str nat)))
    (insert_csv : list insert_row) (failed_csv : list failed_row) : outcome :=
  match chunks with
  | [] => Finished (write_aligned aligned) insert_csv failed_csv
  | chunk :: chunks' =>
      match mapstar cfg chunk with
      | Err e => Raised e insert_csv failed_csv
      | Ok results =>
          let '(aligned', insert_csv', failed_csv') :=
            sam2aln_results results aligned insert_csv failed_csv in
          sam2aln_pool_loop cfg chunks' aligned' insert_csv' failed_csv'
      end
  end.

(** The truth value of [nthreads], the value of the option [-p]: an integer
    or [None]. *)
Definition truthy (nthreads : option Z) : bool :=
  match nthreads with
  | Some n => negb (n =? 0)
  | None => false
  end.

(** [sam2aln].  [if nthreads:] takes the serial path for [None] and for
    [0].  On the other path [Pool(processes=nthreads)] raises [ValueError]
    for a number below 1, when the loop asks for the first result: the two
    headers are written by then, and no row. *)
Definition sam2aln (cfg : settings) (nthreads : option Z) (remap_csv : list sam_row)
    : outcome :=
  if truthy nthreads then
    if decide (default 0 nthreads < 1) then Raised ValueError [] []
    else sam2aln_pool_loop cfg (get_tasks 100 (matchmaker remap_csv)) ∅ [] []
  else sam2aln_loop cfg (matchmaker remap_csv) ∅ [] [].

(** Settings and rows for the worked examples. *)
Definition cfg0 : settings :=
  {| max_prop_N := 0.5%float; read_mapping_cutoff := 10; sam2aln_q_cutoffs := [0; 10; 15] |}.

Definition mk_row (qname : string) (flag : Z) (rname : string) (pos mapq : Z)
    (cigar seq qual : string) : sam_row :=
  SamRow (lit qname) flag (lit rname) pos mapq (lit cigar) (lit seq) (lit qual).

(** ** Vocabulary of the statements *)

(** The read bases one token moves [left] by: those of [M], [I] and [S]. *)
Definition token_consumes (token : str * ascii) : nat :=
  if bool_decide (token.2 ∈ lit "MIS") then int_of_digits token.1 else 0%nat.

Definition consumed (tokens : list (str * ascii)) : nat :=
  sum_list_with token_consumes tokens.

(** What the tokens put into the main sequence: the bases under [M] and the
    gaps of [D], and nothing for any other token. *)
Fixpoint main_sequence (seq : str) (left : nat) (tokens : list (str * ascii)) : str :=
  match tokens with
  | [] => []
  | token :: tokens' =>
      let n := int_of_digits token.1 in
      if decide (token.2 = "M"%char)
      then substr seq left n ++ main_sequence seq (left + n) tokens'
      else if decide (token.2 = "D"%char)
      then replicate n gap ++ main_sequence seq left tokens'
      else main_sequence seq (left + token_consumes token) tokens'
  end.

(** [key] holds [v] because of an [I] token: the token starts at read offset
    [left], at most [clip_to] when there is one, [key] is [left + pos], [v]
    is its bases and qualities, and no later [I] token starts at the same
    offset. *)
Definition recorded (seq qual : str) (pos : Z) (clip_to : option Z)
    (tokens : list (str * ascii)) (key : Z) (v : str * str) : Prop :=
  ∃ (k : nat) (digits : str),
    tokens !! k = Some (digits, "I"%char) ∧
    key = Z.of_nat (consumed (take k tokens)) + pos ∧
    (∀ c, clip_to = Some c → Z.of_nat (consumed (take k tokens)) ≤ c) ∧
    v = (substr seq (consumed (take k tokens)) (int_of_digits digits),
         substr qual (consumed (take k tokens)) (int_of_digits digits)) ∧
    ∀ (k' : nat) (digits' : str),
      (k < k')%nat → tokens !! k' = Some (digits', "I"%char) →
      consumed (take k' tokens) ≠ consumed (take k tokens).

(** A position inside the clip window [[clip_from, clip_to]]. *)
Definition in_clip_window (clip_from : Z) (clip_to : option Z) (p : Z) : Prop :=
  clip_from ≤ p ∧ ∀ c, clip_to = Some c → p ≤ c.

(** The token grammar in the words of the specification: a CIGAR string is
    a sequence of tokens, each a non-empty run of digits and one operation
    letter. *)
Inductive cigar_grammar : str → Prop :=
  | cigar_grammar_nil : cigar_grammar []
  | cigar_grammar_token digits op rest :
      digits ≠ [] →
      Forall (λ c, is_digit c = true) digits →
      is_op op = true →
      cigar_grammar rest →
      cigar_grammar (digits ++ op :: rest).

(** The call kept for two discordant bases, in the words of the
    specification: the higher-quality call when its quality exceeds the
    cutoff and exceeds the other quality by at least the minimum delta, and
    [N] in every other case. *)
Definition resolve_discordant (c1 c2 : ascii) (q1 q2 q_cutoff minimum_q_delta : Z)
    : ascii :=
  if decide (q2 < q1 ∧ q_cutoff < q1 ∧ minimum_q_delta ≤ q1 - q2) then c1
  else if decide (q1 < q2 ∧ q_cutoff < q2 ∧ minimum_q_delta ≤ q2 - q1) then c2
  else "N"%char.

(** One mate as [parse_sam] hands it to [merge_pairs]: decoded, then padded
    on the left up to its position. *)
Definition padded_read (row : sam_row) : result decoding_error (str * str) :=
  match apply_cigar (row_cigar row) (row_seq row) (row_qual row) 0 0 None with
  | Ok (seq, qual, _) =>
      Ok (str_mul gap (row_pos row - 1) ++ seq,
          str_mul "!"%char (row_pos row - 1) ++ qual)
  | Err e => Err e
  end.

(** How often [x] occurs in [l]. *)
Definition occurrences {A} `{EqDecision A} (x : A) (l : list A) : nat :=
  length (filter (λ y, y = x) l).

(** The fraction of [N] in a merged sequence in the words of the
    specification: the number of its [N] characters over its length without
    the gaps that flank it, those at its start and those at its end; the
    quotient is the binary64 one. *)
Definition unpadded_length (mseq : str) : nat :=
  length mseq - (len_gap_prefix mseq + len_gap_prefix (reverse mseq)).

Definition n_fraction (mseq : str) : float :=
  PrimFloat.div (float_of_nat (occurrences "N"%char mseq))
                (float_of_nat (unpadded_length mseq)).

(** A failure row written for a merge at cutoff [qcut]. *)
Definition failed_at (qcut : Z) (row : failed_row) : Prop :=
  match row with
  | FailedMerge _ q _ _ _ _ _ _ => q = qcut
  | FailedPair _ _ _ _ _ _ _ => False
  end.

(** The rows of the aligned CSV for one (reference, cutoff) group, in the
    order they were written. *)
Definition group_of (rname : str) (qcut : Z) (aligned_csv : list aligned_row)
    : list aligned_row :=
  filter (λ row, al_refname row = rname ∧ al_qcut row = qcut) aligned_csv.

(** The sequences merged with success for one group, in stream order. *)
Definition group_merges (cfg : settings) (pairs : list (sam_row * option sam_row))
    (rname : str) (qcut : Z) : list str :=
  omap (λ rows,
          match parse_sam cfg rows with
          | Ok (r, mseqs, _, _) => if decide (r = rname) then mseqs !! qcut else None
          | Err _ => None
          end) pairs.

(** The order of the variant rows in the words of the specification: count
    descending, then length of the leading gap run descending, then sequence
    descending. *)
Definition ranked_before (t u : nat * nat * str) : Prop :=
  (u.1.1 < t.1.1)%nat
  ∨ (t.1.1 = u.1.1
     ∧ ((u.1.2 < t.1.2)%nat
        ∨ (t.1.2 = u.1.2 ∧ str_compare t.2 u.2 = Gt))).

(** The counter of one group in [aligned], empty when the group is absent. *)
Definition counter_at (aligned : gmap str (gmap Z (gmap str nat)))
    (rname : str) (qcut : Z) : gmap str nat :=
  default ∅ (default ∅ (aligned !! rname) !! qcut).

(** The insertion and failure rows [parse_sam] returns for the pairs. *)
Definition insert_rows_of (cfg : settings) (pairs : list (sam_row * option sam_row))
    : list insert_row :=
  rows ← pairs;
  match parse_sam cfg rows with
  | Ok (_, _, insert_list, _) => insert_list
  | Err _ => []
  end.

Definition failed_rows_of (cfg : settings) (pairs : list (sam_row * option sam_row))
    : list failed_row :=
  rows ← pairs;
  match parse_sam cfg rows with
  | Ok (_, _, _, failed_list) => failed_list
  | Err _ => []
  end.

(** The pairs whose rows are in the insertion and failure files when the
    run stops at the pair that follows [before]: all of [before] on the
    serial path, and with a pool the chunks of 100 pairs that are complete
    before the chunk of that pair. *)
Definition written_before {A} (nthreads : option Z) (before : list A) : list A :=
  if truthy nthreads then take (length before / 100 * 100) before else before.

(** The counter of one group at the end of the main loop: one increment
    for each of its merges. *)
Definition group_counter (cfg : settings) (pairs : list (sam_row * option sam_row))
    (rname : str) (qcut : Z) : gmap str nat :=
  foldl (λ c m, counter_incr m c) ∅ (group_merges cfg pairs rname qcut).

(** The tuple sorted for one item of a counter. *)
Abbreviation tuple_of := (λ sc : str * nat, (sc.2, len_gap_prefix sc.1, sc.1)).

(** A three-way comparison that decides equality, flips with its arguments
    and is transitive. *)
Record comparison_ok {A} (cmp : A → A → comparison) : Prop := {
  cmp_eq x y : cmp x y = Eq ↔ x = y;
  cmp_opp x y : cmp y x = CompOpp (cmp x y);
  cmp_lt_trans x y z : cmp x y = Lt → cmp y z = Lt → cmp x z = Lt
}.

(** The settings with another list of cutoffs. *)
Definition with_cutoffs (cfg : settings) (qcuts : list Z) : settings :=
  {| max_prop_N := max_prop_N cfg;
     read_mapping_cutoff := read_mapping_cutoff cfg;
     sam2aln_q_cutoffs := qcuts |}.

(** The reference columns the tokens cover: the lengths of [M] and [D]. *)
Definition reference_span (tokens : list (str * ascii)) : nat :=
  sum_list_with
    (λ token : str * ascii,
       if bool_decide (token.2 ∈ lit "MD") then int_of_digits token.1 else 0%nat)
    tokens.

(** Two states of the token loop, the first run under the bound [end_] and
    the second without a bound: the same strings and read offset, and the
    first holds some of the insertions of the second, each at an offset
    below the bound. *)
Definition clip_related (pos : Z) (end_ : option Z) (st1 st2 : cigar_state) : Prop :=
  newseq st1 = newseq st2
  ∧ newqual st1 = newqual st2
  ∧ left st1 = left st2
  ∧ insertions st1 ⊆ insertions st2
  ∧ ∀ key, is_Some (insertions st1 !! key) →
           ∃ l : nat, key = Z.of_nat l + pos ∧ before_end end_ l = true.

(** What the second loop of [merge_pairs] splices in at [pos]: the merge of
    the two insertions found there, or nothing when both are empty. *)
Definition merged_insertion (ins1 ins2 : option (gmap Z (str * str))) (pos : nat)
    : option str :=
  let '(ins_seq1, ins_qual1) := ins_get ins1 pos in
  let '(ins_seq2, ins_qual2) := ins_get ins2 pos in
  if decide (ins_seq1 ≠ [] ∨ ins_seq2 ≠ [])
  then merge_reads ins_seq1 ins_seq2 ins_qual1 ins_qual2 10 5
  else Some [].

(** The rows of one yielded pair. *)
Definition pair_rows (rows : sam_row * option sam_row) : list sam_row :=
  rows.1 :: option_list rows.2.

(** The failure row of a pair that [parse_sam] does not decode. *)
Definition failed_pair_row (rows : sam_row * option sam_row) : failed_row :=
  FailedPair (row_qname rows.1) (row_seq rows.1) (row_qual rows.1)
             (row_seq <$> rows.2) (row_qual <$> rows.2)
             (row_mapq rows.1) (row_mapq <$> rows.2).

(** * Properties of apply_cigar *)

Section list_slices.
Context {A : Type}.
Implicit Types l : list A.

Lemma length_substr l left len :
  length (substr l left len) = Nat.min len (length l - left).
Proof. unfold substr. by rewrite length_take, length_drop. Qed.

Lemma length_py_slice l1 l2 lo hi :
  length l1 = length l2 →
  length (py_slice l1 lo hi) = length (py_slice l2 lo hi).
Proof.
  intros Hlen. unfold py_slice.
  rewrite !length_take, !length_drop, Hlen. done.
Qed.
End list_slices.

#[local] Arguments consumed : simpl never.

Lemma token_consumes_cases digits op :
  token_consumes (digits, op) =
  if decide (op = "M"%char ∨ op = "I"%char ∨ op = "S"%char)
  then int_of_digits digits else 0%nat.
Proof.
  unfold token_consumes. simpl. case_bool_decide as Hin; case_decide as Hop; try done.
  - exfalso. apply Hop. unfold lit in Hin. simpl in Hin.
    decompose_list_elem_of; auto.
  - exfalso. apply Hin. unfold lit. simpl.
    destruct Hop as [-> | [-> | ->]]; set_solver.
Qed.

Section token_loop.
Context (cigar seq qual : str) (pos : Z) (end_ : option Z).

Local Abbreviation step := (apply_token cigar seq qual pos end_).
Local Abbreviation loop := (apply_tokens cigar seq qual pos end_).

(** Case analysis on one successful iteration. *)
Lemma apply_token_Ok st token st' :
  step st token = Ok st' →
  (left st' ≤ length seq)%nat ∧
  left st' = (left st + token_consumes token)%nat ∧
  newseq st' = newseq st ++ main_sequence seq (left st) [token] ∧
  length (newqual st') =
    (length (newqual st) +
     (if decide (token.2 = "M"%char)
      then length (substr qual (left st) (int_of_digits token.1))
      else if decide (token.2 = "D"%char) then int_of_digits token.1
      else 0))%nat ∧
  insertions st' =
    if decide (token.2 = "I"%char)
    then if before_end end_ (left st)
         then <[Z.of_nat (left st) + pos :=
                  (substr seq (left st) (int_of_digits token.1),
                   substr qual (left st) (int_of_digits token.1))]>
                (insertions st)
         else insertions st
    else insertions st.
Proof.
  destruct token as [digits op]. unfold apply_token.
  rewrite token_consumes_cases. simpl.
  repeat case_decide; subst; simpl; try discriminate; try (exfalso; intuition congruence);
    case_decide; try discriminate; intros [= <-]; simpl;
    rewrite ?app_nil_r, ?length_app, ?length_replicate, ?Nat.add_0_r;
    repeat split; try done; try lia.
Qed.

Lemma apply_tokens_app tokens1 tokens2 st :
  loop st (tokens1 ++ tokens2) =
  rbind (loop st tokens1) (λ st1, loop st1 tokens2).
Proof.
  revert st. induction tokens1 as [|token tokens1 IH]; intros st; simpl; [done|].
  destruct (step st token) as [st1|e]; simpl; [apply IH|done].
Qed.

Lemma consumed_cons token tokens :
  consumed (token :: tokens) = (token_consumes token + consumed tokens)%nat.
Proof. done. Qed.

Lemma consumed_app tokens1 tokens2 :
  consumed (tokens1 ++ tokens2) = (consumed tokens1 + consumed tokens2)%nat.
Proof. apply sum_list_with_app. Qed.

Lemma main_sequence_app left tokens1 tokens2 :
  main_sequence seq left (tokens1 ++ tokens2) =
  main_sequence seq left tokens1 ++
  main_sequence seq (left + consumed tokens1) tokens2.
Proof.
  revert left. induction tokens1 as [|[digits op] tokens1 IH]; intros left.
  { simpl. by rewrite Nat.add_0_r. }
  rewrite consumed_cons. simpl. rewrite !IH, token_consumes_cases.
  repeat case_decide; subst; simpl; rewrite <-?app_assoc;
    try (exfalso; intuition congruence);
    by rewrite ?Nat.add_0_l, ?Nat.add_0_r, ?Nat.add_assoc.
Qed.

(** The loop as a whole, when it ends without an error. *)
Lemma apply_tokens_Ok tokens st st' :
  loop st tokens = Ok st' →
  (left st ≤ length seq → left st' ≤ length seq)%nat ∧
  left st' = (left st + consumed tokens)%nat ∧
  newseq st' = newseq st ++ main_sequence seq (left st) tokens.
Proof.
  revert st. induction tokens as [|token tokens IH]; intros st; cbn [apply_tokens].
  { intros [= <-]. unfold consumed. simpl. by rewrite Nat.add_0_r, app_nil_r. }
  destruct (step st token) as [st1|e] eqn:Htok; cbn [rbind]; [|done].
  intros Hrest. apply apply_token_Ok in Htok as (Hle & Hleft & Hseq & _).
  apply IH in Hrest as (Hle' & Hleft' & Hseq').
  rewrite consumed_cons. split_and!; [auto|lia|].
  rewrite Hseq', Hseq, <-app_assoc.
  change (token :: tokens) with ([token] ++ tokens).
  rewrite (main_sequence_app (left st) [token] tokens), consumed_cons.
  unfold consumed at 1. simpl. by rewrite Nat.add_0_r, Hleft.
Qed.

(** With enough quality characters the two strings grow in step. *)
Lemma apply_tokens_lengths tokens st st' :
  (length seq ≤ length qual)%nat →
  loop st tokens = Ok st' →
  length (newseq st) = length (newqual st) →
  length (newseq st') = length (newqual st').
Proof.
  intros Hqual. revert st. induction tokens as [|token tokens IH]; intros st; simpl.
  { by intros [= <-]. }
  destruct (step st token) as [st1|e] eqn:Htok; simpl; [|done].
  intros Hrest Hlen. apply (IH _ Hrest).
  apply apply_token_Ok in Htok as (Hle & Hleft & Hseq & Hq & _).
  rewrite Hseq, Hq, length_app, Hlen. f_equal.
  destruct token as [digits op]. simpl in *.
  rewrite token_consumes_cases in Hleft.
  repeat case_decide; subst; simpl; rewrite ?app_nil_r, ?length_app,
    ?length_replicate, ?length_substr; simpl; try (exfalso; intuition congruence); lia.
Qed.
End token_loop.

Section insertion_map.
Context (seq qual : str) (pos : Z) (clip_to : option Z).

Local Abbreviation end_ := ((λ c, c + 1) <$> clip_to).

Lemma before_end_clip_to left :
  before_end end_ left = true ↔ ∀ c, clip_to = Some c → Z.of_nat left ≤ c.
Proof.
  destruct clip_to as [c|]; simpl.
  - rewrite Z.ltb_lt. split; [intros ? ? [= <-]; lia|]. intros H. specialize (H c eq_refl). lia.
  - split; [by intros _ c|done].
Qed.

(** What one more token does to the insertions on record. *)
Lemma recorded_snoc tokens token key v :
  recorded seq qual pos clip_to (tokens ++ [token]) key v ↔
  (token.2 = "I"%char ∧
   before_end end_ (consumed tokens) = true ∧
   key = Z.of_nat (consumed tokens) + pos ∧
   v = (substr seq (consumed tokens) (int_of_digits token.1),
        substr qual (consumed tokens) (int_of_digits token.1)))
  ∨ (recorded seq qual pos clip_to tokens key v ∧
     ¬ (token.2 = "I"%char ∧ Z.of_nat (consumed tokens) + pos = key)).
Proof.
  unfold recorded. split.
  - intros (k & digits & Hk & Hkey & Hclip & Hv & Hlast).
    apply lookup_snoc_Some in Hk as [[Hlt Hk]|[-> ->]].
    + right. rewrite take_app_le in Hkey, Hclip, Hv, Hlast by lia. split.
      * exists k, digits. split_and!; try done.
        intros k' digits' Hlt' Hk'. apply lookup_lt_Some in Hk' as Hlen.
        specialize (Hlast k' digits' Hlt' (lookup_app_l_Some _ _ _ _ Hk')).
        by rewrite take_app_le in Hlast by lia.
      * intros [Hop Hsame]. destruct token as [digits' op]. simpl in Hop. subst op.
        apply (Hlast (length tokens) digits' Hlt).
        { by rewrite lookup_app_r, Nat.sub_diag by lia. }
        rewrite take_app_length. lia.
    + left. rewrite take_app_length in Hkey, Hclip, Hv. simpl.
      by rewrite before_end_clip_to.
  - intros [(Hop & Hclip & Hkey & Hv)|[(k & digits & Hk & Hkey & Hclip & Hv & Hlast) Hnew]].
    + destruct token as [digits op]. simpl in *. subst op.
      exists (length tokens), digits. rewrite take_app_length.
      split_and!; try done.
      * by rewrite lookup_app_r, Nat.sub_diag by lia.
      * by apply before_end_clip_to.
      * intros k' digits' Hlt' Hk'. apply lookup_lt_Some in Hk'.
        rewrite length_app in Hk'. simpl in Hk'. lia.
    + apply lookup_lt_Some in Hk as Hlt.
      exists k, digits. rewrite take_app_le by lia. split_and!; try done.
      { by apply lookup_app_l_Some. }
      intros k' digits' Hlt' Hk'.
      apply lookup_snoc_Some in Hk' as [[Hlt'' Hk']|[-> ->]].
      * rewrite take_app_le by lia. by eapply Hlast.
      * rewrite take_app_length. intros Hsame. apply Hnew. simpl. split; [done|lia].
Qed.

(** The insertion map after the loop holds what the [I] tokens recorded,
    the last one at a key winning. *)
Lemma apply_tokens_recorded cigar tokens st0 st' :
  insertions st0 = ∅ → left st0 = 0%nat →
  apply_tokens cigar seq qual pos end_ st0 tokens = Ok st' →
  ∀ key v, insertions st' !! key = Some v ↔
           recorded seq qual pos clip_to tokens key v.
Proof.
  intros Hins0 Hleft0. revert st'.
  induction tokens as [|token tokens IH] using rev_ind; intros st'.
  { intros [= <-] key v. rewrite Hins0, lookup_empty. split; [done|].
    by intros (k & digits & [=] & _). }
  rewrite apply_tokens_app.
  destruct (apply_tokens _ _ _ _ _ st0 tokens) as [st1|e] eqn:Hloop; [|done].
  cbn [rbind apply_tokens].
  destruct (apply_token _ _ _ _ _ st1 token) as [st2|e] eqn:Hstep; [|done].
  cbn [rbind]. intros [= <-] key v.
  apply apply_tokens_Ok in Hloop as Hst1. destruct Hst1 as (_ & Hleft1 & _).
  rewrite Hleft0, Nat.add_0_l in Hleft1.
  apply apply_token_Ok in Hstep as (_ & _ & _ & _ & Hins).
  rewrite Hleft1 in Hins. rewrite Hins, recorded_snoc, <-(IH st1 eq_refl).
  destruct (decide (token.2 = "I"%char)) as [Hop|Hop];
    [destruct (before_end end_ (consumed tokens)) eqn:Hclip|].
  - destruct (decide (Z.of_nat (consumed tokens) + pos = key)) as [<-|Hkey].
    + rewrite lookup_insert_eq. split; [intros [= <-]; by left|].
      intros [(_ & _ & _ & ->)|[_ []]]; done.
    + rewrite lookup_insert_ne by done.
      split; [intros ?; right; split; [done|]; by intros [_ ?]|].
      intros [(_ & _ & -> & _)|[? _]]; done.
  - split; [|intros [(_ & [=] & _)|[? _]]; done].
    intros Hrec. right. split; [done|]. intros [_ <-].
    apply (IH st1 eq_refl) in Hrec as (k & digits & Hk & Hkey & Hle & _ & _).
    assert (consumed tokens = consumed (take k tokens)) as Heq by lia.
    rewrite Heq in Hclip. apply before_end_clip_to in Hle. congruence.
  - split; [intros ?; right; split; [done|]; by intros [? _]|].
    intros [(? & _)|[? _]]; done.
Qed.
End insertion_map.

(** What [apply_cigar] does with the [I] tokens.  When it returns, the main
    sequence is the left padding followed by the bases under [M] and the
    gaps of [D] only, clipped: the bases of an [I] token are not copied into
    it.  The insertion map holds the bases and qualities of an [I] token
    under the key [left + pos], where [left] counts the read bases taken by
    the tokens before it, exactly when there is no [clip_to] or [left] is at
    most [clip_to]; of several [I] tokens at one offset the last is kept. *)
Lemma apply_cigar_insertions cigar seq qual pos clip_from clip_to s q ins :
  apply_cigar cigar seq qual pos clip_from clip_to = Ok (s, q, ins) →
  s = py_slice (str_mul gap pos ++ main_sequence seq 0 (cigar_findall [] cigar))
               clip_from ((λ c, c + 1) <$> clip_to)
  ∧ ∀ key v, ins !! key = Some v ↔
             recorded seq qual pos clip_to (cigar_findall [] cigar) key v.
Proof.
  unfold apply_cigar. destruct (is_valid cigar); [|done]. cbn [negb].
  destruct (apply_tokens _ _ _ _ _ _ _) as [st|e] eqn:Hloop; [|done].
  cbn [rbind]. case_decide; [done|]. intros [= <- <- <-].
  apply apply_tokens_Ok in Hloop as Hst. destruct Hst as (_ & _ & ->).
  split; [done|]. eapply apply_tokens_recorded; [| |exact Hloop]; done.
Qed.

Example apply_cigar_insertions_ex :
  apply_cigar (lit "2S3M1I2M2D1M") (lit "TTACGAGTC") (lit "##ABCDEFG") 2 0 (Some 7)
  = Ok (lit "--ACGGT-", lit "!!ABCEF ", {[ 7 := (lit "A", lit "D") ]}).
Proof. vm_compute. reflexivity. Qed.

(** C3.  The code departs from the claim, and from the docstring of
    [apply_cigar], on an insertion outside the clip window.  A read of four
    bases at position 0, clipped to the window from 10 to 20, has no base
    in the window: the two strings come back empty, as the docstring says,
    but the insertion in front of the read is in the map, under the key 0,
    which is not a position of the window.  The same insertion is kept with
    the window from 2 to 3, which the read reaches. *)
Theorem apply_cigar_insertion_outside_clip :
  apply_cigar (lit "1I3M") (lit "TACG") (lit "IIII") 0 10 (Some 20)
  = Ok ([], [], {[ 0 := (lit "T", lit "I") ]})
  ∧ ¬ in_clip_window 10 (Some 20) 0
  ∧ apply_cigar (lit "1I3M") (lit "TACG") (lit "IIII") 0 2 (Some 3)
    = Ok (lit "G", lit "I", {[ 0 := (lit "T", lit "I") ]})
  ∧ ¬ in_clip_window 2 (Some 3) 0.
Proof.
  split; [vm_compute; reflexivity|]. split; [intros [Hfrom _]; lia|].
  split; [vm_compute; reflexivity|]. intros [Hfrom _]. lia.
Qed.

(** C10, as amended.  When the quality string is at least as long as the
    base string and [apply_cigar] returns, the clipped sequence and the
    clipped quality string have the same length. *)
Theorem apply_cigar_lengths cigar seq qual pos clip_from clip_to s q ins :
  (length seq ≤ length qual)%nat →
  apply_cigar cigar seq qual pos clip_from clip_to = Ok (s, q, ins) →
  length s = length q.
Proof.
  intros Hqual. unfold apply_cigar. destruct (is_valid cigar); [|done]. cbn [negb].
  destruct (apply_tokens _ _ _ _ _ _ _) as [st|e] eqn:Hloop; [|done].
  cbn [rbind]. case_decide; [done|]. intros [= <- <- <-].
  apply length_py_slice. eapply apply_tokens_lengths; [done..|].
  unfold str_mul. simpl. by rewrite !length_replicate.
Qed.

Lemma apply_cigar_lengths_witness :
  (length (lit "TTACGAGTC") ≤ length (lit "##ABCDEFG"))%nat
  ∧ apply_cigar (lit "2S3M1I2M2D1M") (lit "TTACGAGTC") (lit "##ABCDEFG") 2 1 (Some 7)
    = Ok (lit "-ACGGT-", lit "!ABCEF ", {[ 7 := (lit "A", lit "D") ]})
  ∧ length (lit "-ACGGT-") = length (lit "!ABCEF ").
Proof.
  assert (length (lit "TTACGAGTC") ≤ length (lit "##ABCDEFG"))%nat as Hq.
  { vm_compute. lia. }
  assert (apply_cigar (lit "2S3M1I2M2D1M") (lit "TTACGAGTC") (lit "##ABCDEFG")
            2 1 (Some 7)
          = Ok (lit "-ACGGT-", lit "!ABCEF ", {[ 7 := (lit "A", lit "D") ]})) as H.
  { vm_compute. reflexivity. }
  split; [exact Hq|]. split; [exact H|].
  exact (apply_cigar_lengths _ _ _ _ _ _ _ _ _ Hq H).
Defined.

(** C10 as stated fails on a quality string shorter than the bases. *)
Lemma apply_cigar_lengths_differ :
  ∃ s q ins,
    apply_cigar (lit "4M") (lit "ACGT") (lit "AB") 0 0 None = Ok (s, q, ins)
    ∧ length s ≠ length q.
Proof.
  exists (lit "ACGT"), (lit "AB"), ∅. split; [vm_compute; reflexivity|].
  vm_compute. lia.
Qed.

(** ** Decoding errors *)

Lemma cigar_grammar_chars cigar :
  cigar_grammar cigar → Forall (λ c, is_digit c || is_op c = true) cigar.
Proof.
  induction 1 as [|digits op rest _ Hdigits Hop _ IH]; [constructor|].
  apply Forall_app. split.
  - eapply Forall_impl; [exact Hdigits|]. intros c ->. done.
  - constructor; [|done]. rewrite Hop. apply orb_true_r.
Qed.

(** What the anchored match accepts, from either state of the automaton. *)
Lemma cigar_match_grammar cigar :
  (cigar_match false cigar = true →
   cigar_grammar cigar ∨ ∃ c, cigar = c ++ [newline] ∧ cigar_grammar c)
  ∧ (cigar_match true cigar = true →
     ∃ digits op rest,
       cigar = digits ++ op :: rest ∧
       Forall (λ c, is_digit c = true) digits ∧ is_op op = true ∧
       (cigar_grammar rest ∨ ∃ c, rest = c ++ [newline] ∧ cigar_grammar c)).
Proof.
  induction cigar as [|x cigar [IHtoken IHdigits]]; simpl.
  { split; [intros _; left; constructor|done]. }
  destruct (is_digit x) eqn:Hx.
  - assert (cigar_match true cigar = true →
            ∃ digits op rest,
              x :: cigar = digits ++ op :: rest ∧ digits ≠ [] ∧
              Forall (λ c, is_digit c = true) digits ∧ is_op op = true ∧
              (cigar_grammar rest ∨ ∃ c, rest = c ++ [newline] ∧ cigar_grammar c))
      as Hrun.
    { intros (digits & op & rest & -> & Hdigits & Hop & Hrest)%IHdigits.
      exists (x :: digits), op, rest. split_and!; try done. by constructor. }
    split.
    + intros (digits & op & rest & -> & Hne & Hdigits & Hop & [Hrest|(c & -> & Hc)])%Hrun.
      * left. by constructor.
      * right. exists (digits ++ op :: c). split; [by rewrite <-app_assoc|].
        by constructor.
    + intros (digits & op & rest & -> & _ & Hdigits & Hop & Hrest)%Hrun.
      by exists digits, op, rest.
  - split.
    + intros [->%bool_decide_eq_true ->%bool_decide_eq_true]%andb_true_iff.
      right. exists []. split; [done|constructor].
    + intros [Hop Hrest%IHtoken]%andb_true_iff.
      by exists [], x, cigar.
Qed.

(** A string the match accepts is in the grammar, up to one newline at its
    end. *)
Lemma is_valid_grammar cigar :
  is_valid cigar = true →
  cigar_grammar cigar ∨ ∃ c, cigar = c ++ [newline] ∧ cigar_grammar c.
Proof. apply cigar_match_grammar. Qed.

(** The three ways of failing named by the specification, on the code: a
    string outside the grammar (a closing newline apart), a token that takes
    the read offset past the end of the bases, and tokens that leave bases
    over.  Each ends in a decoding error. *)
Lemma apply_cigar_decoding_errors cigar seq qual pos clip_from clip_to :
  (¬ cigar_grammar cigar ∧ ¬ ∃ c, cigar = c ++ [newline] ∧ cigar_grammar c)
  ∨ (∃ k, length seq < consumed (take k (cigar_findall [] cigar)))%nat
  ∨ (consumed (cigar_findall [] cigar) < length seq)%nat →
  ∃ e, apply_cigar cigar seq qual pos clip_from clip_to = Err e.
Proof.
  intros Hbad. unfold apply_cigar.
  destruct (is_valid cigar) eqn:Hvalid; cbn [negb]; [|by eexists].
  destruct (apply_tokens _ _ _ _ _ _ _) as [st|e] eqn:Hloop; cbn [rbind]; [|by eexists].
  case_decide as Hshort; [by eexists|]. exfalso.
  destruct Hbad as [[Hg Hgn]|[[k Hlong]|Hleft]].
  - apply is_valid_grammar in Hvalid as [?|?]; done.
  - rewrite <-(take_drop k (cigar_findall [] cigar)), apply_tokens_app in Hloop.
    destruct (apply_tokens _ _ _ _ _ _ (take k _)) as [st1|e] eqn:Hpre; [|done].
    apply apply_tokens_Ok in Hpre as (Hle & Hleft & _). simpl in Hle, Hleft. lia.
  - apply apply_tokens_Ok in Hloop as (_ & Hst & _). simpl in Hst. lia.
Qed.

(** C6, at the input where the code departs from it: a CIGAR string that
    ends in a newline is outside the token grammar, and [apply_cigar]
    decodes it all the same. *)
Theorem apply_cigar_trailing_newline :
  ¬ cigar_grammar (lit "4M" ++ [newline])
  ∧ apply_cigar (lit "4M" ++ [newline]) (lit "ACGT") (lit "IIII") 0 0 None
    = Ok (lit "ACGT", lit "IIII", ∅).
Proof.
  split; [|vm_compute; reflexivity].
  intros Hchars%cigar_grammar_chars.
  apply Forall_app in Hchars as [_ Hnl]. by inversion Hnl.
Qed.

(** * Properties of merge_pairs *)

Lemma merge_overlap_sym c1 c2 q1 q2 q_cutoff minimum_q_delta :
  merge_overlap c1 c2 q1 q2 q_cutoff minimum_q_delta =
  merge_overlap c2 c1 q2 q1 q_cutoff minimum_q_delta.
Proof.
  unfold merge_overlap.
  repeat case_decide; try done; try congruence; try tauto; lia.
Qed.

Lemma merge_overlap_discordant c1 c2 q1 q2 q_cutoff minimum_q_delta :
  c1 ≠ c2 →
  merge_overlap c1 c2 q1 q2 q_cutoff minimum_q_delta =
  resolve_discordant c1 c2 q1 q2 q_cutoff minimum_q_delta.
Proof.
  intros Hne. unfold merge_overlap, resolve_discordant.
  repeat case_decide; try done; try (destruct_and?; congruence); lia.
Qed.

Lemma mapM_ext_in {A B} (f g : A → option B) (l : list A) :
  (∀ x, x ∈ l → f x = g x) → mapM f l = mapM g l.
Proof.
  induction l as [|x l IH]; intros Hfg; [done|]. simpl.
  rewrite (Hfg x) by left. rewrite IH; [done|].
  intros y Hy. apply Hfg. by right.
Qed.

(** Mates of one length: every iteration is the overlap branch, which does
    not tell the mates apart. *)
Lemma merge_loop_sym seq1 seq2 qual1 qual2 q_cutoff minimum_q_delta :
  length seq1 = length seq2 →
  merge_loop seq1 seq2 qual1 qual2 q_cutoff minimum_q_delta =
  merge_loop seq2 seq1 qual2 qual1 q_cutoff minimum_q_delta.
Proof.
  intros Hlen. unfold merge_loop. rewrite Hlen. apply mapM_ext_in.
  intros i [_ Hi]%elem_of_seq. simpl in Hi. unfold merge_char.
  destruct (seq1 !! i) as [c1|], (seq2 !! i) as [c2|], (qual1 !! i) as [k1|],
    (qual2 !! i) as [k2|]; simpl; repeat case_decide; try done; try lia.
  by rewrite merge_overlap_sym.
Qed.

Lemma merge_reads_sym seq1 seq2 qual1 qual2 q_cutoff minimum_q_delta :
  merge_reads seq1 seq2 qual1 qual2 q_cutoff minimum_q_delta =
  merge_reads seq2 seq1 qual2 qual1 q_cutoff minimum_q_delta.
Proof.
  unfold merge_reads. repeat case_decide; try done; try lia.
  apply merge_loop_sym. lia.
Qed.

Lemma insert_loop_sym ins1 ins2 n mseq :
  insert_loop ins1 ins2 n mseq = insert_loop ins2 ins1 n mseq.
Proof.
  revert mseq. induction n as [|pos IH]; intros mseq; [done|]. simpl.
  destruct (ins_get ins1 pos) as [ins_seq1 ins_qual1].
  destruct (ins_get ins2 pos) as [ins_seq2 ins_qual2].
  rewrite (merge_reads_sym ins_seq1).
  repeat case_decide; try tauto.
  - destruct (merge_reads _ _ _ _ _ _); simpl; [apply IH|done].
  - apply IH.
Qed.

(** C4.  Swapping the two mates, with their quality strings and insertion
    maps, does not change what [merge_pairs] returns, whatever the lengths,
    the cutoff and the minimum delta. *)
Theorem merge_pairs_sym seq1 seq2 qual1 qual2 ins1 ins2 q_cutoff minimum_q_delta :
  merge_pairs seq1 seq2 qual1 qual2 ins1 ins2 q_cutoff minimum_q_delta =
  merge_pairs seq2 seq1 qual2 qual1 ins2 ins1 q_cutoff minimum_q_delta.
Proof.
  unfold merge_pairs. rewrite (merge_reads_sym seq1).
  destruct (merge_reads _ _ _ _ _ _) as [mseq|]; simpl; [|done].
  apply insert_loop_sym.
Qed.

(** The first loop ends without an [IndexError] when each quality string
    covers its read, and then holds the character of each iteration. *)
Lemma merge_loop_Some seq1 seq2 qual1 qual2 q_cutoff minimum_q_delta :
  (length seq1 ≤ length qual1)%nat → (length seq2 ≤ length qual2)%nat →
  ∃ mseq,
    merge_loop seq1 seq2 qual1 qual2 q_cutoff minimum_q_delta = Some mseq
    ∧ length mseq = length seq2
    ∧ ∀ i, (i < length seq2)%nat →
           merge_char seq1 seq2 qual1 qual2 q_cutoff minimum_q_delta i = mseq !! i.
Proof.
  intros Hq1 Hq2. unfold merge_loop.
  destruct (mapM _ _) as [mseq|] eqn:Hmap.
  - apply mapM_Some_1 in Hmap. exists mseq.
    apply Forall2_length in Hmap as Hlen. rewrite length_seq in Hlen.
    split_and!; [done..|]. intros i Hi.
    destruct (lookup_lt_is_Some_2 mseq i) as [c Hc]; [lia|]. rewrite Hc.
    eapply (Forall2_lookup_lr _ _ _ i i c) in Hmap; [done| |done].
    by apply lookup_seq_lt.
  - exfalso. apply mapM_None_1, Exists_exists in Hmap as (i & [_ Hi]%elem_of_seq & Hnone).
    simpl in Hi. unfold merge_char in Hnone.
    destruct (lookup_lt_is_Some_2 seq2 i) as [c2 Hc2]; [lia|].
    destruct (lookup_lt_is_Some_2 qual2 i) as [k2 Hk2]; [lia|].
    rewrite Hc2, Hk2 in Hnone. simpl in Hnone.
    case_decide as Hi1; [|done].
    destruct (lookup_lt_is_Some_2 seq1 i) as [c1 Hc1]; [lia|].
    destruct (lookup_lt_is_Some_2 qual1 i) as [k1 Hk1]; [lia|].
    by rewrite Hc1, Hk1 in Hnone.
Qed.

Lemma merge_reads_Some seq1 seq2 qual1 qual2 q_cutoff minimum_q_delta :
  (length seq1 ≤ length qual1)%nat → (length seq2 ≤ length qual2)%nat →
  is_Some (merge_reads seq1 seq2 qual1 qual2 q_cutoff minimum_q_delta).
Proof.
  intros Hq1 Hq2. unfold merge_reads. case_decide.
  - destruct (merge_loop_Some seq2 seq1 qual2 qual1 q_cutoff minimum_q_delta)
      as (mseq & -> & _); done.
  - destruct (merge_loop_Some seq1 seq2 qual1 qual2 q_cutoff minimum_q_delta)
      as (mseq & -> & _); done.
Qed.

(** Without insertion maps the second loop leaves the sequence alone. *)
Lemma insert_loop_None n mseq : insert_loop None None n mseq = Some mseq.
Proof.
  revert mseq. induction n as [|pos IH]; intros mseq; [done|]. simpl.
  unfold ins_get. simpl. rewrite lookup_empty. simpl. apply IH.
Qed.

Lemma merge_pairs_None seq1 seq2 qual1 qual2 q_cutoff minimum_q_delta :
  merge_pairs seq1 seq2 qual1 qual2 None None q_cutoff minimum_q_delta =
  merge_reads seq1 seq2 qual1 qual2 q_cutoff minimum_q_delta.
Proof.
  unfold merge_pairs. destruct (merge_reads _ _ _ _ _ _); simpl; [|done].
  apply insert_loop_None.
Qed.

(** C5.  Where both mates cover position [i] with different bases, the
    first loop of [merge_pairs] writes at [i] the higher-quality call when
    its quality exceeds the cutoff and exceeds the other quality by at least
    [minimum_q_delta], and [N] otherwise.  The sequence of that loop is the
    one insertions are spliced into afterwards, and is the result when the
    call passes no insertion maps. *)
Theorem merge_pairs_discordant seq1 seq2 qual1 qual2 ins1 ins2
    q_cutoff minimum_q_delta i c1 c2 k1 k2 :
  (length seq1 ≤ length qual1)%nat → (length seq2 ≤ length qual2)%nat →
  seq1 !! i = Some c1 → seq2 !! i = Some c2 →
  qual1 !! i = Some k1 → qual2 !! i = Some k2 →
  c1 ≠ c2 →
  ∃ mseq,
    merge_pairs seq1 seq2 qual1 qual2 None None q_cutoff minimum_q_delta = Some mseq
    ∧ merge_pairs seq1 seq2 qual1 qual2 ins1 ins2 q_cutoff minimum_q_delta
      = insert_loop ins1 ins2 (length mseq) mseq
    ∧ mseq !! i =
      Some (resolve_discordant c1 c2 (phred k1) (phred k2) q_cutoff minimum_q_delta).
Proof.
  intros Hq1 Hq2 Hc1 Hc2 Hk1 Hk2 Hne.
  destruct (merge_reads_Some seq1 seq2 qual1 qual2 q_cutoff minimum_q_delta Hq1 Hq2)
    as [mseq Hmseq].
  exists mseq. rewrite merge_pairs_None. unfold merge_pairs. rewrite Hmseq.
  split_and!; [done..|].
  apply lookup_lt_Some in Hc1 as Hi1. apply lookup_lt_Some in Hc2 as Hi2.
  unfold merge_reads in Hmseq. case_decide.
  - destruct (merge_loop_Some seq2 seq1 qual2 qual1 q_cutoff minimum_q_delta Hq2 Hq1)
      as (mseq' & Hloop & _ & Hchar).
    rewrite Hloop in Hmseq. injection Hmseq as ->.
    rewrite <-Hchar by done. unfold merge_char.
    rewrite Hc1, Hk1. simpl. rewrite decide_True by done. rewrite Hc2, Hk2. simpl.
    by rewrite merge_overlap_sym, merge_overlap_discordant.
  - destruct (merge_loop_Some seq1 seq2 qual1 qual2 q_cutoff minimum_q_delta Hq1 Hq2)
      as (mseq' & Hloop & _ & Hchar).
    rewrite Hloop in Hmseq. injection Hmseq as ->.
    rewrite <-Hchar by done. unfold merge_char.
    rewrite Hc2, Hk2. simpl. rewrite decide_True by done. rewrite Hc1, Hk1. simpl.
    by rewrite merge_overlap_discordant.
Qed.

(** C9.  At a position past the end of the shorter mate, the first loop of
    [merge_pairs] writes [n] when the longer mate has a gap of quality zero
    there, else the longer mate's base when its quality exceeds the cutoff,
    else [N]; and this in whichever order the two mates are passed. *)
Theorem merge_pairs_past_end seq1 seq2 qual1 qual2 ins1 ins2
    q_cutoff minimum_q_delta i c k :
  (length seq1 ≤ length qual1)%nat → (length seq2 ≤ length qual2)%nat →
  (length seq1 ≤ i)%nat →
  seq2 !! i = Some c → qual2 !! i = Some k →
  ∃ mseq,
    merge_pairs seq1 seq2 qual1 qual2 None None q_cutoff minimum_q_delta = Some mseq
    ∧ merge_pairs seq2 seq1 qual2 qual1 None None q_cutoff minimum_q_delta = Some mseq
    ∧ merge_pairs seq1 seq2 qual1 qual2 ins1 ins2 q_cutoff minimum_q_delta
      = insert_loop ins1 ins2 (length mseq) mseq
    ∧ mseq !! i =
      Some (if decide (c = gap ∧ phred k = 0) then "n"%char
            else if decide (q_cutoff < phred k) then c
            else "N"%char).
Proof.
  intros Hq1 Hq2 Hi1 Hc Hk.
  apply lookup_lt_Some in Hc as Hi2.
  destruct (merge_loop_Some seq1 seq2 qual1 qual2 q_cutoff minimum_q_delta Hq1 Hq2)
    as (mseq & Hloop & _ & Hchar).
  assert (merge_reads seq1 seq2 qual1 qual2 q_cutoff minimum_q_delta = Some mseq)
    as Hmseq.
  { unfold merge_reads. rewrite decide_False by lia. done. }
  exists mseq. rewrite !merge_pairs_None, (merge_reads_sym seq2).
  unfold merge_pairs. rewrite Hmseq. split_and!; [done..|].
  rewrite <-Hchar by done. unfold merge_char.
  rewrite Hc, Hk. simpl. rewrite decide_False by lia. done.
Qed.

Lemma merge_pairs_discordant_witness :
  ∃ mseq,
    merge_pairs (lit "ACGT") (lit "ACCTAG-") (lit "IIII") (lit "I5##I#!")
                None None 10 5 = Some mseq
    ∧ merge_pairs (lit "ACGT") (lit "ACCTAG-") (lit "IIII") (lit "I5##I#!")
                  (Some {[ 2 := (lit "TT", lit "II") ]}) None 10 5
      = insert_loop (Some {[ 2 := (lit "TT", lit "II") ]}) None (length mseq) mseq
    ∧ mseq !! 2%nat =
      Some (resolve_discordant "G" "C" (phred "I") (phred "#") 10 5).
Proof.
  apply (merge_pairs_discordant (lit "ACGT") (lit "ACCTAG-") (lit "IIII")
           (lit "I5##I#!") (Some {[ 2 := (lit "TT", lit "II") ]}) None 10 5
           2 "G" "C" "I" "#").
  - vm_compute. lia.
  - vm_compute. lia.
  - reflexivity.
  - reflexivity.
  - reflexivity.
  - reflexivity.
  - discriminate.
Defined.

Lemma merge_pairs_past_end_witness :
  ∃ mseq,
    merge_pairs (lit "ACGT") (lit "ACCTAG-") (lit "IIII") (lit "I5##I#!")
                None None 10 5 = Some mseq
    ∧ merge_pairs (lit "ACCTAG-") (lit "ACGT") (lit "I5##I#!") (lit "IIII")
                  None None 10 5 = Some mseq
    ∧ merge_pairs (lit "ACGT") (lit "ACCTAG-") (lit "IIII") (lit "I5##I#!")
                  (Some {[ 2 := (lit "TT", lit "II") ]}) None 10 5
      = insert_loop (Some {[ 2 := (lit "TT", lit "II") ]}) None (length mseq) mseq
    ∧ mseq !! 6%nat =
      Some (if decide ("-"%char = gap ∧ phred "!" = 0) then "n"%char
            else if decide (10 < phred "!") then "-"%char
            else "N"%char).
Proof.
  apply (merge_pairs_past_end (lit "ACGT") (lit "ACCTAG-") (lit "IIII")
           (lit "I5##I#!") (Some {[ 2 := (lit "TT", lit "II") ]}) None 10 5
           6 "-" "!").
  - vm_compute. lia.
  - vm_compute. lia.
  - vm_compute. lia.
  - reflexivity.
  - reflexivity.
Defined.

(** * Gap prefix and stripping *)

Lemma lstrip_gap_decompose s :
  s = replicate (len_gap_prefix s) gap ++ lstrip_gap s.
Proof.
  induction s as [|c s IH]; [done|]. simpl. case_decide; [|done].
  subst. simpl. by rewrite <-IH.
Qed.

Lemma lstrip_gap_head s : head (lstrip_gap s) ≠ Some gap.
Proof.
  induction s as [|c s IH]; [done|]. simpl. case_decide; [done|].
  simpl. by intros [= ->].
Qed.

Lemma rstrip_gap_decompose s :
  s = rstrip_gap s ++ replicate (len_gap_prefix (reverse s)) gap.
Proof.
  unfold rstrip_gap. rewrite <-(reverse_involutive s) at 1.
  rewrite (lstrip_gap_decompose (reverse s)) at 1.
  by rewrite reverse_app, reverse_replicate.
Qed.

Lemma strip_gap_ends s :
  head (strip_gap s) ≠ Some gap ∧ last (strip_gap s) ≠ Some gap.
Proof.
  unfold strip_gap. split.
  - pose proof (lstrip_gap_head s) as Hhead.
    rewrite (rstrip_gap_decompose (lstrip_gap s)) in Hhead.
    by destruct (rstrip_gap (lstrip_gap s)).
  - unfold rstrip_gap. rewrite last_reverse. apply lstrip_gap_head.
Qed.

Lemma len_gap_prefix_replicate (n : nat) (s : str) :
  len_gap_prefix (replicate n gap ++ s) = (n + len_gap_prefix s)%nat.
Proof.
  induction n as [|n IH]; [done|].
  cbn [replicate app len_gap_prefix]. rewrite decide_True by done. by rewrite IH.
Qed.

(** [len(mseq.strip('-'))] is the length without the flanking gaps. *)
Lemma length_strip_gap s : length (strip_gap s) = unpadded_length s.
Proof.
  unfold unpadded_length, strip_gap, rstrip_gap.
  pose proof (lstrip_gap_decompose s) as Hs.
  pose proof (lstrip_gap_decompose (reverse (lstrip_gap s))) as Hl.
  pose proof (lstrip_gap_head (reverse (lstrip_gap s))) as Hhead.
  pose proof (f_equal length Hs) as Hlen_s.
  pose proof (f_equal length Hl) as Hlen_l.
  rewrite length_app, length_replicate in Hlen_s, Hlen_l.
  rewrite length_reverse in Hlen_l.
  assert (len_gap_prefix (reverse s) =
          len_gap_prefix (reverse (lstrip_gap s))
          + (if decide (lstrip_gap (reverse (lstrip_gap s)) = [])
             then len_gap_prefix s else 0))%nat as Hrev.
  { rewrite Hs at 1. rewrite reverse_app, reverse_replicate. rewrite Hl at 1.
    rewrite <-app_assoc, len_gap_prefix_replicate. f_equal.
    destruct (lstrip_gap (reverse (lstrip_gap s))) as [|c t]; simpl.
    - rewrite <-(app_nil_r (replicate _ _)), len_gap_prefix_replicate. simpl. lia.
    - rewrite decide_False; [done|]. intros ->. by destruct Hhead. }
  rewrite length_reverse, Hrev. case_decide as Hnil.
  - rewrite Hnil in *. simpl in *. lia.
  - lia.
Qed.

(** The fraction the code computes is the fraction of the specification. *)
Lemma prop_N_fraction (mseq : str) : prop_N mseq = n_fraction mseq.
Proof. unfold prop_N, n_fraction. by rewrite length_strip_gap. Qed.

(** * Properties of parse_sam *)

Section cutoff_loop.
Context (cfg : settings) (qname seq1 seq2 qual1 qual2 : str).

Local Abbreviation merged := (λ q, merge_pairs seq1 seq2 qual1 qual2 None None q 5).
Local Abbreviation too_many_N := (λ m, PrimFloat.ltb (max_prop_N cfg) (prop_N m)).

(** The loop over the cutoffs, when every merge succeeds on a sequence that
    is not all gaps: each cutoff is settled by its own merge. *)
Lemma merge_cutoffs_Ok qcuts mseqs0 failed0 :
  (∀ q, q ∈ qcuts → ∃ m, merged q = Some m ∧ strip_gap m ≠ []) →
  ∃ mseqs failed_list,
    merge_cutoffs cfg qname seq1 seq2 qual1 qual2 qcuts mseqs0 failed0
    = Ok (mseqs, failed_list)
    ∧ (∀ q, q ∉ qcuts → mseqs !! q = mseqs0 !! q)
    ∧ (∀ q m, q ∈ qcuts → merged q = Some m →
         mseqs !! q = if too_many_N m then mseqs0 !! q else Some m)
    ∧ (∀ row, row ∈ failed_list ↔
         row ∈ failed0 ∨
         ∃ q m, q ∈ qcuts ∧ merged q = Some m ∧ too_many_N m = true ∧
                row = FailedMerge qname q seq1 qual1 seq2 qual2 (prop_N m) m).
Proof.
  revert mseqs0 failed0. induction qcuts as [|q0 qcuts IH]; intros mseqs0 failed0 Hall.
  { exists mseqs0, failed0. split_and!; [done|done| |].
    - by intros q m ?%elem_of_nil.
    - intros row. split; [by left|]. intros [?|(q & m & ?%elem_of_nil & _)]; done. }
  destruct (Hall q0) as (m0 & Hm0 & Hne0); [left|].
  cbn [merge_cutoffs]. rewrite Hm0. cbn [of_option rbind].
  rewrite decide_False by (by destruct (strip_gap m0)).
  destruct (too_many_N m0) eqn:Hfail.
  - destruct (IH mseqs0
                (failed0 ++ [FailedMerge qname q0 seq1 qual1 seq2 qual2 (prop_N m0) m0]))
      as (mseqs & failed_list & -> & Hout & Hin & Hfailed).
    { intros q Hq. apply Hall. by right. }
    exists mseqs, failed_list. split_and!; [done| | |].
    + intros q Hq. apply Hout. intros ?. apply Hq. by right.
    + intros q m Hq Hm. destruct (decide (q ∈ qcuts)) as [Hq'|Hq']; [by apply Hin|].
      apply elem_of_cons in Hq as [-> |?]; [|done].
      rewrite Hm0 in Hm. injection Hm as <-. rewrite Hfail. by apply Hout.
    + intros row. rewrite Hfailed, elem_of_app, list_elem_of_singleton. split.
      * intros [[?| ->]|(q & m & Hq & ?)]; [by left| |].
        -- right. exists q0, m0. split_and!; [left|done..].
        -- right. exists q, m. split; [by right|done].
      * intros [?|(q & m & [-> |Hq]%elem_of_cons & Hm & Hf & ->)]; [by left; left| |].
        -- rewrite Hm0 in Hm. injection Hm as <-. by left; right.
        -- right. by exists q, m.
  - destruct (IH (<[q0 := m0]> mseqs0) failed0)
      as (mseqs & failed_list & -> & Hout & Hin & Hfailed).
    { intros q Hq. apply Hall. by right. }
    exists mseqs, failed_list. split_and!; [done| | |].
    + intros q Hq. rewrite Hout by (intros ?; apply Hq; by right).
      apply lookup_insert_ne. intros ->. apply Hq. left.
    + intros q m Hq Hm. destruct (decide (q ∈ qcuts)) as [Hq'|Hq'].
      * rewrite (Hin q m Hq' Hm). destruct (too_many_N m) eqn:Hf; [|done].
        apply lookup_insert_ne. intros ->. congruence.
      * apply elem_of_cons in Hq as [-> |?]; [|done].
        rewrite Hm0 in Hm. injection Hm as <-.
        by rewrite Hfail, Hout, lookup_insert_eq.
    + intros row. rewrite Hfailed. split.
      * intros [?|(q & m & Hq & ?)]; [by left|]. right. exists q, m. split; [by right|done].
      * intros [?|(q & m & [-> |Hq]%elem_of_cons & Hm & Hf & ->)]; [by left| |].
        -- congruence.
        -- right. by exists q, m.
Qed.
End cutoff_loop.

(** An accepted pair that decodes, with cutoffs at which the merge is made
    and is not all gaps. *)
Lemma parse_sam_accepted cfg row1 row2 seq1 qual1 seq2 qual2 :
  pair_rejected cfg row1 (Some row2) = false →
  padded_read row1 = Ok (seq1, qual1) →
  padded_read row2 = Ok (seq2, qual2) →
  (∀ q, q ∈ sam2aln_q_cutoffs cfg →
        ∃ m, merge_pairs seq1 seq2 qual1 qual2 None None q 5 = Some m ∧
             strip_gap m ≠ []) →
  ∃ mseqs insert_list failed_list,
    parse_sam cfg (row1, Some row2)
    = Ok (row_rname row1, mseqs, insert_list, failed_list)
    ∧ ∀ q m,
        q ∈ sam2aln_q_cutoffs cfg →
        merge_pairs seq1 seq2 qual1 qual2 None None q 5 = Some m →
        mseqs !! q =
          (if PrimFloat.ltb (max_prop_N cfg) (prop_N m) then None else Some m)
        ∧ ∀ row,
            row ∈ failed_list ∧ failed_at q row ↔
            PrimFloat.ltb (max_prop_N cfg) (prop_N m) = true ∧
            row = FailedMerge (row_qname row1) q seq1 qual1 seq2 qual2 (prop_N m) m.
Proof.
  intros Hacc Hread1 Hread2 Hall. unfold parse_sam. rewrite Hacc.
  unfold padded_read in Hread1, Hread2.
  destruct (apply_cigar (row_cigar row1) _ _ _ _ _) as [[[s1 q1] i1]|e]; [|done].
  destruct (apply_cigar (row_cigar row2) _ _ _ _ _) as [[[s2 q2] i2]|e]; [|done].
  injection Hread1 as <- <-. injection Hread2 as <- <-.
  destruct (merge_cutoffs_Ok cfg (row_qname row1) _ _ _ _ _ ∅ [] Hall)
    as (mseqs & failed_list & -> & _ & Hin & Hfailed).
  eexists mseqs, _, failed_list. split; [done|].
  intros q m Hq Hm. split.
  { rewrite (Hin q m Hq Hm), lookup_empty. by destruct (PrimFloat.ltb _ _). }
  intros row. rewrite Hfailed. split.
  - intros [[?%elem_of_nil|(q' & m' & Hq' & Hm' & Hf & ->)] Hat]; [done|].
    simpl in Hat. subst q'. rewrite Hm in Hm'. injection Hm' as <-. done.
  - intros [Hf ->]. split; [|done]. right. by exists q, m.
Qed.

(** C8, as amended.  For an accepted pair both of whose mates decode, and
    cutoffs at each of which the merge is made and has a character that is
    not a gap (so that the fraction of [N] exists): at each cutoff [q] the
    merge is kept out of [mseqs] and written to the failure report exactly
    when its fraction of [N], the number of [N] over the length without the
    flanking gaps, exceeds [max_prop_N]; otherwise it is the variant of [q]
    and no failure row is written for [q].  What happens at [q] is what
    happens when [q] is the only cutoff configured: a rejection at another
    cutoff changes nothing. *)
Theorem parse_sam_cutoffs cfg row1 row2 seq1 qual1 seq2 qual2 :
  pair_rejected cfg row1 (Some row2) = false →
  padded_read row1 = Ok (seq1, qual1) →
  padded_read row2 = Ok (seq2, qual2) →
  (∀ q, q ∈ sam2aln_q_cutoffs cfg →
        ∃ m, merge_pairs seq1 seq2 qual1 qual2 None None q 5 = Some m ∧
             strip_gap m ≠ []) →
  ∃ mseqs insert_list failed_list,
    parse_sam cfg (row1, Some row2)
    = Ok (row_rname row1, mseqs, insert_list, failed_list)
    ∧ ∀ q m,
        q ∈ sam2aln_q_cutoffs cfg →
        merge_pairs seq1 seq2 qual1 qual2 None None q 5 = Some m →
        mseqs !! q =
          (if PrimFloat.ltb (max_prop_N cfg) (n_fraction m) then None else Some m)
        ∧ (∀ row,
             row ∈ failed_list ∧ failed_at q row ↔
             PrimFloat.ltb (max_prop_N cfg) (n_fraction m) = true ∧
             row = FailedMerge (row_qname row1) q seq1 qual1 seq2 qual2
                               (n_fraction m) m)
        ∧ ∃ mseqs_q failed_q,
            parse_sam (with_cutoffs cfg [q]) (row1, Some row2)
            = Ok (row_rname row1, mseqs_q, insert_list, failed_q)
            ∧ mseqs !! q = mseqs_q !! q
            ∧ ∀ row, row ∈ failed_list ∧ failed_at q row ↔ row ∈ failed_q.
Proof.
  intros Hacc Hread1 Hread2 Hall.
  destruct (parse_sam_accepted cfg row1 row2 _ _ _ _ Hacc Hread1 Hread2 Hall)
    as (mseqs & insert_list & failed_list & Hrun & Hcut).
  exists mseqs, insert_list, failed_list. split; [done|].
  intros q m Hq Hm. rewrite <-(prop_N_fraction m).
  destruct (Hcut q m Hq Hm) as [Hmseq Hfailed].
  split_and!; [done..|].
  destruct (parse_sam_accepted (with_cutoffs cfg [q]) row1 row2 seq1 qual1 seq2 qual2)
    as (mseqs_q & insert_list' & failed_q & Hrun_q & Hcut_q); [done..| |].
  { intros q' ->%list_elem_of_singleton. exists m. split; [done|].
    by destruct (Hall q Hq) as (m' & Hm' & ?); simplify_eq. }
  assert (insert_list' = insert_list) as ->.
  { unfold parse_sam in Hrun, Hrun_q. rewrite Hacc in Hrun.
    change (pair_rejected (with_cutoffs cfg [q]) row1 (Some row2))
      with (pair_rejected cfg row1 (Some row2)) in Hrun_q.
    rewrite Hacc in Hrun_q.
    destruct (apply_cigar (row_cigar row1) _ _ _ _ _) as [[[s1 q1] i1]|e]; [|done].
    destruct (apply_cigar (row_cigar row2) _ _ _ _ _) as [[[s2 q2] i2]|e]; [|done].
    destruct (merge_cutoffs cfg _ _ _ _ _ _ _ _) as [[? ?]|]; [|done].
    destruct (merge_cutoffs (with_cutoffs cfg [q]) _ _ _ _ _ _ _ _) as [[? ?]|]; [|done].
    congruence. }
  exists mseqs_q, failed_q. split; [done|].
  destruct (Hcut_q q m) as [Hmseq_q Hfailed_q]; [by apply list_elem_of_singleton|done|].
  split; [by rewrite Hmseq, Hmseq_q|].
  intros row. rewrite Hfailed. split.
  - intros Hrow. by apply Hfailed_q.
  - intros Hrow. apply Hfailed_q. split; [done|].
    unfold parse_sam in Hrun_q.
    change (pair_rejected (with_cutoffs cfg [q]) row1 (Some row2))
      with (pair_rejected cfg row1 (Some row2)) in Hrun_q.
    rewrite Hacc in Hrun_q. unfold padded_read in Hread1, Hread2.
    destruct (apply_cigar (row_cigar row1) _ _ _ _ _) as [[[s1 q1] i1]|e]; [|done].
    destruct (apply_cigar (row_cigar row2) _ _ _ _ _) as [[[s2 q2] i2]|e]; [|done].
    injection Hread1 as <- <-. injection Hread2 as <- <-.
    cbn [sam2aln_q_cutoffs with_cutoffs merge_cutoffs] in Hrun_q.
    rewrite Hm in Hrun_q. cbn [of_option rbind] in Hrun_q.
    case_decide; [done|].
    change (max_prop_N (with_cutoffs cfg [q])) with (max_prop_N cfg) in Hrun_q.
    destruct (PrimFloat.ltb (max_prop_N cfg) (prop_N m)).
    + injection Hrun_q as _ _ <-. simpl in Hrow.
      by apply list_elem_of_singleton in Hrow as ->.
    + injection Hrun_q as _ _ <-. by apply elem_of_nil in Hrow.
Qed.

(** Two mates at position 5: the merge at cutoff 10 is [----NNNT], three
    [N] in four characters once the padding is left out and in eight with
    it, and it is rejected. *)
Lemma parse_sam_cutoffs_witness :
  let row1 := mk_row "a" 99 "R1" 5 44 "4M" "ACGT" "+++I" in
  let row2 := mk_row "a" 147 "R1" 5 44 "4M" "ACGT" "+++I" in
  ∃ mseqs insert_list failed_list,
    parse_sam cfg0 (row1, Some row2)
    = Ok (row_rname row1, mseqs, insert_list, failed_list)
    ∧ mseqs !! 0 = Some (lit "----ACGT")
    ∧ mseqs !! 10 = None
    ∧ n_fraction (lit "----NNNT") = 0.75%float
    ∧ FailedMerge (lit "a") 10 (lit "----ACGT") (lit "!!!!+++I")
                  (lit "----ACGT") (lit "!!!!+++I") 0.75%float (lit "----NNNT")
      ∈ failed_list.
Proof.
  intros row1 row2.
  destruct (parse_sam_cutoffs cfg0 row1 row2 (lit "----ACGT") (lit "!!!!+++I")
              (lit "----ACGT") (lit "!!!!+++I"))
    as (mseqs & insert_list & failed_list & Hrun & Hcut).
  - vm_compute. reflexivity.
  - vm_compute. reflexivity.
  - vm_compute. reflexivity.
  - intros q Hq. simpl in Hq.
    apply elem_of_cons in Hq as [-> |Hq]; [|apply elem_of_cons in Hq as [-> |Hq];
      [|apply elem_of_cons in Hq as [-> |Hq]; [|by apply elem_of_nil in Hq]]].
    + exists (lit "----ACGT"). split; [vm_compute; reflexivity|discriminate].
    + exists (lit "----NNNT"). split; [vm_compute; reflexivity|discriminate].
    + exists (lit "----NNNT"). split; [vm_compute; reflexivity|discriminate].
  - assert (n_fraction (lit "----NNNT") = 0.75%float) as Hfrac.
    { vm_compute. reflexivity. }
    exists mseqs, insert_list, failed_list. split; [exact Hrun|].
    destruct (Hcut 0 (lit "----ACGT")) as [H0 _]; [left|vm_compute; reflexivity|].
    destruct (Hcut 10 (lit "----NNNT")) as (H10 & Hrow & _);
      [right; left|vm_compute; reflexivity|].
    split; [exact H0|]. split; [exact H10|]. split; [exact Hfrac|].
    rewrite Hfrac in Hrow. apply Hrow. split; reflexivity.
Defined.

(** C8 as stated fails on accepted pairs for which the fraction does not
    exist.  Two mates that are soft-clipped whole merge to the empty
    sequence: [parse_sam] raises [ZeroDivisionError] at the first cutoff,
    and the pair has neither a variant nor a failure row.  A mate of two
    deleted columns next to a mate that is soft-clipped whole merges to [NN]
    at cutoff 0, which alone gives a failure row, and to [--] at cutoff -5:
    with both cutoffs configured the exception at -5 takes the failure row
    of cutoff 0 with it. *)
Lemma parse_sam_cutoffs_no_fraction :
  let row1 := mk_row "a" 99 "R1" 1 44 "4S" "ACGT" "IIII" in
  let row2 := mk_row "a" 147 "R1" 1 44 "4S" "ACGT" "IIII" in
  let row3 := mk_row "a" 99 "R1" 1 44 "4S2D" "ACGT" "IIII" in
  pair_rejected cfg0 row1 (Some row2) = false
  ∧ parse_sam cfg0 (row1, Some row2) = Err ZeroDivisionError
  ∧ pair_rejected cfg0 row3 (Some row2) = false
  ∧ parse_sam (with_cutoffs cfg0 [0]) (row3, Some row2)
    = Ok (lit "R1", ∅, [],
          [FailedMerge (lit "a") 0 (lit "--") (lit "  ") [] [] 1%float (lit "NN")])
  ∧ parse_sam (with_cutoffs cfg0 [0; -5]) (row3, Some row2) = Err ZeroDivisionError.
Proof. intros row1 row2 row3. split_and!; vm_compute; reflexivity. Qed.

Example parse_sam_ex1 :
  parse_sam cfg0 (mk_row "a" 99 "R1" 1 44 "4M" "ACGT" "++++",
                  Some (mk_row "a" 147 "R1" 1 44 "4M" "ACGT" "++++"))
  = Ok (lit "R1", {[ 0 := lit "ACGT" ]}, [],
        [ FailedMerge (lit "a") 10 (lit "ACGT") (lit "++++") (lit "ACGT") (lit "++++")
            1%float (lit "NNNN");
          FailedMerge (lit "a") 15 (lit "ACGT") (lit "++++") (lit "ACGT") (lit "++++")
            1%float (lit "NNNN") ]).
Proof. vm_compute. reflexivity. Qed.

(** * The order of the sorted tuples *)


Lemma nat_compare_ok : comparison_ok Nat.compare.
Proof.
  split.
  - apply Nat.compare_eq_iff.
  - intros x y. apply Nat.compare_antisym.
  - intros x y z. rewrite !Nat.compare_lt_iff. lia.
Qed.

Lemma nat_of_ascii_inj x y : nat_of_ascii x = nat_of_ascii y → x = y.
Proof.
  intros H. rewrite <-(ascii_nat_embedding x), <-(ascii_nat_embedding y). by rewrite H.
Qed.

Lemma str_compare_ok : comparison_ok str_compare.
Proof.
  split.
  - induction x as [|a x IH]; intros [|b y]; simpl; try done.
    destruct (Nat.compare_spec (nat_of_ascii a) (nat_of_ascii b)) as [Hab|Hab|Hab].
    + apply nat_of_ascii_inj in Hab as ->. rewrite IH. split; [by intros ->|by intros [= ->]].
    + split; [done|]. intros [= -> _]. lia.
    + split; [done|]. intros [= -> _]. lia.
  - induction x as [|a x IH]; intros [|b y]; simpl; try done.
    rewrite (Nat.compare_antisym (nat_of_ascii a)).
    destruct (nat_of_ascii a ?= nat_of_ascii b)%nat; simpl; [apply IH|done..].
  - induction x as [|a x IH]; intros [|b y] [|c z]; simpl; try done.
    destruct (Nat.compare_spec (nat_of_ascii a) (nat_of_ascii b)) as [Hab|Hab|Hab];
      destruct (Nat.compare_spec (nat_of_ascii b) (nat_of_ascii c)) as [Hbc|Hbc|Hbc];
      try done; intros H1 H2.
    + rewrite Hab, Hbc, Nat.compare_refl. by eapply IH.
    + apply Nat.compare_lt_iff in Hbc as Hlt. rewrite Hab. by rewrite Hlt.
    + assert ((nat_of_ascii a ?= nat_of_ascii c)%nat = Lt) as ->; [|done].
      apply Nat.compare_lt_iff. lia.
    + assert ((nat_of_ascii a ?= nat_of_ascii c)%nat = Lt) as ->; [|done].
      apply Nat.compare_lt_iff. lia.
Qed.

(** The lexicographic product of two such comparisons is one too. *)
Lemma lex_compare_ok {A B} (cmpA : A → A → comparison) (cmpB : B → B → comparison) :
  comparison_ok cmpA → comparison_ok cmpB →
  comparison_ok (λ x y : A * B,
                   match cmpA x.1 y.1 with Eq => cmpB x.2 y.2 | c => c end).
Proof.
  intros HA HB. split.
  - intros [a b] [a' b']. simpl. destruct (cmpA a a') eqn:Ha.
    + apply (cmp_eq _ HA) in Ha as ->. rewrite (cmp_eq _ HB). split; [by intros ->|by intros [= ->]].
    + split; [done|]. intros [= -> _]. by rewrite (proj2 (cmp_eq _ HA _ _) eq_refl) in Ha.
    + split; [done|]. intros [= -> _]. by rewrite (proj2 (cmp_eq _ HA _ _) eq_refl) in Ha.
  - intros [a b] [a' b']. simpl. rewrite (cmp_opp _ HA a a').
    destruct (cmpA a a'); simpl; [apply (cmp_opp _ HB)|done..].
  - intros [a b] [a' b'] [a'' b'']. simpl.
    destruct (cmpA a a') eqn:H1; destruct (cmpA a' a'') eqn:H2; try done; intros Hb1 Hb2.
    + apply (cmp_eq _ HA) in H1 as ->. apply (cmp_eq _ HA) in H2 as ->.
      rewrite (proj2 (cmp_eq _ HA _ _) eq_refl). by eapply (cmp_lt_trans _ HB).
    + apply (cmp_eq _ HA) in H1 as ->. by rewrite H2.
    + apply (cmp_eq _ HA) in H2 as <-. by rewrite H1.
    + by rewrite (cmp_lt_trans _ HA _ _ _ H1 H2).
Qed.

Lemma tuple_compare_ok : comparison_ok tuple_compare.
Proof.
  pose proof (lex_compare_ok _ _ (lex_compare_ok _ _ nat_compare_ok nat_compare_ok)
                str_compare_ok) as [Heq Hopp Htrans].
  split.
  - intros x y. rewrite <-Heq. unfold tuple_compare. simpl.
    by destruct (x.1.1 ?= y.1.1)%nat, (x.1.2 ?= y.1.2)%nat.
  - intros x y. specialize (Hopp x y). unfold tuple_compare. simpl in *.
    by destruct (x.1.1 ?= y.1.1)%nat, (x.1.2 ?= y.1.2)%nat,
         (y.1.1 ?= x.1.1)%nat, (y.1.2 ?= x.1.2)%nat.
  - intros x y z. specialize (Htrans x y z). unfold tuple_compare. simpl in *.
    by destruct (x.1.1 ?= y.1.1)%nat, (x.1.2 ?= y.1.2)%nat,
         (y.1.1 ?= z.1.1)%nat, (y.1.2 ?= z.1.2)%nat,
         (x.1.1 ?= z.1.1)%nat, (x.1.2 ?= z.1.2)%nat.
Qed.

Global Instance tuple_ge_total : Total tuple_ge.
Proof.
  intros x y. unfold tuple_ge. rewrite (cmp_opp _ tuple_compare_ok x y).
  destruct (tuple_compare x y); simpl; [left|right|left]; done.
Qed.

Global Instance tuple_ge_trans : Transitive tuple_ge.
Proof.
  intros x y z. unfold tuple_ge. intros Hxy Hyz Hxz.
  destruct (tuple_compare x y) eqn:Exy; [| done |].
  - apply (cmp_eq _ tuple_compare_ok) in Exy as ->. done.
  - apply Hyz. apply (cmp_lt_trans _ tuple_compare_ok y x z); [|done].
    by rewrite (cmp_opp _ tuple_compare_ok x y), Exy.
Qed.

Global Instance tuple_ge_antisym : AntiSymm (=) tuple_ge.
Proof.
  intros x y. unfold tuple_ge. rewrite (cmp_opp _ tuple_compare_ok x y).
  destruct (tuple_compare x y) eqn:Exy; simpl; try done.
  intros _ _. by apply (cmp_eq _ tuple_compare_ok).
Qed.

(** Above a different tuple in the sorted order means ranked before it in
    the sense of the specification. *)
Lemma tuple_ge_ranked_before t u :
  tuple_ge t u → t ≠ u → ranked_before t u.
Proof.
  unfold tuple_ge, ranked_before, tuple_compare. intros Hge Hne.
  destruct (Nat.compare_spec t.1.1 u.1.1) as [H1|H1|H1]; [|done|left; lia].
  right. split; [done|].
  destruct (Nat.compare_spec t.1.2 u.1.2) as [H2|H2|H2]; [|done|left; lia].
  right. split; [done|].
  destruct (str_compare t.2 u.2) eqn:Hs; [|done..].
  apply (cmp_eq _ str_compare_ok) in Hs. destruct Hne.
  destruct t as [[? ?] ?], u as [[? ?] ?]. simpl in *. congruence.
Qed.

Lemma StronglySorted_lookup_lt {A} (R : relation A) (l : list A) i j x y :
  StronglySorted R l → (i < j)%nat → l !! i = Some x → l !! j = Some y → R x y.
Proof.
  intros Hsorted. revert i j. induction Hsorted as [|a l _ IH Hall]; intros i j Hij Hx Hy.
  { done. }
  destruct j as [|j]; [lia|]. simpl in Hy. destruct i as [|i].
  - injection Hx as <-. rewrite Forall_forall in Hall. apply Hall.
    by eapply list_elem_of_lookup_2.
  - simpl in Hx. apply (IH i j); [lia|done..].
Qed.

(** * Properties of sam2aln *)

(** ** Counting the merges of a group *)

Lemma occurrences_cons {A} `{EqDecision A} (x y : A) (l : list A) :
  occurrences x (y :: l) =
  if decide (y = x) then S (occurrences x l) else occurrences x l.
Proof. unfold occurrences. rewrite filter_cons. by case_decide. Qed.

Lemma occurrences_0 {A} `{EqDecision A} (x : A) (l : list A) :
  occurrences x l = 0%nat ↔ x ∉ l.
Proof.
  induction l as [|y l IH]; [by split; [intros _ ?%elem_of_nil|]|].
  rewrite occurrences_cons, not_elem_of_cons, <-IH. case_decide as Heq.
  - split; [done|]. intros [? _]. congruence.
  - split; [by intros ?; split; [congruence|]|by intros [_ ?]].
Qed.

Lemma occurrences_Permutation {A} `{EqDecision A} (x : A) (l k : list A) :
  l ≡ₚ k → occurrences x l = occurrences x k.
Proof. intros Hperm. unfold occurrences. by rewrite Hperm. Qed.

Lemma counter_incr_lookup (mseq : str) (c : gmap str nat) (s : str) :
  counter_incr mseq c !! s =
  if decide (mseq = s) then Some (S (default 0%nat (c !! s))) else c !! s.
Proof.
  unfold counter_incr. case_decide as Heq.
  - subst. apply lookup_insert_eq.
  - by apply lookup_insert_ne.
Qed.

(** A counter fed the merges of a list holds, for each sequence, the number
    of times it occurs. *)
Lemma foldl_counter_incr (l : list str) (c : gmap str nat) (s : str) :
  foldl (λ c m, counter_incr m c) c l !! s =
  if decide (occurrences s l = 0%nat) then c !! s
  else Some (occurrences s l + default 0%nat (c !! s))%nat.
Proof.
  revert c. induction l as [|m l IH]; intros c; [done|].
  cbn [foldl]. rewrite IH, counter_incr_lookup, occurrences_cons.
  destruct (decide (m = s)) as [->|Hne].
  - rewrite (decide_False (P := S _ = 0%nat)) by lia. simpl.
    case_decide as H0; [by rewrite H0|]. f_equal. lia.
  - done.
Qed.

(** ** One step of collection *)

Lemma foldl_region_add (l : list (Z * str)) (region : gmap Z (gmap str nat)) (q : Z) :
  NoDup l.*1 →
  foldl region_add region l !! q =
  match (list_to_map l : gmap Z str) !! q with
  | Some m => Some (counter_incr m (default ∅ (region !! q)))
  | None => region !! q
  end.
Proof.
  revert region. induction l as [|[k m] l IH]; intros region Hdup; [done|].
  apply NoDup_cons in Hdup as [Hk Hdup]. cbn [foldl]. rewrite IH by done.
  rewrite list_to_map_cons. unfold region_add. simpl.
  destruct (decide (k = q)) as [->|Hne].
  - rewrite !lookup_insert_eq.
    by rewrite (not_elem_of_list_to_map_1 (M := gmap Z) l q Hk).
  - by rewrite !(lookup_insert_ne _ k q) by done.
Qed.

Lemma counter_at_collect (aligned : gmap str (gmap Z (gmap str nat)))
    (rname : str) (mseqs : gmap Z str) (r : str) (q : Z) :
  counter_at (collect aligned rname mseqs) r q =
  match (if decide (rname = r) then mseqs !! q else None) with
  | Some m => counter_incr m (counter_at aligned r q)
  | None => counter_at aligned r q
  end.
Proof.
  unfold counter_at, collect. case_decide as Heq.
  - subst. rewrite lookup_insert_eq. simpl.
    rewrite foldl_region_add by apply NoDup_fst_map_to_list.
    rewrite list_to_map_to_list. by destruct (mseqs !! q).
  - by rewrite lookup_insert_ne.
Qed.

(** ** The main loop *)

Lemma sam2aln_loop_Finished cfg pairs aligned insert_csv failed_csv out ins' failed' :
  sam2aln_loop cfg pairs aligned insert_csv failed_csv = Finished out ins' failed' →
  ∃ aligned',
    out = write_aligned aligned'
    ∧ (∀ r q, counter_at aligned' r q =
              foldl (λ c m, counter_incr m c) (counter_at aligned r q)
                    (group_merges cfg pairs r q))
    ∧ ins' = insert_csv ++ insert_rows_of cfg pairs
    ∧ failed' = failed_csv ++ failed_rows_of cfg pairs
    ∧ Forall (λ rows, ∃ res, parse_sam cfg rows = Ok res) pairs.
Proof.
  revert aligned insert_csv failed_csv.
  induction pairs as [|rows pairs IH]; intros aligned insert_csv failed_csv.
  { intros [= <- <- <-]. exists aligned. unfold insert_rows_of, failed_rows_of.
    simpl. by rewrite !app_nil_r. }
  cbn [sam2aln_loop]. unfold group_merges, insert_rows_of, failed_rows_of.
  cbn [omap list_omap mbind list_bind].
  destruct (parse_sam cfg rows) as [[[[rname mseqs] insert_list] failed_list]|e] eqn:Hp;
    [|done].
  intros (aligned' & -> & Hcount & -> & -> & Hall)%IH.
  exists aligned'. split_and!; [done| |by rewrite <-app_assoc..|].
  - intros r q. rewrite Hcount, counter_at_collect.
    fold (group_merges cfg pairs r q). by destruct (if decide (rname = r) then _ else _).
  - constructor; [by eexists|done].
Qed.

Lemma sam2aln_loop_all_Ok cfg pairs aligned insert_csv failed_csv :
  Forall (λ rows, ∃ res, parse_sam cfg rows = Ok res) pairs →
  ∃ out ins' failed',
    sam2aln_loop cfg pairs aligned insert_csv failed_csv = Finished out ins' failed'.
Proof.
  intros Hall. revert aligned insert_csv failed_csv.
  induction Hall as [|rows pairs [[[[rname mseqs] il] fl] Hp] _ IH];
    intros aligned insert_csv failed_csv; simpl.
  - by eexists _, _, _.
  - rewrite Hp. apply IH.
Qed.

(** The loop stops at the first pair on which [parse_sam] raises. *)
Lemma sam2aln_loop_Raised cfg before rows after e aligned insert_csv failed_csv :
  Forall (λ rows, ∃ res, parse_sam cfg rows = Ok res) before →
  parse_sam cfg rows = Err e →
  sam2aln_loop cfg (before ++ rows :: after) aligned insert_csv failed_csv =
  Raised e (insert_csv ++ insert_rows_of cfg before)
           (failed_csv ++ failed_rows_of cfg before).
Proof.
  intros Hall Herr. revert aligned insert_csv failed_csv.
  induction Hall as [|rows0 before [[[[rname mseqs] il] fl] Hp] _ IH];
    intros aligned insert_csv failed_csv.
  - simpl. rewrite Herr. unfold insert_rows_of, failed_rows_of. simpl.
    by rewrite !app_nil_r.
  - cbn [app sam2aln_loop]. rewrite Hp, IH.
    unfold insert_rows_of, failed_rows_of. cbn [mbind list_bind].
    by rewrite Hp, !app_assoc.
Qed.

(** ** The worker pool *)

Lemma get_tasks_from_spec {A} (size : nat) (chunk it : list A) :
  (length chunk < size)%nat →
  concat (get_tasks_from size chunk it) = chunk ++ it
  ∧ Forall (λ c, (length c ≤ size)%nat) (get_tasks_from size chunk it)
  ∧ ∀ i c, get_tasks_from size chunk it !! i = Some c →
           (S i < length (get_tasks_from size chunk it))%nat → length c = size.
Proof.
  revert chunk. induction it as [|x it IH]; intros chunk Hlen.
  - destruct chunk as [|y chunk]; cbn [get_tasks_from].
    + split_and!; [done|constructor|]. intros i c. by rewrite lookup_nil.
    + rewrite app_nil_r. split_and!.
      * simpl. by rewrite app_nil_r.
      * repeat constructor. lia.
      * intros [|i] c; simpl; [lia|]. by rewrite lookup_nil.
  - cbn [get_tasks_from]. case_decide as Hfull.
    + destruct (IH []) as (Hcat & Hle & Hsize); [simpl; lia|]. split_and!.
      * cbn [concat]. rewrite Hcat. by rewrite <-app_assoc.
      * constructor; [lia|done].
      * intros [|i] c; cbn [lookup list_lookup length].
        { by intros [= <-] _. }
        intros Hc Hi. apply (Hsize i c Hc). lia.
    + rewrite length_app in Hfull. simpl in Hfull.
      destruct (IH (chunk ++ [x])) as (Hcat & Hle & Hsize).
      { rewrite length_app. simpl. lia. }
      split_and!; [|done..]. by rewrite Hcat, <-app_assoc.
Qed.

(** The chunks of [get_tasks]: the pairs in order, each chunk but the last
    of the full size. *)
Lemma get_tasks_spec {A} (size : nat) (it : list A) :
  (0 < size)%nat →
  concat (get_tasks size it) = it
  ∧ Forall (λ c, (length c ≤ size)%nat) (get_tasks size it)
  ∧ ∀ i c, get_tasks size it !! i = Some c →
           (S i < length (get_tasks size it))%nat → length c = size.
Proof. intros Hsize. by apply (get_tasks_from_spec size [] it). Qed.

(** The chunk an item falls into. *)
Lemma concat_split {A} (chunks : list (list A)) (before : list A) (x : A)
    (after : list A) :
  concat chunks = before ++ x :: after →
  ∃ cs1 c1 c2 cs2,
    chunks = cs1 ++ (c1 ++ x :: c2) :: cs2
    ∧ before = concat cs1 ++ c1
    ∧ after = c2 ++ concat cs2.
Proof.
  revert before. induction chunks as [|c cs IH]; intros before Hcat.
  { by destruct before. }
  cbn [concat] in Hcat.
  apply app_eq_inv in Hcat as [(k & Hc & Hk)|(k & Hb & Hk)].
  - destruct k as [|y k].
    + simpl in Hk. symmetry in Hk.
      destruct (IH [] Hk) as (cs1 & c1 & c2 & cs2 & -> & Hnil & ->).
      rewrite app_nil_r in Hc. subst c.
      exists (before :: cs1), c1, c2, cs2. split_and!; [done| |done].
      cbn [concat]. by rewrite <-app_assoc, <-Hnil, app_nil_r.
    + injection Hk as <- ->. subst c. by exists [], before, k, cs.
  - destruct (IH k Hk) as (cs1 & c1 & c2 & cs2 & -> & -> & ->). subst before.
    exists (c :: cs1), c1, c2, cs2. split_and!; [done| |done].
    cbn [concat]. by rewrite <-app_assoc.
Qed.

Lemma length_concat_uniform {A} (size : nat) (chunks : list (list A)) :
  Forall (λ c, length c = size) chunks →
  length (concat chunks) = (length chunks * size)%nat.
Proof.
  induction 1 as [|c cs Hc _ IH]; [done|].
  cbn [concat length]. rewrite length_app, IH, Hc. lia.
Qed.

Lemma insert_rows_of_app cfg pairs pairs' :
  insert_rows_of cfg (pairs ++ pairs') =
  insert_rows_of cfg pairs ++ insert_rows_of cfg pairs'.
Proof. unfold insert_rows_of. apply bind_app. Qed.

Lemma failed_rows_of_app cfg pairs pairs' :
  failed_rows_of cfg (pairs ++ pairs') =
  failed_rows_of cfg pairs ++ failed_rows_of cfg pairs'.
Proof. unfold failed_rows_of. apply bind_app. Qed.

(** A chunk all of whose pairs parse: the worker returns their results, and
    the main loop fed these results is where the serial loop is after the
    pairs of the chunk. *)
Lemma mapstar_Ok cfg chunk :
  Forall (λ rows, ∃ res, parse_sam cfg rows = Ok res) chunk →
  ∃ results,
    mapstar cfg chunk = Ok results
    ∧ ∀ rest aligned insert_csv failed_csv,
        ∃ aligned',
          sam2aln_results results aligned insert_csv failed_csv =
            (aligned', insert_csv ++ insert_rows_of cfg chunk,
             failed_csv ++ failed_rows_of cfg chunk)
          ∧ sam2aln_loop cfg (chunk ++ rest) aligned insert_csv failed_csv =
            sam2aln_loop cfg rest aligned' (insert_csv ++ insert_rows_of cfg chunk)
              (failed_csv ++ failed_rows_of cfg chunk).
Proof.
  induction 1 as [|rows chunk [[[[rname mseqs] il] fl] Hp] _ (results & Hmap & IH)].
  - exists []. split; [done|]. intros rest aligned insert_csv failed_csv.
    exists aligned. unfold insert_rows_of, failed_rows_of. simpl.
    by rewrite !app_nil_r.
  - exists ((rname, mseqs, il, fl) :: results). split.
    { cbn [mapstar rbind]. rewrite Hp. cbn [rbind]. by rewrite Hmap. }
    intros rest aligned insert_csv failed_csv.
    destruct (IH rest (collect aligned rname mseqs) (insert_csv ++ il)
                (failed_csv ++ fl)) as (aligned' & Hres & Hloop).
    exists aligned'. cbn [sam2aln_results app sam2aln_loop]. rewrite Hp, Hres, Hloop.
    unfold insert_rows_of, failed_rows_of. cbn [mbind list_bind]. rewrite Hp.
    by rewrite !app_assoc.
Qed.

(** A chunk with a pair that raises fails as a whole, with the exception of
    its first such pair. *)
Lemma mapstar_Err cfg c1 rows c2 e :
  Forall (λ rows, ∃ res, parse_sam cfg rows = Ok res) c1 →
  parse_sam cfg rows = Err e →
  mapstar cfg (c1 ++ rows :: c2) = Err e.
Proof.
  intros Hall Herr. induction Hall as [|rows0 c1 [res Hp] _ IH].
  - cbn [app mapstar rbind]. by rewrite Herr.
  - cbn [app mapstar rbind]. rewrite Hp. cbn [rbind]. by rewrite IH.
Qed.

Lemma sam2aln_pool_loop_all_Ok cfg chunks aligned insert_csv failed_csv :
  Forall (λ rows, ∃ res, parse_sam cfg rows = Ok res) (concat chunks) →
  sam2aln_pool_loop cfg chunks aligned insert_csv failed_csv =
  sam2aln_loop cfg (concat chunks) aligned insert_csv failed_csv.
Proof.
  revert aligned insert_csv failed_csv.
  induction chunks as [|chunk chunks IH]; intros aligned insert_csv failed_csv Hall;
    [done|].
  cbn [concat] in *. apply Forall_app in Hall as [Hchunk Hall].
  destruct (mapstar_Ok cfg chunk Hchunk) as (results & Hmap & Hres).
  destruct (Hres (concat chunks) aligned insert_csv failed_csv)
    as (aligned' & Hstate & Hloop).
  cbn [sam2aln_pool_loop]. rewrite Hmap, Hstate, Hloop. by apply IH.
Qed.

(** With a pool the loop stops at the chunk of the first pair on which
    [parse_sam] raises, with the rows of the chunks before it written. *)
Lemma sam2aln_pool_loop_Raised cfg cs1 c1 rows c2 cs2 e aligned insert_csv failed_csv :
  Forall (λ rows, ∃ res, parse_sam cfg rows = Ok res) (concat cs1) →
  Forall (λ rows, ∃ res, parse_sam cfg rows = Ok res) c1 →
  parse_sam cfg rows = Err e →
  sam2aln_pool_loop cfg (cs1 ++ (c1 ++ rows :: c2) :: cs2) aligned insert_csv failed_csv =
  Raised e (insert_csv ++ insert_rows_of cfg (concat cs1))
           (failed_csv ++ failed_rows_of cfg (concat cs1)).
Proof.
  intros Hall Hc1 Herr. revert aligned insert_csv failed_csv Hall.
  induction cs1 as [|chunk cs1 IH]; intros aligned insert_csv failed_csv Hall.
  - cbn [app sam2aln_pool_loop]. rewrite (mapstar_Err cfg c1 rows c2 e) by done.
    unfold insert_rows_of, failed_rows_of. simpl. by rewrite !app_nil_r.
  - cbn [concat] in Hall. apply Forall_app in Hall as [Hchunk Hall].
    destruct (mapstar_Ok cfg chunk Hchunk) as (results & Hmap & Hres).
    destruct (Hres [] aligned insert_csv failed_csv) as (aligned' & Hstate & _).
    cbn [app sam2aln_pool_loop concat]. rewrite Hmap, Hstate, IH by done.
    by rewrite insert_rows_of_app, failed_rows_of_app, !app_assoc.
Qed.

(** Either [parse_sam] returns on every pair, or there is a first pair on
    which it raises. *)
Lemma first_raise cfg (pairs : list (sam_row * option sam_row)) :
  Forall (λ rows, ∃ res, parse_sam cfg rows = Ok res) pairs
  ∨ ∃ before rows after e,
      pairs = before ++ rows :: after
      ∧ Forall (λ rows, ∃ res, parse_sam cfg rows = Ok res) before
      ∧ parse_sam cfg rows = Err e.
Proof.
  induction pairs as [|rows pairs IH]; [by left|].
  destruct (parse_sam cfg rows) as [res|e] eqn:Hp.
  - destruct IH as [Hall|(before & rows' & after & e & -> & Hall & Herr)].
    + left. constructor; [by eexists|done].
    + right. exists (rows :: before), rows', after, e. split_and!; [done| |done].
      constructor; [by eexists|done].
  - right. by exists [], rows, pairs, e.
Qed.

(** A run with a pool that meets no exception is the serial run. *)
Lemma sam2aln_all_Ok cfg nthreads remap_csv :
  (∀ n, nthreads = Some n → 0 ≤ n) →
  Forall (λ rows, ∃ res, parse_sam cfg rows = Ok res) (matchmaker remap_csv) →
  sam2aln cfg nthreads remap_csv = sam2aln_loop cfg (matchmaker remap_csv) ∅ [] [].
Proof.
  intros Hvalid Hall. unfold sam2aln. destruct (truthy nthreads) eqn:Hpool; [|done].
  destruct nthreads as [n|]; [|done]. simpl in *.
  specialize (Hvalid n eq_refl). apply negb_true_iff, Z.eqb_neq in Hpool.
  rewrite decide_False by lia.
  destruct (get_tasks_spec 100 (matchmaker remap_csv)) as (Hcat & _); [lia|].
  rewrite sam2aln_pool_loop_all_Ok; by rewrite Hcat.
Qed.

(** A run stops at the first pair on which [parse_sam] raises, or with a
    pool at the chunk of that pair. *)
Lemma sam2aln_Raised cfg nthreads remap_csv before rows after e :
  (∀ n, nthreads = Some n → 0 ≤ n) →
  matchmaker remap_csv = before ++ rows :: after →
  Forall (λ rows, ∃ res, parse_sam cfg rows = Ok res) before →
  parse_sam cfg rows = Err e →
  sam2aln cfg nthreads remap_csv =
  Raised e (insert_rows_of cfg (written_before nthreads before))
           (failed_rows_of cfg (written_before nthreads before)).
Proof.
  intros Hvalid Hpairs Hall Herr. unfold sam2aln, written_before.
  destruct (truthy nthreads) eqn:Hpool.
  2:{ rewrite Hpairs. by rewrite (sam2aln_loop_Raised cfg before rows after e). }
  destruct nthreads as [n|]; [|done]. simpl in Hpool.
  change (default 0 (Some n)) with n.
  specialize (Hvalid n eq_refl). apply negb_true_iff, Z.eqb_neq in Hpool.
  rewrite decide_False by lia.
  rewrite Hpairs.
  destruct (get_tasks_spec 100 (before ++ rows :: after)) as (Hcat & Hle & Hsize);
    [lia|].
  destruct (concat_split _ _ _ _ Hcat) as (cs1 & c1 & c2 & cs2 & Hchunks & Hb & _).
  rewrite Hchunks in Hle, Hsize |- *.
  assert (length (concat cs1) = (length cs1 * 100)%nat) as Hlen.
  { apply length_concat_uniform, Forall_lookup. intros i c Hc.
    apply (Hsize i c).
    - by apply lookup_app_l_Some.
    - apply lookup_lt_Some in Hc. rewrite length_app. simpl. lia. }
  assert (length c1 < 100)%nat as Hc1.
  { apply Forall_app in Hle as [_ Hle]. apply Forall_cons in Hle as [Hle _].
    rewrite length_app in Hle. simpl in Hle. lia. }
  assert (take (length before / 100 * 100) before = concat cs1) as ->.
  { rewrite Hb, length_app, Hlen.
    replace ((length cs1 * 100 + length c1) / 100)%nat with (length cs1).
    - rewrite <-Hlen. by rewrite take_app_length.
    - apply (Nat.div_unique _ _ _ (length c1)); lia. }
  rewrite Hb in Hall. apply Forall_app in Hall as [Hcs1 Hc1ok].
  by rewrite (sam2aln_pool_loop_Raised cfg cs1 c1 rows c2 cs2 e).
Qed.

(** A run that finishes, with a pool or without, is the serial loop over the
    pairs. *)
Lemma sam2aln_Finished cfg nthreads remap_csv aligned_csv insert_csv failed_csv :
  sam2aln cfg nthreads remap_csv = Finished aligned_csv insert_csv failed_csv →
  sam2aln_loop cfg (matchmaker remap_csv) ∅ [] [] =
  Finished aligned_csv insert_csv failed_csv.
Proof.
  intros Hrun.
  assert (∀ n, nthreads = Some n → 0 ≤ n) as Hvalid.
  { intros n ->. unfold sam2aln in Hrun. simpl in Hrun.
    destruct (n =? 0) eqn:Hn; simpl in Hrun; [lia|].
    case_decide; [done|lia]. }
  destruct (first_raise cfg (matchmaker remap_csv))
    as [Hall|(before & rows & after & e & Hpairs & Hall & Herr)].
  - by rewrite <-(sam2aln_all_Ok cfg nthreads remap_csv).
  - by rewrite (sam2aln_Raised cfg nthreads remap_csv before rows after e) in Hrun.
Qed.

(** ** The rows of one group in the aligned CSV *)

Lemma filter_bind {A B} (P : B → Prop) `{∀ x, Decision (P x)}
    (f : A → list B) (l : list A) :
  filter P (l ≫= f) = l ≫= (λ x, filter P (f x)).
Proof.
  induction l as [|x l IH]; [done|].
  cbn [mbind list_bind]. by rewrite filter_app, IH.
Qed.

Lemma bind_ext_in {A B} (f g : A → list B) (l : list A) :
  (∀ x, x ∈ l → f x = g x) → l ≫= f = l ≫= g.
Proof.
  induction l as [|x l IH]; intros Hfg; [done|].
  cbn [mbind list_bind]. rewrite (Hfg x) by left. rewrite IH; [done|].
  intros y Hy. apply Hfg. by right.
Qed.

Lemma filter_all {A} (P : A → Prop) `{∀ x, Decision (P x)} (l : list A) :
  Forall P l → filter P l = l.
Proof.
  induction 1 as [|x l Hx _ IH]; [done|].
  by rewrite filter_cons, decide_True, IH.
Qed.

Lemma filter_none {A} (P : A → Prop) `{∀ x, Decision (P x)} (l : list A) :
  Forall (λ x, ¬ P x) l → filter P l = [].
Proof.
  induction 1 as [|x l Hx _ IH]; [done|].
  by rewrite filter_cons, decide_False, IH.
Qed.

(** Looping over a dictionary and keeping the work of one key. *)
Lemma map_bind_select {K} `{Countable K} {V B} (m : gmap K V) (k : K)
    (f : K → V → list B) :
  (map_to_list m ≫= λ kv, if decide (kv.1 = k) then f kv.1 kv.2 else [])
  = from_option (f k) [] (m !! k).
Proof.
  rewrite <-(list_to_map_to_list m) at 2.
  pose proof (NoDup_fst_map_to_list m) as Hdup.
  induction (map_to_list m) as [|[k' v'] l IH]; [done|].
  apply NoDup_cons in Hdup as [Hk Hdup].
  cbn [mbind list_bind]. rewrite IH by done. rewrite list_to_map_cons. simpl.
  case_decide as Heq.
  - subst. rewrite lookup_insert_eq.
    rewrite (not_elem_of_list_to_map_1 (M := gmap K) l k Hk). simpl.
    by rewrite app_nil_r.
  - by rewrite lookup_insert_ne.
Qed.

Lemma rank_rows_group rname qcut sorted :
  Forall (λ row, al_refname row = rname ∧ al_qcut row = qcut)
         (rank_rows rname qcut sorted).
Proof.
  apply Forall_lookup. intros i row. unfold rank_rows.
  rewrite list_lookup_imap. destruct (sorted !! i); [|done].
  by intros [= <-].
Qed.

Lemma group_of_group_rows (r : str) (q : Z) (r' : str) (q' : Z) (c : gmap str nat) :
  group_of r q (group_rows r' q' c) =
  if decide (r' = r ∧ q' = q) then group_rows r' q' c else [].
Proof.
  unfold group_of, group_rows. case_decide as Heq.
  - apply filter_all. destruct Heq as [<- <-]. apply rank_rows_group.
  - apply filter_none. eapply Forall_impl; [apply rank_rows_group|].
    intros row [<- <-]. done.
Qed.

Lemma group_rows_empty (r : str) (q : Z) : group_rows r q ∅ = [].
Proof. unfold group_rows. by rewrite map_to_list_empty. Qed.

(** The rows of a group in the file are those written for its counter. *)
Lemma write_aligned_group (aligned : gmap str (gmap Z (gmap str nat)))
    (r : str) (q : Z) :
  group_of r q (write_aligned aligned) = group_rows r q (counter_at aligned r q).
Proof.
  unfold write_aligned. unfold group_of at 1. rewrite filter_bind.
  transitivity
    (map_to_list aligned ≫= λ rd,
       if decide (rd.1 = r)
       then (λ r' (regs : gmap Z (gmap str nat)),
               from_option (group_rows r' q) [] (regs !! q)) rd.1 rd.2
       else []).
  - apply bind_ext_in. intros [r' regs] _. cbn [fst snd]. rewrite filter_bind.
    transitivity
      (map_to_list regs ≫= λ qd,
         if decide (qd.1 = q)
         then (λ q' (c : gmap str nat),
                 if decide (r' = r) then group_rows r' q' c else []) qd.1 qd.2
         else []).
    + apply bind_ext_in. intros [q' c] _. cbn [fst snd].
      fold (group_of r q (group_rows r' q' c)). rewrite group_of_group_rows.
      repeat case_decide; try done; tauto.
    + etrans;
        [apply (map_bind_select regs q
                  (λ q' c, if decide (r' = r) then group_rows r' q' c else []))|].
      case_decide; [by subst|]. by destruct (regs !! q).
  - etrans;
      [apply (map_bind_select aligned r
                (λ r' regs, from_option (group_rows r' q) [] (regs !! q)))|].
    unfold counter_at.
    destruct (aligned !! r) as [regs|]; simpl.
    + destruct (regs !! q); simpl; [done|]. by rewrite group_rows_empty.
    + by rewrite lookup_empty, group_rows_empty.
Qed.

(** ** The sorted tuples *)

Local Instance tuple_of_inj : Inj (=) (=) tuple_of.
Proof. intros [s c] [s' c'] [= -> _ ->]. done. Qed.

Lemma intermed_Permutation items : intermed items ≡ₚ tuple_of <$> items.
Proof. apply merge_sort_Permutation. Qed.

Lemma intermed_sorted items : StronglySorted tuple_ge (intermed items).
Proof. apply StronglySorted_merge_sort; apply _. Qed.

(** The sort gives one list whatever order the dictionary yields its items
    in. *)
Lemma intermed_order_independent items items' :
  items ≡ₚ items' → intermed items = intermed items'.
Proof.
  intros Hperm. apply (Sorted_unique tuple_ge).
  - apply Sorted_merge_sort; apply _.
  - apply Sorted_merge_sort; apply _.
  - by rewrite !intermed_Permutation, Hperm.
Qed.

Lemma intermed_ranked items i j t u :
  NoDup items.*1 →
  (i < j)%nat → intermed items !! i = Some t → intermed items !! j = Some u →
  ranked_before t u.
Proof.
  intros Hdup Hij Ht Hu. apply tuple_ge_ranked_before.
  - exact (StronglySorted_lookup_lt tuple_ge _ i j t u (intermed_sorted items) Hij Ht Hu).
  - intros <-. assert (NoDup (intermed items)) as Hnd.
    { rewrite intermed_Permutation. apply (NoDup_fmap_2 _).
      by eapply NoDup_fmap_1. }
    pose proof (NoDup_lookup _ _ _ _ Hnd Ht Hu). lia.
Qed.

Lemma group_counter_lookup cfg pairs r q s :
  group_counter cfg pairs r q !! s =
  if decide (occurrences s (group_merges cfg pairs r q) = 0%nat) then None
  else Some (occurrences s (group_merges cfg pairs r q)).
Proof.
  unfold group_counter. rewrite foldl_counter_incr, lookup_empty. simpl.
  case_decide; [done|]. by rewrite Nat.add_0_r.
Qed.

Lemma group_counter_Permutation cfg pairs pairs' r q :
  pairs ≡ₚ pairs' → group_counter cfg pairs r q = group_counter cfg pairs' r q.
Proof.
  intros Hperm. apply map_eq. intros s. rewrite !group_counter_lookup.
  assert (group_merges cfg pairs r q ≡ₚ group_merges cfg pairs' r q) as Hm.
  { unfold group_merges. by rewrite Hperm. }
  by rewrite (occurrences_Permutation s _ _ Hm).
Qed.

(** The items of a group's counter: its distinct merges, each with the
    number of times it was merged. *)
Lemma group_counter_items cfg pairs r q :
  map_to_list (group_counter cfg pairs r q) ≡ₚ
  (λ s, (s, occurrences s (group_merges cfg pairs r q)))
    <$> remove_dups (group_merges cfg pairs r q).
Proof.
  apply NoDup_Permutation.
  - apply NoDup_map_to_list.
  - apply NoDup_fmap_2_strong; [|apply NoDup_remove_dups].
    by intros s s' _ _ [= ->].
  - intros [s n]. rewrite elem_of_map_to_list, group_counter_lookup, list_elem_of_fmap.
    split.
    + case_decide as H0; [done|]. intros [= <-]. exists s. split; [done|].
      apply elem_of_remove_dups. destruct (decide (s ∈ group_merges cfg pairs r q)) as [|Hn];
        [done|]. by apply occurrences_0 in Hn.
    + intros (s' & [= -> ->] & Hin). apply (proj1 (elem_of_remove_dups _ _)) in Hin.
      rewrite decide_False; [done|]. rewrite occurrences_0. intros Hn. by apply Hn.
Qed.

Lemma counter_at_empty (r : str) (q : Z) : counter_at ∅ r q = ∅.
Proof. unfold counter_at. rewrite lookup_empty. simpl. by rewrite lookup_empty. Qed.

Lemma sam2aln_loop_group cfg pairs aligned_csv insert_csv failed_csv (r : str) (q : Z) :
  sam2aln_loop cfg pairs ∅ [] [] = Finished aligned_csv insert_csv failed_csv →
  group_of r q aligned_csv = group_rows r q (group_counter cfg pairs r q).
Proof.
  intros (aligned & -> & Hcount & _)%sam2aln_loop_Finished.
  by rewrite write_aligned_group, Hcount, counter_at_empty.
Qed.

(** ** Variants, ranks and decoding errors *)

(** C1, as amended.  In every (reference, cutoff) group of a finished run
    the aligned output has one row for each distinct merged sequence, two
    merges being the same variant when they are the same string, flanking
    gaps included; the count of the row is the number of such merges, and
    the flanking gaps are stripped only from the sequence written out. *)
Theorem sam2aln_variant_counts cfg nthreads remap_csv aligned_csv insert_csv
    failed_csv (r : str) (q : Z) :
  sam2aln cfg nthreads remap_csv = Finished aligned_csv insert_csv failed_csv →
  ∃ sorted,
    group_of r q aligned_csv = rank_rows r q sorted
    ∧ sorted ≡ₚ
      (λ s, (occurrences s (group_merges cfg (matchmaker remap_csv) r q),
             len_gap_prefix s, s))
        <$> remove_dups (group_merges cfg (matchmaker remap_csv) r q).
Proof.
  intros Hrun%sam2aln_Finished.
  exists (intermed (map_to_list (group_counter cfg (matchmaker remap_csv) r q))).
  split; [by eapply sam2aln_loop_group|].
  rewrite intermed_Permutation, group_counter_items, <-list_fmap_compose. done.
Qed.

Lemma sam2aln_variant_counts_witness :
  ∃ aligned_csv insert_csv failed_csv,
    sam2aln cfg0 None
      [ mk_row "a" 99 "R1" 1 44 "4M" "ACGT" "IIII";
        mk_row "a" 147 "R1" 1 44 "4M" "ACGT" "IIII";
        mk_row "b" 99 "R1" 1 44 "4M" "ACGT" "IIII";
        mk_row "b" 147 "R1" 1 44 "4M" "ACGT" "IIII" ]
    = Finished aligned_csv insert_csv failed_csv
    ∧ ∃ sorted,
        group_of (lit "R1") 10 aligned_csv = rank_rows (lit "R1") 10 sorted
        ∧ sorted ≡ₚ
          (λ s, (occurrences s
                   (group_merges cfg0
                      (matchmaker
                         [ mk_row "a" 99 "R1" 1 44 "4M" "ACGT" "IIII";
                           mk_row "a" 147 "R1" 1 44 "4M" "ACGT" "IIII";
                           mk_row "b" 99 "R1" 1 44 "4M" "ACGT" "IIII";
                           mk_row "b" 147 "R1" 1 44 "4M" "ACGT" "IIII" ])
                      (lit "R1") 10),
                 len_gap_prefix s, s))
            <$> remove_dups
                  (group_merges cfg0
                     (matchmaker
                        [ mk_row "a" 99 "R1" 1 44 "4M" "ACGT" "IIII";
                          mk_row "a" 147 "R1" 1 44 "4M" "ACGT" "IIII";
                          mk_row "b" 99 "R1" 1 44 "4M" "ACGT" "IIII";
                          mk_row "b" 147 "R1" 1 44 "4M" "ACGT" "IIII" ])
                     (lit "R1") 10).
Proof.
  eexists _, _, _. split; [vm_compute; reflexivity|].
  eapply (sam2aln_variant_counts cfg0 None _ _ [] [] (lit "R1") 10).
  vm_compute. reflexivity.
Defined.

(** C1 as stated fails: two merges that differ in their gap prefix only are
    the same sequence once stripped, and are written as two rows of count
    1. *)
Lemma sam2aln_counts_padded_sequences :
  let remap_csv :=
    [ mk_row "a" 99 "R1" 1 44 "4M" "ACGT" "IIII";
      mk_row "a" 147 "R1" 1 44 "4M" "ACGT" "IIII";
      mk_row "b" 99 "R1" 2 44 "4M" "ACGT" "IIII";
      mk_row "b" 147 "R1" 2 44 "4M" "ACGT" "IIII" ] in
  group_merges cfg0 (matchmaker remap_csv) (lit "R1") 10 = [lit "ACGT"; lit "-ACGT"]
  ∧ strip_gap (lit "ACGT") = strip_gap (lit "-ACGT")
  ∧ ∃ aligned_csv insert_csv failed_csv,
      sam2aln cfg0 None remap_csv = Finished aligned_csv insert_csv failed_csv
      ∧ group_of (lit "R1") 10 aligned_csv =
        [ AlignedRow (lit "R1") 10 0 1 1 (lit "ACGT");
          AlignedRow (lit "R1") 10 1 1 0 (lit "ACGT") ].
Proof.
  intros remap_csv. split; [vm_compute; reflexivity|].
  split; [vm_compute; reflexivity|].
  eexists _, _, _. split; vm_compute; reflexivity.
Qed.

(** C7.  In every (reference, cutoff) group of a finished run the rows are
    those of the sorted tuples [(count, offset, sequence)], where the offset
    is the length of the leading gap run of the merged sequence: an earlier
    row has the larger count, or the same count and the larger offset, or
    the same count and offset and the larger sequence.  Each row's rank is
    its position in the group, counted from 0.  The rows do not depend on
    the order the counter yields its items in, nor on the order the pairs
    were processed in. *)
Theorem sam2aln_rank_order cfg nthreads remap_csv aligned_csv insert_csv failed_csv
    (r : str) (q : Z) :
  sam2aln cfg nthreads remap_csv = Finished aligned_csv insert_csv failed_csv →
  let counter := group_counter cfg (matchmaker remap_csv) r q in
  let sorted := intermed (map_to_list counter) in
  group_of r q aligned_csv = rank_rows r q sorted
  ∧ (∀ t, t ∈ sorted → t.1.2 = len_gap_prefix t.2)
  ∧ (∀ i j t u, (i < j)%nat → sorted !! i = Some t → sorted !! j = Some u →
                ranked_before t u)
  ∧ (∀ i row, group_of r q aligned_csv !! i = Some row →
              al_rank row = i ∧
              ∃ t, sorted !! i = Some t ∧ al_count row = t.1.1 ∧
                   al_offset row = t.1.2 ∧ al_seq row = strip_gap t.2)
  ∧ (∀ items, items ≡ₚ map_to_list counter →
              rank_rows r q (intermed items) = group_of r q aligned_csv)
  ∧ (∀ pairs', pairs' ≡ₚ matchmaker remap_csv →
       ∃ aligned_csv' insert_csv' failed_csv',
         sam2aln_loop cfg pairs' ∅ [] [] = Finished aligned_csv' insert_csv' failed_csv'
         ∧ group_of r q aligned_csv' = group_of r q aligned_csv).
Proof.
  intros Hrun%sam2aln_Finished counter sorted.
  pose proof (sam2aln_loop_group _ _ _ _ _ r q Hrun) as Hgroup.
  fold counter in Hgroup. unfold group_rows in Hgroup. fold sorted in Hgroup.
  split_and!.
  - done.
  - intros t Ht. unfold sorted in Ht. rewrite intermed_Permutation in Ht.
    by apply list_elem_of_fmap in Ht as ([s c] & -> & _).
  - intros i j t u. apply intermed_ranked, NoDup_fst_map_to_list.
  - intros i row. rewrite Hgroup. unfold rank_rows. rewrite list_lookup_imap.
    destruct (sorted !! i) as [t|]; [|done]. intros [= <-]. simpl.
    split; [done|]. by exists t.
  - intros items Hitems. rewrite Hgroup. unfold sorted.
    by rewrite (intermed_order_independent _ _ Hitems).
  - intros pairs' Hperm.
    apply sam2aln_loop_Finished in Hrun as (_ & _ & _ & _ & _ & Hall).
    rewrite <-Hperm in Hall.
    destruct (sam2aln_loop_all_Ok cfg pairs' ∅ [] [] Hall) as (out & i' & f' & Hrun').
    exists out, i', f'. split; [done|].
    rewrite (sam2aln_loop_group _ _ _ _ _ r q Hrun'), Hgroup.
    by rewrite (group_counter_Permutation cfg pairs' (matchmaker remap_csv) r q Hperm).
Qed.

Lemma sam2aln_rank_order_witness :
  let remap_csv :=
    [ mk_row "a" 99 "R1" 1 44 "4M" "ACGT" "IIII";
      mk_row "a" 147 "R1" 1 44 "4M" "ACGT" "IIII";
      mk_row "b" 99 "R1" 2 44 "4M" "ACGT" "IIII";
      mk_row "b" 147 "R1" 2 44 "4M" "ACGT" "IIII";
      mk_row "c" 99 "R1" 1 44 "4M" "ACGT" "IIII";
      mk_row "c" 147 "R1" 1 44 "4M" "ACGT" "IIII" ] in
  ∃ aligned_csv,
    sam2aln cfg0 (Some 2) remap_csv = Finished aligned_csv [] []
    ∧ group_of (lit "R1") 10 aligned_csv =
      [ AlignedRow (lit "R1") 10 0 2 0 (lit "ACGT");
        AlignedRow (lit "R1") 10 1 1 1 (lit "ACGT") ]
    ∧ ∀ i row, group_of (lit "R1") 10 aligned_csv !! i = Some row → al_rank row = i.
Proof.
  intros remap_csv.
  pose (aligned_csv :=
          match sam2aln cfg0 (Some 2) remap_csv with
          | Finished aligned_csv _ _ => aligned_csv
          | Raised _ _ _ => []
          end).
  assert (sam2aln cfg0 (Some 2) remap_csv = Finished aligned_csv [] []) as Hrun.
  { vm_compute. reflexivity. }
  exists aligned_csv. split; [exact Hrun|]. split; [vm_compute; reflexivity|].
  destruct (sam2aln_rank_order cfg0 (Some 2) remap_csv aligned_csv [] [] (lit "R1") 10
              Hrun) as (_ & _ & _ & Hrank & _).
  intros i row Hrow. exact (proj1 (Hrank i row Hrow)).
Defined.





(** * Further properties of apply_cigar *)

Lemma py_slice_all {A} (l : list A) : py_slice l 0 None = l.
Proof.
  unfold py_slice, py_index. simpl. by rewrite Nat.sub_0_r, firstn_all.
Qed.

Lemma token_supported_cases (op : ascii) :
  op ∈ lit "MDIS" ↔
  op = "M"%char ∨ op = "D"%char ∨ op = "I"%char ∨ op = "S"%char.
Proof.
  unfold lit. simpl. rewrite !elem_of_cons, elem_of_nil. tauto.
Qed.

Section token_loop_returns.
Context (cigar seq qual : str) (pos : Z) (end_ : option Z).

Lemma apply_token_supported st token st' :
  apply_token cigar seq qual pos end_ st token = Ok st' → token.2 ∈ lit "MDIS".
Proof.
  destruct token as [digits op]. unfold apply_token. simpl.
  rewrite token_supported_cases.
  repeat case_decide; subst; simpl; try discriminate; tauto.
Qed.

Lemma apply_tokens_supported tokens st st' :
  apply_tokens cigar seq qual pos end_ st tokens = Ok st' →
  Forall (λ token, token.2 ∈ lit "MDIS") tokens.
Proof.
  revert st. induction tokens as [|token tokens IH]; intros st; [by constructor|].
  cbn [apply_tokens].
  destruct (apply_token _ _ _ _ _ st token) as [st1|e] eqn:Htok; cbn [rbind]; [|done].
  intros Hrest. constructor; [by eapply apply_token_supported|by eapply IH].
Qed.

Lemma apply_token_returns st token :
  token.2 ∈ lit "MDIS" →
  (left st + token_consumes token ≤ length seq)%nat →
  ∃ st', apply_token cigar seq qual pos end_ st token = Ok st'.
Proof.
  destruct token as [digits op]. rewrite token_supported_cases, token_consumes_cases.
  unfold apply_token. simpl. intros Hop Hlen.
  repeat case_decide; subst; simpl in *; try solve [exfalso; intuition congruence];
    try solve [exfalso; lia]; rewrite ?decide_False by lia; by eexists.
Qed.

Lemma apply_tokens_returns tokens st :
  Forall (λ token, token.2 ∈ lit "MDIS") tokens →
  (left st + consumed tokens ≤ length seq)%nat →
  ∃ st', apply_tokens cigar seq qual pos end_ st tokens = Ok st'.
Proof.
  intros Hall. revert st. induction Hall as [|token tokens Hop _ IH]; intros st Hlen.
  { by eexists. }
  rewrite consumed_cons in Hlen. cbn [apply_tokens].
  destruct (apply_token_returns st token Hop) as [st1 Hst1]; [lia|].
  rewrite Hst1. cbn [rbind]. apply IH.
  apply apply_token_Ok in Hst1 as (_ & -> & _). lia.
Qed.
End token_loop_returns.

(** X1.  [apply_cigar] returns, whatever the position and the clip window,
    exactly when the string passes the anchored match, every token is one of
    [M], [D], [I], [S], and the tokens consume the whole read and no more. *)
Theorem apply_cigar_returns_iff cigar seq qual pos clip_from clip_to :
  (∃ r, apply_cigar cigar seq qual pos clip_from clip_to = Ok r) ↔
  is_valid cigar = true
  ∧ Forall (λ token, token.2 ∈ lit "MDIS") (cigar_findall [] cigar)
  ∧ consumed (cigar_findall [] cigar) = length seq.
Proof.
  unfold apply_cigar. split.
  - intros [r Hr]. destruct (is_valid cigar); [|done]. cbn [negb] in Hr.
    destruct (apply_tokens _ _ _ _ _ _ _) as [st|e] eqn:Hloop; [|done].
    cbn [rbind] in Hr. case_decide as Hshort; [done|].
    split_and!; [done|by eapply apply_tokens_supported|].
    apply apply_tokens_Ok in Hloop as (Hle & Hleft & _). simpl in Hle, Hleft. lia.
  - intros (-> & Hops & Hlen). cbn [negb].
    edestruct (apply_tokens_returns cigar seq qual pos ((λ c, c + 1) <$> clip_to)
                 (cigar_findall [] cigar)) as [st Hst]; [done| |].
    2: { rewrite Hst. cbn [rbind].
         apply apply_tokens_Ok in Hst as (_ & Hleft & _). simpl in Hleft.
         rewrite decide_False by lia. by eexists. }
    simpl. lia.
Qed.

(** ** One token, and the tokens of a well-formed string *)

Lemma cigar_findall_digits digits acc rest :
  Forall (λ c, is_digit c = true) digits →
  cigar_findall acc (digits ++ rest) = cigar_findall (acc ++ digits) rest.
Proof.
  intros Hd. revert acc. induction Hd as [|c digits Hc _ IH]; intros acc; simpl.
  - by rewrite app_nil_r.
  - by rewrite Hc, IH, <-app_assoc.
Qed.

Lemma cigar_match_digits digits in_digits rest :
  Forall (λ c, is_digit c = true) digits → digits ≠ [] →
  cigar_match in_digits (digits ++ rest) = cigar_match true rest.
Proof.
  intros Hd. revert in_digits. induction Hd as [|c digits Hc Hd IH]; intros b Hne; [done|].
  simpl. rewrite Hc. destruct digits as [|c' digits]; [done|]. by apply IH.
Qed.

(** X2.  A CIGAR of one [M] token whose length is the length of the read
    gives the read back unchanged, the quality string cut to the same
    length, and no insertion. *)
Theorem apply_cigar_full_match digits seq qual :
  digits ≠ [] →
  Forall (λ c, is_digit c = true) digits →
  int_of_digits digits = length seq →
  apply_cigar (digits ++ lit "M") seq qual 0 0 None
  = Ok (seq, take (length seq) qual, ∅).
Proof.
  intros Hne Hd Hlen.
  assert (is_valid (digits ++ lit "M") = true) as Hvalid.
  { unfold is_valid. by rewrite cigar_match_digits. }
  assert (cigar_findall [] (digits ++ lit "M") = [(digits, "M"%char)]) as Htokens.
  { rewrite cigar_findall_digits by done. simpl.
    rewrite (bool_decide_eq_true_2 (digits ≠ [])) by done. done. }
  unfold apply_cigar. rewrite Hvalid, Htokens. cbn [negb apply_tokens].
  unfold apply_token. cbn [fst snd]. rewrite decide_True by done.
  rewrite Hlen. cbn [rbind left newseq newqual insertions].
  rewrite decide_False by (simpl; lia). cbn [rbind left newseq newqual insertions].
  rewrite decide_False by (simpl; lia).
  unfold substr, str_mul. simpl. by rewrite firstn_all, !py_slice_all.
Qed.

Lemma apply_cigar_full_match_witness :
  apply_cigar (lit "12" ++ lit "M") (lit "ACGTACGTACGT") (lit "ABCDEFGHIJKLMN") 0 0 None
  = Ok (lit "ACGTACGTACGT", take (length (lit "ACGTACGTACGT")) (lit "ABCDEFGHIJKLMN"), ∅).
Proof.
  apply (apply_cigar_full_match (lit "12") (lit "ACGTACGTACGT") (lit "ABCDEFGHIJKLMN")).
  - discriminate.
  - repeat constructor.
  - vm_compute. reflexivity.
Defined.

(** ** Clipping *)

Section clipping.
Context (cigar seq qual : str) (pos : Z) (end_ : option Z).

Lemma apply_token_clip st1 st2 token :
  clip_related pos end_ st1 st2 →
  match apply_token cigar seq qual pos None st2 token with
  | Ok st2' =>
      ∃ st1', apply_token cigar seq qual pos end_ st1 token = Ok st1'
              ∧ clip_related pos end_ st1' st2'
  | Err e => apply_token cigar seq qual pos end_ st1 token = Err e
  end.
Proof.
  destruct st1 as [s1 q1 i1 l1], st2 as [s2 q2 i2 l2], token as [digits op].
  intros (Hs & Hq & Hl & Hsub & Hinv). simpl in Hs, Hq, Hl, Hsub, Hinv. subst s2 q2 l2.
  unfold apply_token. cbn [fst snd newseq newqual insertions left before_end].
  destruct (decide (op = "M"%char)) as [->|?]; cbn [rbind left];
    [case_decide; [done|]; eexists; split; [done|]; by split_and!|].
  destruct (decide (op = "D"%char)) as [->|?]; cbn [rbind left];
    [case_decide; [done|]; eexists; split; [done|]; by split_and!|].
  destruct (decide (op = "I"%char)) as [->|?]; cbn [rbind left]; [|].
  - case_decide; [done|]. eexists. split; [done|].
    unfold clip_related. cbn [newseq newqual insertions left].
    split_and!; [done..| |].
    + destruct (before_end end_ l1) eqn:Hguard; [by apply insert_mono|].
      apply insert_subseteq_r; [|done].
      destruct (i1 !! (Z.of_nat l1 + pos)) eqn:Hkey; [|done].
      destruct (Hinv (Z.of_nat l1 + pos)) as (l & Hl & Hg); [by eexists|].
      assert (l = l1) as -> by lia. congruence.
    + intros key. destruct (before_end end_ l1) eqn:Hguard; [|apply Hinv].
      destruct (decide (key = Z.of_nat l1 + pos)) as [->|Hne]; [by exists l1|].
      rewrite lookup_insert_ne by done. apply Hinv.
  - destruct (decide (op = "S"%char)) as [->|?]; cbn [rbind left]; [|done].
    case_decide; [done|]. eexists. split; [done|]. by split_and!.
Qed.

Lemma apply_tokens_clip tokens st1 st2 :
  clip_related pos end_ st1 st2 →
  match apply_tokens cigar seq qual pos None st2 tokens with
  | Ok st2' =>
      ∃ st1', apply_tokens cigar seq qual pos end_ st1 tokens = Ok st1'
              ∧ clip_related pos end_ st1' st2'
  | Err e => apply_tokens cigar seq qual pos end_ st1 tokens = Err e
  end.
Proof.
  revert st1 st2. induction tokens as [|token tokens IH]; intros st1 st2 Hrel.
  { simpl. by exists st1. }
  cbn [apply_tokens]. pose proof (apply_token_clip st1 st2 token Hrel) as Hstep.
  destruct (apply_token _ _ _ _ None st2 token) as [st2'|e]; cbn [rbind].
  - destruct Hstep as (st1' & -> & Hrel'). cbn [rbind]. by apply IH.
  - by rewrite Hstep.
Qed.
End clipping.

(** X3.  Clipping is slicing.  When the call without a clip window returns,
    the call with one returns the slices of its two strings and a part of
    its insertion map; when it raises, the call with a window raises the
    same error. *)
Theorem apply_cigar_clip cigar seq qual pos clip_from clip_to :
  match apply_cigar cigar seq qual pos 0 None with
  | Ok (s, q, ins) =>
      ∃ ins',
        apply_cigar cigar seq qual pos clip_from clip_to
        = Ok (py_slice s clip_from ((λ c, c + 1) <$> clip_to),
              py_slice q clip_from ((λ c, c + 1) <$> clip_to), ins')
        ∧ ins' ⊆ ins
  | Err e => apply_cigar cigar seq qual pos clip_from clip_to = Err e
  end.
Proof.
  unfold apply_cigar. destruct (is_valid cigar); cbn [negb]; [|done]. simpl fmap at 1 2 3.
  match goal with
  | |- context [apply_tokens _ _ _ _ None ?st ?tokens] =>
      pose proof (apply_tokens_clip cigar seq qual pos ((λ c, c + 1) <$> clip_to)
                    tokens st st) as Hloop
  end.
  destruct (apply_tokens _ _ _ _ None _ _) as [st2|e]; cbn [rbind].
  - destruct Hloop as (st1 & -> & Hs & Hq & Hl & Hsub & _).
    { split_and!; try done. intros key [? Hkey]. simpl in Hkey. by rewrite lookup_empty in Hkey. }
    cbn [rbind]. rewrite Hl. case_decide; [done|].
    exists (insertions st1). by rewrite !py_slice_all, Hs, Hq.
  - rewrite Hloop; [done|].
    split_and!; try done. intros key [? Hkey]. simpl in Hkey. by rewrite lookup_empty in Hkey.
Qed.

(** ** Bounds *)

Lemma consumed_take_le (tokens : list (str * ascii)) k :
  (consumed (take k tokens) ≤ consumed tokens)%nat.
Proof.
  rewrite <-(take_drop k tokens) at 2. rewrite consumed_app. lia.
Qed.

(** What a call that returns tells about the token loop. *)
Lemma apply_cigar_Ok_inv cigar seq qual pos clip_from clip_to s q ins :
  apply_cigar cigar seq qual pos clip_from clip_to = Ok (s, q, ins) →
  consumed (cigar_findall [] cigar) = length seq
  ∧ ∀ key v, ins !! key = Some v ↔
             recorded seq qual pos clip_to (cigar_findall [] cigar) key v.
Proof.
  unfold apply_cigar. destruct (is_valid cigar); [|done]. cbn [negb].
  destruct (apply_tokens _ _ _ _ _ _ _) as [st|e] eqn:Hloop; [|done].
  cbn [rbind]. case_decide; [done|]. intros [= <- <- <-].
  apply apply_tokens_Ok in Hloop as Hst. destruct Hst as (Hle & Hleft & _).
  simpl in Hle, Hleft. split; [lia|].
  eapply apply_tokens_recorded; [| |exact Hloop]; done.
Qed.

(** An insertion on record lies inside the read when the tokens consume no
    more than the read. *)
Lemma recorded_bounds seq qual pos clip_to tokens key iseq iqual :
  (consumed tokens ≤ length seq)%nat →
  recorded seq qual pos clip_to tokens key (iseq, iqual) →
  ∃ left n : nat,
    key = Z.of_nat left + pos
    ∧ (left + n ≤ length seq)%nat
    ∧ iseq = substr seq left n
    ∧ iqual = substr qual left n
    ∧ length iseq = n.
Proof.
  intros Hle (k & digits & Hk & -> & _ & [= -> ->] & _).
  exists (consumed (take k tokens)), (int_of_digits digits).
  assert (consumed (take k tokens) + int_of_digits digits ≤ length seq)%nat as Hin.
  { pose proof (consumed_take_le tokens (S k)) as Hk'.
    rewrite (take_S_r _ _ _ Hk), consumed_app in Hk'.
    unfold consumed at 2 in Hk'. simpl in Hk'.
    rewrite token_consumes_cases in Hk'. rewrite decide_True in Hk' by auto. lia. }
  split_and!; [done..|]. rewrite length_substr. lia.
Qed.

(** X4.  Every insertion [apply_cigar] returns is a piece of the read: its
    key is [pos] plus an offset into the read, and its bases and qualities
    are the same slice of the base and quality strings, which ends inside
    the read. *)
Theorem apply_cigar_insertion_bounds cigar seq qual pos clip_from clip_to
    s q ins key iseq iqual :
  apply_cigar cigar seq qual pos clip_from clip_to = Ok (s, q, ins) →
  ins !! key = Some (iseq, iqual) →
  ∃ left n : nat,
    key = Z.of_nat left + pos
    ∧ (left + n ≤ length seq)%nat
    ∧ iseq = substr seq left n
    ∧ iqual = substr qual left n
    ∧ length iseq = n.
Proof.
  intros [Hlen Hrec]%apply_cigar_Ok_inv Hkey.
  apply Hrec in Hkey. eapply recorded_bounds; [|exact Hkey]. lia.
Qed.

Lemma apply_cigar_insertion_bounds_witness :
  ∃ left n : nat,
    7 = Z.of_nat left + 2
    ∧ (left + n ≤ length (lit "TTACGAGTC"))%nat
    ∧ lit "A" = substr (lit "TTACGAGTC") left n
    ∧ lit "D" = substr (lit "##ABCDEFG") left n
    ∧ length (lit "A") = n.
Proof.
  apply (apply_cigar_insertion_bounds (lit "2S3M1I2M2D1M") (lit "TTACGAGTC")
           (lit "##ABCDEFG") 2 0 None (lit "--ACGGT--C") (lit "!!ABCEF  G")
           {[ 7 := (lit "A", lit "D") ]} 7 (lit "A") (lit "D")).
  - vm_compute. reflexivity.
  - vm_compute. reflexivity.
Defined.

Lemma main_sequence_length seq left tokens :
  (left + consumed tokens ≤ length seq)%nat →
  length (main_sequence seq left tokens) = reference_span tokens.
Proof.
  revert left. induction tokens as [|[digits op] tokens IH]; intros left Hlen; [done|].
  rewrite consumed_cons in Hlen. unfold reference_span. cbn [sum_list_with main_sequence fst snd].
  fold (reference_span tokens). rewrite token_consumes_cases in *.
  destruct (decide (op = "M"%char)) as [->|?].
  { rewrite decide_True in Hlen by auto.
    rewrite length_app, length_substr, IH by lia.
    rewrite bool_decide_eq_true_2 by (unfold lit; simpl; set_solver). lia. }
  destruct (decide (op = "D"%char)) as [->|?].
  { rewrite decide_False in Hlen by (intros [?|[?|?]]; done).
    rewrite length_app, length_replicate, IH by lia.
    by rewrite bool_decide_eq_true_2 by (unfold lit; simpl; set_solver). }
  rewrite bool_decide_eq_false_2.
  - case_decide; apply IH; lia.
  - unfold lit. simpl. rewrite !elem_of_cons, elem_of_nil. tauto.
Qed.

(** X5.  Without a clip window the decoded read is as long as its position
    plus the reference columns its [M] and [D] tokens cover: soft clips and
    insertions take no column. *)
Theorem apply_cigar_length cigar seq qual pos s q ins :
  apply_cigar cigar seq qual pos 0 None = Ok (s, q, ins) →
  length s = (Z.to_nat pos + reference_span (cigar_findall [] cigar))%nat.
Proof.
  unfold apply_cigar. destruct (is_valid cigar); [|done]. cbn [negb].
  destruct (apply_tokens _ _ _ _ _ _ _) as [st|e] eqn:Hloop; [|done].
  cbn [rbind]. case_decide; [done|]. intros [= <- <- <-].
  apply apply_tokens_Ok in Hloop as (Hle & Hleft & ->). simpl in Hle, Hleft.
  simpl fmap. rewrite py_slice_all. cbn [newseq left].
  rewrite length_app, main_sequence_length by (simpl; lia).
  unfold str_mul. by rewrite length_replicate.
Qed.

Lemma apply_cigar_length_witness :
  length (lit "--ACGGT--C") =
  (Z.to_nat 2 + reference_span (cigar_findall [] (lit "2S3M1I2M2D1M")))%nat.
Proof.
  apply (apply_cigar_length (lit "2S3M1I2M2D1M") (lit "TTACGAGTC") (lit "##ABCDEFG")
           2 (lit "--ACGGT--C") (lit "!!ABCEF  G") {[ 7 := (lit "A", lit "D") ]}).
  vm_compute. reflexivity.
Defined.

(** * Further properties of merge_pairs *)

Lemma merge_loop_lookup seq1 seq2 qual1 qual2 q_cutoff minimum_q_delta mseq :
  merge_loop seq1 seq2 qual1 qual2 q_cutoff minimum_q_delta = Some mseq →
  length mseq = length seq2
  ∧ ∀ i, (i < length seq2)%nat →
         merge_char seq1 seq2 qual1 qual2 q_cutoff minimum_q_delta i = mseq !! i.
Proof.
  unfold merge_loop. intros Hmap%mapM_Some_1.
  apply Forall2_length in Hmap as Hlen. rewrite length_seq in Hlen.
  split; [done|]. intros i Hi.
  destruct (lookup_lt_is_Some_2 mseq i) as [c Hc]; [lia|]. rewrite Hc.
  eapply (Forall2_lookup_lr _ _ _ i i c) in Hmap; [done| |done].
  by apply lookup_seq_lt.
Qed.

Lemma merge_loop_quals seq1 seq2 qual1 qual2 q_cutoff minimum_q_delta :
  is_Some (merge_loop seq1 seq2 qual1 qual2 q_cutoff minimum_q_delta) →
  (length seq2 ≤ length qual2)%nat
  ∧ ((length seq1 ≤ length seq2)%nat → (length seq1 ≤ length qual1)%nat).
Proof.
  intros [mseq Hm]. apply merge_loop_lookup in Hm as [Hlen Hchar].
  assert (length seq2 ≤ length qual2)%nat as H2.
  { destruct (decide (length seq2 ≤ length qual2)%nat) as [|Hlt]; [done|]. exfalso.
    specialize (Hchar (length qual2)). unfold merge_char in Hchar.
    destruct (lookup_lt_is_Some_2 seq2 (length qual2)) as [c2 Hc2]; [lia|].
    destruct (lookup_lt_is_Some_2 mseq (length qual2)) as [c Hc]; [lia|].
    rewrite Hc2, (lookup_ge_None_2 qual2), Hc in Hchar by lia.
    by specialize (Hchar ltac:(lia)). }
  split; [done|]. intros H12.
  destruct (decide (length seq1 ≤ length qual1)%nat) as [|Hlt]; [done|]. exfalso.
  specialize (Hchar (length qual1)). unfold merge_char in Hchar.
  destruct (lookup_lt_is_Some_2 seq2 (length qual1)) as [c2 Hc2]; [lia|].
  destruct (lookup_lt_is_Some_2 qual2 (length qual1)) as [k2 Hk2]; [lia|].
  destruct (lookup_lt_is_Some_2 seq1 (length qual1)) as [c1 Hc1]; [lia|].
  destruct (lookup_lt_is_Some_2 mseq (length qual1)) as [c Hc]; [lia|].
  rewrite Hc2, Hk2, Hc in Hchar. simpl in Hchar.
  rewrite decide_True, Hc1, (lookup_ge_None_2 qual1) in Hchar by lia.
  by specialize (Hchar ltac:(lia)).
Qed.

Lemma merge_pairs_quals seq1 seq2 qual1 qual2 q_cutoff minimum_q_delta :
  is_Some (merge_pairs seq1 seq2 qual1 qual2 None None q_cutoff minimum_q_delta) →
  (length seq1 ≤ length qual1)%nat ∧ (length seq2 ≤ length qual2)%nat.
Proof.
  rewrite merge_pairs_None.
  unfold merge_reads. case_decide; intros [? ?]%merge_loop_quals; split; auto with lia.
Qed.

(** X6.  Without insertion maps [merge_pairs] returns exactly when each
    quality string is at least as long as its read; otherwise indexing a
    quality string raises. *)
Theorem merge_pairs_returns_iff seq1 seq2 qual1 qual2 q_cutoff minimum_q_delta :
  is_Some (merge_pairs seq1 seq2 qual1 qual2 None None q_cutoff minimum_q_delta) ↔
  (length seq1 ≤ length qual1)%nat ∧ (length seq2 ≤ length qual2)%nat.
Proof.
  split; [apply merge_pairs_quals|].
  rewrite merge_pairs_None. intros []. by apply merge_reads_Some.
Qed.

(** The character written at a position is a base of one of the mates at
    that position, or [N], or [n]. *)
Lemma merge_char_source seq1 seq2 qual1 qual2 q_cutoff minimum_q_delta i c :
  merge_char seq1 seq2 qual1 qual2 q_cutoff minimum_q_delta i = Some c →
  c = "N"%char ∨ c = "n"%char ∨ seq1 !! i = Some c ∨ seq2 !! i = Some c.
Proof.
  unfold merge_char.
  destruct (seq2 !! i) as [c2|]; [|done]. destruct (qual2 !! i) as [k2|]; [|done].
  simpl. case_decide.
  - destruct (seq1 !! i) as [c1|]; [|done]. destruct (qual1 !! i) as [k1|]; [|done].
    simpl. intros [= <-]. unfold merge_overlap.
    repeat case_decide; subst; auto. destruct_and?. subst. auto.
  - intros [= <-]. unfold merge_tail. repeat case_decide; auto.
Qed.

(** X7.  What [merge_pairs] returns without insertion maps is as long as the
    longer mate, and each of its characters is the base of one of the mates
    at that position, or [N], or [n]: the merge never calls a base that
    neither mate has there. *)
Theorem merge_pairs_shape seq1 seq2 qual1 qual2 q_cutoff minimum_q_delta mseq :
  merge_pairs seq1 seq2 qual1 qual2 None None q_cutoff minimum_q_delta = Some mseq →
  length mseq = Nat.max (length seq1) (length seq2)
  ∧ ∀ i c, mseq !! i = Some c →
           c = "N"%char ∨ c = "n"%char ∨ seq1 !! i = Some c ∨ seq2 !! i = Some c.
Proof.
  rewrite merge_pairs_None. unfold merge_reads.
  case_decide; intros [Hlen Hchar]%merge_loop_lookup; (split; [lia|]);
    intros i c Hc; apply lookup_lt_Some in Hc as Hi;
    rewrite <-Hchar in Hc by lia; apply merge_char_source in Hc; tauto.
Qed.

Lemma merge_pairs_shape_witness :
  length (lit "ACGTANn") = Nat.max (length (lit "ACGT")) (length (lit "ACCTAG-"))
  ∧ ∀ i c, lit "ACGTANn" !! i = Some c →
           c = "N"%char ∨ c = "n"%char ∨ lit "ACGT" !! i = Some c
           ∨ lit "ACCTAG-" !! i = Some c.
Proof.
  apply (merge_pairs_shape (lit "ACGT") (lit "ACCTAG-") (lit "IIII") (lit "I5##I#!") 10 5).
  vm_compute. reflexivity.
Defined.

Lemma merge_char_cutoff_mono seq1 seq2 qual1 qual2 q_cutoff q_cutoff' minimum_q_delta i c' :
  q_cutoff ≤ q_cutoff' →
  merge_char seq1 seq2 qual1 qual2 q_cutoff' minimum_q_delta i = Some c' →
  c' = "N"%char
  ∨ merge_char seq1 seq2 qual1 qual2 q_cutoff minimum_q_delta i = Some c'.
Proof.
  intros Hle. unfold merge_char.
  destruct (seq2 !! i) as [c2|]; [|done]. destruct (qual2 !! i) as [k2|]; [|done].
  simpl. case_decide.
  - destruct (seq1 !! i) as [c1|]; [|done]. destruct (qual1 !! i) as [k1|]; [|done].
    simpl. intros [= <-]. unfold merge_overlap.
    repeat case_decide; auto; exfalso; lia.
  - intros [= <-]. unfold merge_tail. repeat case_decide; auto; exfalso; lia.
Qed.

(** X8.  Raising the cutoff only censors: the merge at a higher cutoff
    exists when the merge at the lower one does, has the same length, and
    differs from it only where it has [N]. *)
Theorem merge_pairs_cutoff_mono seq1 seq2 qual1 qual2 q_cutoff q_cutoff'
    minimum_q_delta mseq :
  q_cutoff ≤ q_cutoff' →
  merge_pairs seq1 seq2 qual1 qual2 None None q_cutoff minimum_q_delta = Some mseq →
  ∃ mseq',
    merge_pairs seq1 seq2 qual1 qual2 None None q_cutoff' minimum_q_delta = Some mseq'
    ∧ length mseq' = length mseq
    ∧ ∀ i c', mseq' !! i = Some c' → c' = "N"%char ∨ mseq !! i = Some c'.
Proof.
  intros Hle Hm.
  assert (is_Some (merge_pairs seq1 seq2 qual1 qual2 None None q_cutoff' minimum_q_delta))
    as [mseq' Hm'].
  { rewrite merge_pairs_None.
    destruct (merge_pairs_quals seq1 seq2 qual1 qual2 q_cutoff minimum_q_delta)
      as [? ?]; [by eexists|]. by apply merge_reads_Some. }
  exists mseq'. split; [done|].
  rewrite merge_pairs_None in Hm, Hm'. unfold merge_reads in Hm, Hm'.
  case_decide; apply merge_loop_lookup in Hm as [Hlen Hchar];
    apply merge_loop_lookup in Hm' as [Hlen' Hchar']; (split; [lia|]);
    intros i c' Hc'; apply lookup_lt_Some in Hc' as Hi;
    rewrite <-Hchar' in Hc' by lia; rewrite <-Hchar by lia;
    by eapply merge_char_cutoff_mono.
Qed.

Lemma merge_pairs_cutoff_mono_witness :
  ∃ mseq',
    merge_pairs (lit "ACGT") (lit "ACCTAG-") (lit "IIII") (lit "I5##I#!")
                None None 50 5 = Some mseq'
    ∧ length mseq' = length (lit "ACGTANn")
    ∧ ∀ i c', mseq' !! i = Some c' → c' = "N"%char ∨ lit "ACGTANn" !! i = Some c'.
Proof.
  apply (merge_pairs_cutoff_mono (lit "ACGT") (lit "ACCTAG-") (lit "IIII")
           (lit "I5##I#!") 10 50 5).
  - lia.
  - vm_compute. reflexivity.
Defined.

(** X9.  Two mates that read the same sequence, one of them with every
    quality above the cutoff, merge to that sequence. *)
Theorem merge_pairs_agree seq qual1 qual2 q_cutoff minimum_q_delta :
  length qual1 = length seq →
  (length seq ≤ length qual2)%nat →
  Forall (λ k, q_cutoff < phred k) qual1 →
  merge_pairs seq seq qual1 qual2 None None q_cutoff minimum_q_delta = Some seq.
Proof.
  intros Hq1 Hq2 Hconf. rewrite merge_pairs_None. unfold merge_reads.
  rewrite decide_False by lia.
  destruct (merge_loop_Some seq seq qual1 qual2 q_cutoff minimum_q_delta)
    as (mseq & -> & Hlen & Hchar); [lia..|].
  f_equal. apply list_eq. intros i.
  destruct (decide (i < length seq)%nat) as [Hi|Hi].
  - rewrite <-Hchar by done. unfold merge_char.
    destruct (lookup_lt_is_Some_2 seq i) as [c Hc]; [lia|].
    destruct (lookup_lt_is_Some_2 qual1 i) as [k1 Hk1]; [lia|].
    destruct (lookup_lt_is_Some_2 qual2 i) as [k2 Hk2]; [lia|].
    rewrite Hc, Hk2. simpl. rewrite decide_True by done. rewrite ?Hc, Hk1. simpl. f_equal.
    rewrite Forall_lookup in Hconf. specialize (Hconf i k1 Hk1).
    unfold merge_overlap. repeat case_decide; try done; destruct_and?; try done.
    exfalso. tauto.
  - by rewrite !lookup_ge_None_2 by lia.
Qed.

Lemma merge_pairs_agree_witness :
  merge_pairs (lit "AC-GT") (lit "AC-GT") (lit "IIIII") (lit "!!!!!!!") None None 10 5
  = Some (lit "AC-GT").
Proof.
  apply (merge_pairs_agree (lit "AC-GT") (lit "IIIII") (lit "!!!!!!!") 10 5).
  - reflexivity.
  - vm_compute. lia.
  - repeat constructor.
Defined.

(** ** The splicing loop *)

Lemma mapM_snoc {A B} (f : A → option B) (l : list A) (x : A) :
  mapM f (l ++ [x]) = gs ← mapM f l; g ← f x; Some (gs ++ [g]).
Proof.
  induction l as [|y l IH]; simpl.
  - by destruct (f x).
  - destruct (f y) as [b|]; simpl; [|done]. rewrite IH.
    destruct (mapM f l) as [gs|]; simpl; [|done]. by destruct (f x).
Qed.

Lemma insert_loop_step ins1 ins2 pos mseq :
  insert_loop ins1 ins2 (S pos) mseq =
  g ← merged_insertion ins1 ins2 pos;
  insert_loop ins1 ins2 pos (take pos mseq ++ g ++ drop pos mseq).
Proof.
  cbn [insert_loop]. unfold merged_insertion.
  destruct (ins_get ins1 pos) as [ins_seq1 ins_qual1].
  destruct (ins_get ins2 pos) as [ins_seq2 ins_qual2].
  case_decide; [done|]. simpl. by rewrite take_drop.
Qed.

Lemma insert_loop_splice ins1 ins2 (mseq : str) n (rest : str) :
  (n ≤ length mseq)%nat →
  insert_loop ins1 ins2 n (take n mseq ++ rest) =
  gs ← mapM (merged_insertion ins1 ins2) (seq 0 n);
  Some (concat (zip_with (λ g c, g ++ [c]) gs (take n mseq)) ++ rest).
Proof.
  revert rest. induction n as [|pos IH]; intros rest Hn; [done|].
  destruct (lookup_lt_is_Some_2 mseq pos) as [c Hc]; [lia|].
  rewrite insert_loop_step, seq_S, mapM_snoc, (take_S_r _ _ _ Hc). simpl.
  assert (pos = length (take pos mseq)) as Hlen by (rewrite length_take; lia).
  rewrite <-(app_assoc (take pos mseq)).
  rewrite take_app_length' by done. rewrite drop_app_length' by done.
  destruct (merged_insertion ins1 ins2 pos) as [g|]; simpl.
  - rewrite IH by lia.
    destruct (mapM _ (seq 0 pos)) as [gs|] eqn:Hgs; simpl; [|done].
    apply length_mapM in Hgs. rewrite length_seq in Hgs.
    rewrite zip_with_app by lia. simpl.
    rewrite concat_app. simpl. by rewrite app_nil_r, <-!app_assoc.
  - by destruct (mapM _ (seq 0 pos)).
Qed.

(** X10.  The second loop of [merge_pairs] puts the merge of the two
    insertions keyed at a position just before the base at that position,
    for every position of the merged sequence, and raises when the merge
    without insertions or the merge of any pair of insertions raises. *)
Theorem merge_pairs_splice seq1 seq2 qual1 qual2 ins1 ins2 q_cutoff minimum_q_delta :
  merge_pairs seq1 seq2 qual1 qual2 ins1 ins2 q_cutoff minimum_q_delta =
  mseq ← merge_pairs seq1 seq2 qual1 qual2 None None q_cutoff minimum_q_delta;
  gs ← mapM (merged_insertion ins1 ins2) (seq 0 (length mseq));
  Some (concat (zip_with (λ g c, g ++ [c]) gs mseq)).
Proof.
  rewrite merge_pairs_None. unfold merge_pairs.
  destruct (merge_reads _ _ _ _ _ _) as [mseq|]; simpl; [|done].
  pose proof (insert_loop_splice ins1 ins2 mseq (length mseq) [] (Nat.le_refl _)) as H.
  rewrite firstn_all, app_nil_r in H. rewrite H.
  destruct (mapM _ _); simpl; [|done]. by rewrite app_nil_r.
Qed.

Lemma insert_loop_nothing ins1 ins2 n mseq :
  (∀ pos, (pos < n)%nat → merged_insertion ins1 ins2 pos = Some []) →
  insert_loop ins1 ins2 n mseq = Some mseq.
Proof.
  revert mseq. induction n as [|pos IH]; intros mseq Hnone; [done|].
  rewrite insert_loop_step, Hnone by lia. simpl. rewrite take_drop.
  apply IH. intros ? ?. apply Hnone. lia.
Qed.

(** X11.  An insertion keyed below 0, or at or past the length of the
    longer mate, is dropped: with only such keys in the two maps
    [merge_pairs] returns what it returns without them.  So an insertion
    that follows the last base of the merged sequence is lost. *)
Theorem merge_pairs_insertions_out_of_range seq1 seq2 qual1 qual2
    (ins1 ins2 : gmap Z (str * str)) q_cutoff minimum_q_delta :
  (∀ key, is_Some (ins1 !! key) ∨ is_Some (ins2 !! key) →
          key < 0 ∨ Z.of_nat (Nat.max (length seq1) (length seq2)) ≤ key) →
  merge_pairs seq1 seq2 qual1 qual2 (Some ins1) (Some ins2) q_cutoff minimum_q_delta =
  merge_pairs seq1 seq2 qual1 qual2 None None q_cutoff minimum_q_delta.
Proof.
  intros Hout. rewrite merge_pairs_None.
  destruct (merge_reads seq1 seq2 qual1 qual2 q_cutoff minimum_q_delta) as [mseq|] eqn:Hm;
    unfold merge_pairs; rewrite Hm; simpl; [|done].
  assert (length mseq = Nat.max (length seq1) (length seq2)) as Hlen.
  { unfold merge_reads in Hm. case_decide; apply merge_loop_lookup in Hm as [? _]; lia. }
  apply insert_loop_nothing. intros pos Hpos. unfold merged_insertion, ins_get. simpl.
  destruct (ins1 !! Z.of_nat pos) eqn:H1.
  { destruct (Hout (Z.of_nat pos)); [left; by eexists|lia..]. }
  destruct (ins2 !! Z.of_nat pos) eqn:H2.
  { destruct (Hout (Z.of_nat pos)); [right; by eexists|lia..]. }
  reflexivity.
Qed.

Lemma merge_pairs_insertions_out_of_range_witness :
  merge_pairs (lit "ACGT") (lit "ACG") (lit "IIII") (lit "III")
              (Some {[ 4 := (lit "TT", lit "II") ]}) (Some ∅) 10 5 =
  merge_pairs (lit "ACGT") (lit "ACG") (lit "IIII") (lit "III") None None 10 5.
Proof.
  apply (merge_pairs_insertions_out_of_range (lit "ACGT") (lit "ACG") (lit "IIII")
           (lit "III") {[ 4 := (lit "TT", lit "II") ]} ∅ 10 5).
  intros key [[v Hv]|[v Hv]].
  - apply lookup_singleton_Some in Hv as [<- _]. right. vm_compute. discriminate.
  - by rewrite lookup_empty in Hv.
Defined.

(** * The merged sequence and its stripped form *)

(** X12.  A merged sequence is its gap prefix, then its stripped form, then
    gaps only; and the stripped form neither starts nor ends with a gap.  So
    the offset and the sequence of an aligned row give the merged sequence
    back up to the gaps at its end. *)
Theorem gap_prefix_strip s :
  ∃ k, s = replicate (len_gap_prefix s) gap ++ strip_gap s ++ replicate k gap
       ∧ head (strip_gap s) ≠ Some gap
       ∧ last (strip_gap s) ≠ Some gap.
Proof.
  exists (len_gap_prefix (reverse (lstrip_gap s))).
  split; [|apply strip_gap_ends].
  unfold strip_gap. rewrite <-rstrip_gap_decompose. apply lstrip_gap_decompose.
Qed.

(** * Properties of matchmaker *)

Lemma singles_rows (l : list (str * sam_row)) :
  ((λ kv : str * sam_row, (kv.2, None)) <$> l) ≫= pair_rows = l.*2.
Proof. induction l as [|kv l IH]; [done|]. csimpl. by rewrite IH. Qed.

Lemma matchmaker_loop_rows (rows : list sam_row) (cached_rows : gmap str sam_row) :
  matchmaker_loop rows cached_rows ≫= pair_rows
  ≡ₚ (map_to_list cached_rows).*2 ++ rows.
Proof.
  revert cached_rows. induction rows as [|row rows IH]; intros cached_rows.
  { simpl. by rewrite singles_rows, app_nil_r. }
  cbn [matchmaker_loop]. destruct (cached_rows !! row_qname row) as [old_row|] eqn:Hq.
  - cbn [mbind list_bind]. rewrite IH. unfold pair_rows at 1. simpl.
    rewrite <-(map_to_list_delete cached_rows (row_qname row) old_row Hq). simpl.
    by rewrite <-Permutation_middle.
  - rewrite IH, map_to_list_insert by done. simpl.
    by rewrite <-Permutation_middle.
Qed.

(** X13.  [matchmaker] loses no row and yields none twice: the rows of the
    pairs it yields are the rows of the input, in some order. *)
Theorem matchmaker_rows remap_csv :
  matchmaker remap_csv ≫= pair_rows ≡ₚ remap_csv.
Proof.
  unfold matchmaker. by rewrite matchmaker_loop_rows, map_to_list_empty.
Qed.

Lemma matchmaker_loop_pairs (rows : list sam_row) (cached_rows : gmap str sam_row) :
  (∀ qname row, cached_rows !! qname = Some row → row_qname row = qname) →
  ∃ pairs singles,
    matchmaker_loop rows cached_rows =
      ((λ p : sam_row * sam_row, (p.1, Some p.2)) <$> pairs)
      ++ ((λ row, (row, None)) <$> singles)
    ∧ Forall (λ p : sam_row * sam_row, row_qname p.1 = row_qname p.2) pairs
    ∧ NoDup (row_qname <$> singles).
Proof.
  revert cached_rows. induction rows as [|row rows IH]; intros cached_rows Hinv.
  - exists [], (map_to_list cached_rows).*2. simpl. split_and!.
    + by rewrite <-list_fmap_compose.
    + constructor.
    + assert (row_qname <$> (map_to_list cached_rows).*2 = (map_to_list cached_rows).*1)
        as ->; [|apply NoDup_fst_map_to_list].
      rewrite <-list_fmap_compose. apply list_fmap_ext.
      intros i [qname r] Hi%list_elem_of_lookup_2%elem_of_map_to_list. simpl. by apply Hinv.
  - cbn [matchmaker_loop]. destruct (cached_rows !! row_qname row) as [old_row|] eqn:Hq.
    + destruct (IH (delete (row_qname row) cached_rows)) as (pairs & singles & -> & Hp & Hs).
      { intros qname r [_ ?]%lookup_delete_Some. by apply Hinv. }
      exists ((old_row, row) :: pairs), singles. split_and!; [done| |done].
      constructor; [|done]. simpl. by apply Hinv.
    + destruct (IH (<[row_qname row := row]> cached_rows)) as (pairs & singles & -> & Hp & Hs).
      { intros qname r [[<- <-]|[_ ?]]%lookup_insert_Some; [done|by apply Hinv]. }
      by exists pairs, singles.
Qed.

(** X14.  What [matchmaker] yields is first the complete pairs, whose two
    rows have one qname, and then the unmatched rows, whose qnames are all
    different. *)
Theorem matchmaker_pairs remap_csv :
  ∃ pairs singles,
    matchmaker remap_csv =
      ((λ p : sam_row * sam_row, (p.1, Some p.2)) <$> pairs)
      ++ ((λ row, (row, None)) <$> singles)
    ∧ Forall (λ p : sam_row * sam_row, row_qname p.1 = row_qname p.2) pairs
    ∧ NoDup (row_qname <$> singles).
Proof.
  apply matchmaker_loop_pairs. intros qname row Hrow. by rewrite lookup_empty in Hrow.
Qed.

(** * Further properties of parse_sam *)

Lemma merge_cutoffs_variants cfg qname seq1 seq2 qual1 qual2 qcuts mseqs0 failed0
    mseqs failed_list (q : Z) (m : str) :
  merge_cutoffs cfg qname seq1 seq2 qual1 qual2 qcuts mseqs0 failed0
  = Ok (mseqs, failed_list) →
  mseqs !! q = Some m →
  mseqs0 !! q = Some m
  ∨ (q ∈ qcuts
     ∧ merge_pairs seq1 seq2 qual1 qual2 None None q 5 = Some m
     ∧ strip_gap m ≠ []
     ∧ PrimFloat.ltb (max_prop_N cfg) (prop_N m) = false).
Proof.
  revert mseqs0 failed0. induction qcuts as [|q0 qcuts IH]; intros mseqs0 failed0.
  { intros [= <- <-]. by left. }
  cbn [merge_cutoffs].
  destruct (merge_pairs _ _ _ _ _ _ q0 5) as [m0|] eqn:Hm0; [|done]. cbn [of_option rbind].
  case_decide as Hlen; [done|].
  destruct (PrimFloat.ltb (max_prop_N cfg) (prop_N m0)) eqn:Hfail; intros Hloop Hq.
  - destruct (IH _ _ Hloop Hq) as [?|(? & ? & ? & ?)]; [by left|].
    right. split_and!; [by right|done..].
  - destruct (IH _ _ Hloop Hq) as [Hin|(? & ? & ? & ?)].
    + apply lookup_insert_Some in Hin as [[<- <-]|[_ ?]]; [|by left].
      right. split_and!; [left|done| |done]. by destruct (strip_gap m0).
    + right. split_and!; [by right|done..].
Qed.

(** What a call of [parse_sam] that returns went through: the pair was
    turned down before decoding, or both mates decoded and the loop over the
    cutoffs ended. *)
Lemma parse_sam_Ok_inv cfg row1 row2 rname mseqs insert_list failed_list :
  parse_sam cfg (row1, row2) = Ok (rname, mseqs, insert_list, failed_list) →
  rname = row_rname row1
  ∧ ((pair_rejected cfg row1 row2 = true ∧ mseqs = ∅ ∧ insert_list = [])
     ∨ ∃ mate s1 q1 i1 s2 q2 i2,
         row2 = Some mate
         ∧ pair_rejected cfg row1 row2 = false
         ∧ apply_cigar (row_cigar row1) (row_seq row1) (row_qual row1) 0 0 None
           = Ok (s1, q1, i1)
         ∧ apply_cigar (row_cigar mate) (row_seq mate) (row_qual mate) 0 0 None
           = Ok (s2, q2, i2)
         ∧ insert_list =
           insert_rows (row_qname row1) (row_rname row1) (row_flag row1)
                       (row_pos row1 - 1) i1
           ++ insert_rows (row_qname row1) (row_rname row1) (row_flag mate)
                          (row_pos mate - 1) i2
         ∧ merge_cutoffs cfg (row_qname row1)
             (str_mul gap (row_pos row1 - 1) ++ s1)
             (str_mul gap (row_pos mate - 1) ++ s2)
             (str_mul "!"%char (row_pos row1 - 1) ++ q1)
             (str_mul "!"%char (row_pos mate - 1) ++ q2)
             (sam2aln_q_cutoffs cfg) ∅ []
           = Ok (mseqs, failed_list)).
Proof.
  unfold parse_sam. destruct row2 as [mate|].
  2: { intros [= <- <- <- _]. split; [done|]. by left. }
  destruct (pair_rejected cfg row1 (Some mate)) eqn:Hacc.
  { intros [= <- <- <- _]. split; [done|]. by left. }
  destruct (apply_cigar (row_cigar row1) _ _ _ _ _) as [[[s1 q1] i1]|e] eqn:Hd1; [|done].
  destruct (apply_cigar (row_cigar mate) _ _ _ _ _) as [[[s2 q2] i2]|e] eqn:Hd2; [|done].
  destruct (merge_cutoffs _ _ _ _ _ _ _ _ _) as [[mseqs' fl]|e] eqn:Hloop; [|done].
  intros [= <- <- <- <-]. split; [done|]. right.
  by eexists mate, s1, q1, i1, s2, q2, i2.
Qed.

(** X15.  A variant [parse_sam] returns is always the merge, at one of the
    configured cutoffs, of the two decoded and padded mates of a pair that
    passed the mapping test; it has a base left after stripping, and its
    fraction of [N] is not above [max_prop_N]. *)
Theorem parse_sam_variants cfg row1 row2 rname mseqs insert_list failed_list
    (q : Z) (m : str) :
  parse_sam cfg (row1, row2) = Ok (rname, mseqs, insert_list, failed_list) →
  mseqs !! q = Some m →
  rname = row_rname row1
  ∧ q ∈ sam2aln_q_cutoffs cfg
  ∧ strip_gap m ≠ []
  ∧ PrimFloat.ltb (max_prop_N cfg) (prop_N m) = false
  ∧ pair_rejected cfg row1 row2 = false
  ∧ ∃ mate seq1 qual1 seq2 qual2,
      row2 = Some mate
      ∧ padded_read row1 = Ok (seq1, qual1)
      ∧ padded_read mate = Ok (seq2, qual2)
      ∧ merge_pairs seq1 seq2 qual1 qual2 None None q 5 = Some m.
Proof.
  intros [-> [(_ & -> & _)|Hacc]]%parse_sam_Ok_inv Hq.
  { by rewrite lookup_empty in Hq. }
  destruct Hacc as (mate & s1 & q1 & i1 & s2 & q2 & i2 & -> & Hacc & Hd1 & Hd2 & _ & Hloop).
  destruct (merge_cutoffs_variants _ _ _ _ _ _ _ _ _ _ _ q m Hloop Hq)
    as [Hin|(? & ? & ? & ?)]; [by rewrite lookup_empty in Hin|].
  split_and!; [done..|]. eexists mate, _, _, _, _. unfold padded_read.
  rewrite Hd1, Hd2. by split_and!.
Qed.

Lemma parse_sam_variants_witness :
  lit "R1" = row_rname (mk_row "a" 99 "R1" 1 44 "4M" "ACGT" "++++")
  ∧ 0 ∈ sam2aln_q_cutoffs cfg0
  ∧ strip_gap (lit "ACGT") ≠ []
  ∧ PrimFloat.ltb (max_prop_N cfg0) (prop_N (lit "ACGT")) = false
  ∧ pair_rejected cfg0 (mk_row "a" 99 "R1" 1 44 "4M" "ACGT" "++++")
      (Some (mk_row "a" 147 "R1" 1 44 "4M" "ACGT" "++++")) = false
  ∧ ∃ mate seq1 qual1 seq2 qual2,
      Some (mk_row "a" 147 "R1" 1 44 "4M" "ACGT" "++++") = Some mate
      ∧ padded_read (mk_row "a" 99 "R1" 1 44 "4M" "ACGT" "++++") = Ok (seq1, qual1)
      ∧ padded_read mate = Ok (seq2, qual2)
      ∧ merge_pairs seq1 seq2 qual1 qual2 None None 0 5 = Some (lit "ACGT").
Proof.
  eapply (parse_sam_variants cfg0 _ _ (lit "R1") {[ 0 := lit "ACGT" ]}).
  - vm_compute. reflexivity.
  - vm_compute. reflexivity.
Defined.

(** A rejected pair is written to the failure report without being
    decoded. *)
Lemma parse_sam_rejected cfg rows :
  pair_rejected cfg rows.1 rows.2 = true →
  parse_sam cfg rows = Ok (row_rname rows.1, ∅, [], [failed_pair_row rows]).
Proof.
  destruct rows as [row1 [mate|]]; simpl; [|done].
  intros Hrej. unfold parse_sam. by rewrite Hrej.
Qed.

(** * Further properties of sam2aln *)

Lemma sam2aln_loop_Raised_inv cfg pairs aligned insert_csv failed_csv e ins' failed' :
  sam2aln_loop cfg pairs aligned insert_csv failed_csv = Raised e ins' failed' →
  ∃ before rows after,
    pairs = before ++ rows :: after
    ∧ Forall (λ rows, ∃ res, parse_sam cfg rows = Ok res) before
    ∧ parse_sam cfg rows = Err e
    ∧ ins' = insert_csv ++ insert_rows_of cfg before
    ∧ failed' = failed_csv ++ failed_rows_of cfg before.
Proof.
  revert aligned insert_csv failed_csv.
  induction pairs as [|rows pairs IH]; intros aligned insert_csv failed_csv; [done|].
  cbn [sam2aln_loop].
  destruct (parse_sam cfg rows) as [[[[rname mseqs] il] fl]|e'] eqn:Hp.
  - intros (before & rows' & after & -> & Hall & Herr & -> & ->)%IH.
    exists (rows :: before), rows', after. split_and!; [done| |done|..].
    + constructor; [by eexists|done].
    + unfold insert_rows_of. cbn [mbind list_bind]. by rewrite Hp, app_assoc.
    + unfold failed_rows_of. cbn [mbind list_bind]. by rewrite Hp, app_assoc.
  - intros [= <- <- <-]. exists [], rows, pairs.
    unfold insert_rows_of, failed_rows_of. simpl. by rewrite !app_nil_r.
Qed.

(** X16.  The insertion and failure files of a run.  A run finishes exactly
    when [parse_sam] returns on every pair, and the two files are then the
    rows returned for the pairs, in stream order.  A run that raises was
    either started with a negative thread count, and raised [ValueError]
    with no row written, or it met a first pair on which [parse_sam] raised,
    and stopped with that exception: the files then hold the rows of the
    pairs before it in a serial run, and with a worker pool the rows of the
    chunks of 100 pairs that are complete before the chunk of that pair. *)
Theorem sam2aln_files cfg nthreads remap_csv :
  match sam2aln cfg nthreads remap_csv with
  | Finished _ insert_csv failed_csv =>
      Forall (λ rows, ∃ res, parse_sam cfg rows = Ok res) (matchmaker remap_csv)
      ∧ insert_csv = insert_rows_of cfg (matchmaker remap_csv)
      ∧ failed_csv = failed_rows_of cfg (matchmaker remap_csv)
  | Raised e insert_csv failed_csv =>
      ((∃ n, nthreads = Some n ∧ n < 0)
       ∧ e = ValueError ∧ insert_csv = [] ∧ failed_csv = [])
      ∨ ((∀ n, nthreads = Some n → 0 ≤ n)
         ∧ ∃ before rows after,
             matchmaker remap_csv = before ++ rows :: after
             ∧ Forall (λ rows, ∃ res, parse_sam cfg rows = Ok res) before
             ∧ parse_sam cfg rows = Err e
             ∧ insert_csv = insert_rows_of cfg (written_before nthreads before)
             ∧ failed_csv = failed_rows_of cfg (written_before nthreads before))
  end.
Proof.
  destruct (sam2aln cfg nthreads remap_csv) as [out i f|e i f] eqn:Hrun.
  - by apply sam2aln_Finished, sam2aln_loop_Finished in Hrun as (_ & _ & _ & -> & -> & ?).
  - assert ((∀ n, nthreads = Some n → 0 ≤ n) ∨ ∃ n, nthreads = Some n ∧ n < 0)
      as [Hvalid|(n & -> & Hn)].
    { destruct nthreads as [n|]; [|by left].
      destruct (decide (n < 0)); [right; by exists n|].
      left. intros ? [= <-]. lia. }
    + right. split; [done|].
      destruct (first_raise cfg (matchmaker remap_csv))
        as [Hall|(before & rows & after & e' & Hpairs & Hall & Herr)].
      * rewrite (sam2aln_all_Ok cfg nthreads remap_csv Hvalid Hall) in Hrun.
        destruct (sam2aln_loop_all_Ok cfg (matchmaker remap_csv) ∅ [] [] Hall)
          as (out & i' & f' & Hfin). congruence.
      * rewrite (sam2aln_Raised cfg nthreads remap_csv before rows after e')
          in Hrun by done.
        injection Hrun as <- <- <-. by exists before, rows, after.
    + left. unfold sam2aln in Hrun. simpl in Hrun.
      replace (n =? 0) with false in Hrun by (symmetry; apply Z.eqb_neq; lia).
      simpl in Hrun. rewrite decide_True in Hrun by lia.
      injection Hrun as <- <- <-. split; [by exists n|done].
Qed.

(** ** Counts *)

Lemma sum_list_with_fmap {A B} (f : B → nat) (g : A → B) (l : list A) :
  sum_list_with f (g <$> l) = sum_list_with (λ x, f (g x)) l.
Proof. induction l as [|x l IH]; [done|]. csimpl. by rewrite IH. Qed.

Lemma sum_list_with_imap {A B} (f : B → nat) (g : nat → A → B) (h : A → nat)
    (l : list A) :
  (∀ i x, f (g i x) = h x) →
  sum_list_with f (imap g l) = sum_list_with h l.
Proof.
  revert g. induction l as [|x l IH]; intros g Hg; [done|].
  simpl. rewrite Hg, (IH (g ∘ S)); [done|]. intros i y. apply Hg.
Qed.

Lemma sum_indicator {A} `{EqDecision A} (x : A) (k : list A) :
  NoDup k →
  sum_list_with (λ y, if decide (x = y) then 1 else 0)%nat k =
  if decide (x ∈ k) then 1%nat else 0%nat.
Proof.
  induction 1 as [|y k Hy _ IH]; [done|]. simpl. rewrite IH.
  destruct (decide (x = y)) as [->|Hne].
  - rewrite (decide_False (P := y ∈ k)) by done. rewrite decide_True by left. done.
  - destruct (decide (x ∈ k)).
    + rewrite decide_True by (by right). done.
    + rewrite decide_False; [done|]. by intros [?|?]%elem_of_cons.
Qed.

Lemma sum_occurrences {A} `{EqDecision A} (l k : list A) :
  NoDup k → (∀ x, x ∈ l → x ∈ k) →
  sum_list_with (λ y, occurrences y l) k = length l.
Proof.
  intros Hk. induction l as [|x l IH]; intros Hin.
  - clear Hk Hin. induction k as [|y k IHk]; [done|]. simpl. by rewrite IHk.
  - simpl. rewrite <-IH by (intros y Hy; apply Hin; by right).
    assert (sum_list_with (λ y, occurrences y (x :: l)) k
            = sum_list_with (λ y, if decide (x = y) then 1 else 0)%nat k
              + sum_list_with (λ y, occurrences y l) k)%nat as ->.
    { clear. induction k as [|y k IHk]; [done|]. simpl.
      rewrite IHk, occurrences_cons. case_decide; lia. }
    rewrite sum_indicator by done. rewrite decide_True by (apply Hin; left). done.
Qed.

(** X17.  No merge is lost or counted twice: in a finished run the counts of
    the rows of a (reference, cutoff) group add up to the number of merges
    that succeeded for it. *)
Theorem sam2aln_count_total cfg nthreads remap_csv aligned_csv insert_csv failed_csv
    (r : str) (q : Z) :
  sam2aln cfg nthreads remap_csv = Finished aligned_csv insert_csv failed_csv →
  sum_list_with al_count (group_of r q aligned_csv) =
  length (group_merges cfg (matchmaker remap_csv) r q).
Proof.
  intros Hrun%sam2aln_Finished. rewrite (sam2aln_loop_group _ _ _ _ _ r q Hrun).
  unfold group_rows, rank_rows.
  rewrite (sum_list_with_imap _ _ (λ t : nat * nat * str, t.1.1)) by done.
  rewrite intermed_Permutation, group_counter_items, <-list_fmap_compose.
  rewrite sum_list_with_fmap. simpl.
  apply sum_occurrences; [apply NoDup_remove_dups|].
  intros s. by rewrite elem_of_remove_dups.
Qed.

Lemma sam2aln_count_total_witness :
  let remap_csv :=
    [ mk_row "a" 99 "R1" 1 44 "4M" "ACGT" "IIII";
      mk_row "a" 147 "R1" 1 44 "4M" "ACGT" "IIII";
      mk_row "b" 99 "R1" 2 44 "4M" "ACGT" "IIII";
      mk_row "b" 147 "R1" 2 44 "4M" "ACGT" "IIII";
      mk_row "c" 99 "R1" 1 44 "4M" "ACGT" "IIII";
      mk_row "c" 147 "R1" 1 44 "4M" "ACGT" "IIII" ] in
  ∃ aligned_csv,
    sam2aln cfg0 None remap_csv = Finished aligned_csv [] []
    ∧ sum_list_with al_count (group_of (lit "R1") 10 aligned_csv) =
      length (group_merges cfg0 (matchmaker remap_csv) (lit "R1") 10)
    ∧ length (group_merges cfg0 (matchmaker remap_csv) (lit "R1") 10) = 3%nat.
Proof.
  intros remap_csv.
  pose (aligned_csv :=
          match sam2aln cfg0 None remap_csv with
          | Finished aligned_csv _ _ => aligned_csv
          | Raised _ _ _ => []
          end).
  assert (sam2aln cfg0 None remap_csv = Finished aligned_csv [] []) as Hrun.
  { vm_compute. reflexivity. }
  exists aligned_csv. split; [exact Hrun|]. split; [|vm_compute; reflexivity].
  exact (sam2aln_count_total cfg0 None remap_csv aligned_csv [] [] (lit "R1") 10 Hrun).
Defined.

(** ** The rows of the aligned output *)

(** X18.  Every row of the aligned output of a finished run comes from a
    merge of its group: its sequence is that merge stripped and its offset
    the merge's gap prefix.  Its count is at least 1, its cutoff is one of
    the configured ones, and its sequence is not empty and has no gap at
    either end. *)
Theorem sam2aln_rows_wellformed cfg nthreads remap_csv aligned_csv insert_csv
    failed_csv row :
  sam2aln cfg nthreads remap_csv = Finished aligned_csv insert_csv failed_csv →
  row ∈ aligned_csv →
  (1 ≤ al_count row)%nat
  ∧ al_qcut row ∈ sam2aln_q_cutoffs cfg
  ∧ al_seq row ≠ []
  ∧ head (al_seq row) ≠ Some gap
  ∧ last (al_seq row) ≠ Some gap
  ∧ ∃ mseq,
      mseq ∈ group_merges cfg (matchmaker remap_csv) (al_refname row) (al_qcut row)
      ∧ al_seq row = strip_gap mseq
      ∧ al_offset row = len_gap_prefix mseq.
Proof.
  intros Hrun%sam2aln_Finished Hrow.
  assert (row ∈ group_of (al_refname row) (al_qcut row) aligned_csv) as Hgroup.
  { unfold group_of. by apply list_elem_of_filter. }
  rewrite (sam2aln_loop_group _ _ _ _ _ _ _ Hrun) in Hgroup.
  unfold group_rows, rank_rows in Hgroup.
  apply list_elem_of_lookup in Hgroup as [i Hi]. rewrite list_lookup_imap in Hi.
  destruct (intermed _ !! i) as [t|] eqn:Ht; [|done]. injection Hi as Hi.
  apply list_elem_of_lookup_2 in Ht. rewrite intermed_Permutation in Ht.
  apply list_elem_of_fmap in Ht as ([s c] & -> & Hsc). simpl in Hi.
  apply elem_of_map_to_list in Hsc. rewrite group_counter_lookup in Hsc.
  case_decide as Hocc; [done|]. injection Hsc as <-.
  assert (s ∈ group_merges cfg (matchmaker remap_csv) (al_refname row) (al_qcut row))
    as Hs.
  { destruct (decide (s ∈ group_merges cfg (matchmaker remap_csv)
                            (al_refname row) (al_qcut row))) as [|Hn]; [done|].
    by apply occurrences_0 in Hn. }
  pose proof Hs as Hs'. unfold group_merges in Hs'.
  apply list_elem_of_omap in Hs' as (rows & _ & Hp).
  destruct (parse_sam cfg rows) as [[[[rname mseqs] il] fl]|e] eqn:Hparse; [|done].
  case_decide; [|done]. destruct rows as [row1 row2].
  assert (al_qcut row ∈ sam2aln_q_cutoffs cfg ∧ strip_gap s ≠ []) as [Hq Hne].
  { apply parse_sam_Ok_inv in Hparse as [_ [(_ & -> & _)|Hacc]].
    { by rewrite lookup_empty in Hp. }
    destruct Hacc as (? & ? & ? & ? & ? & ? & ? & _ & _ & _ & _ & _ & Hloop).
    destruct (merge_cutoffs_variants _ _ _ _ _ _ _ _ _ _ _ _ s Hloop Hp)
      as [Hin|(? & ? & ? & ?)]; [by rewrite lookup_empty in Hin|done]. }
  pose proof (strip_gap_ends s) as [Hhead Hlast].
  pose proof (f_equal al_count Hi) as Hcount.
  pose proof (f_equal al_seq Hi) as Hseq.
  pose proof (f_equal al_offset Hi) as Hoff.
  simpl in Hcount, Hseq, Hoff. rewrite <-Hcount, <-Hseq, <-Hoff. subst.
  split_and!; try done; [lia|]. by exists s.
Qed.

Lemma sam2aln_rows_wellformed_witness :
  let remap_csv :=
    [ mk_row "a" 99 "R1" 1 44 "4M" "ACGT" "IIII";
      mk_row "a" 147 "R1" 1 44 "4M" "ACGT" "IIII";
      mk_row "b" 99 "R1" 2 44 "4M" "ACGT" "IIII";
      mk_row "b" 147 "R1" 2 44 "4M" "ACGT" "IIII" ] in
  let row := AlignedRow (lit "R1") 10 0 1 1 (lit "ACGT") in
  (1 ≤ al_count row)%nat
  ∧ al_qcut row ∈ sam2aln_q_cutoffs cfg0
  ∧ al_seq row ≠ []
  ∧ head (al_seq row) ≠ Some gap
  ∧ last (al_seq row) ≠ Some gap
  ∧ ∃ mseq,
      mseq ∈ group_merges cfg0 (matchmaker remap_csv) (al_refname row) (al_qcut row)
      ∧ al_seq row = strip_gap mseq
      ∧ al_offset row = len_gap_prefix mseq.
Proof.
  intros remap_csv row.
  pose (aligned_csv :=
          match sam2aln cfg0 None remap_csv with
          | Finished aligned_csv _ _ => aligned_csv
          | Raised _ _ _ => []
          end).
  assert (sam2aln cfg0 None remap_csv = Finished aligned_csv [] []) as Hrun.
  { vm_compute. reflexivity. }
  assert (group_of (lit "R1") 10 aligned_csv =
          [row; AlignedRow (lit "R1") 10 1 1 0 (lit "ACGT")]) as Hgroup.
  { vm_compute. reflexivity. }
  apply (sam2aln_rows_wellformed cfg0 None remap_csv aligned_csv [] [] row Hrun).
  assert (row ∈ group_of (lit "R1") 10 aligned_csv) as Hrow.
  { rewrite Hgroup. left. }
  unfold group_of in Hrow. apply list_elem_of_filter in Hrow as [_ Hrow]. exact Hrow.
Defined.

(** ** Runs without a merge *)

Lemma bind_nil {A B} (f : A → list B) (l : list A) :
  (∀ x, x ∈ l → f x = []) → l ≫= f = [].
Proof.
  induction l as [|x l IH]; intros Hf; [done|].
  cbn [mbind list_bind]. rewrite (Hf x) by left. rewrite IH; [done|].
  intros y Hy. apply Hf. by right.
Qed.

Lemma write_aligned_empty_regions (aligned : gmap str (gmap Z (gmap str nat))) :
  (∀ (rname : str) region, aligned !! rname = Some region → region = ∅) →
  write_aligned aligned = [].
Proof.
  intros Hempty. unfold write_aligned. apply bind_nil.
  intros [rname region] Hin%elem_of_map_to_list. simpl.
  by rewrite (Hempty rname region Hin), map_to_list_empty.
Qed.

Lemma sam2aln_loop_rejected (cfg : settings) (pairs : list (sam_row * option sam_row))
    (aligned : gmap str (gmap Z (gmap str nat)))
    (insert_csv : list insert_row) (failed_csv : list failed_row) :
  Forall (λ rows, pair_rejected cfg rows.1 rows.2 = true) pairs →
  (∀ (rname : str) region, aligned !! rname = Some region → region = ∅) →
  sam2aln_loop cfg pairs aligned insert_csv failed_csv =
  Finished [] insert_csv (failed_csv ++ (failed_pair_row <$> pairs)).
Proof.
  intros Hall. revert aligned insert_csv failed_csv.
  induction Hall as [|rows pairs Hrej _ IH]; intros aligned insert_csv failed_csv Hempty.
  { simpl. by rewrite write_aligned_empty_regions, app_nil_r. }
  cbn [sam2aln_loop]. rewrite (parse_sam_rejected cfg rows Hrej). rewrite IH.
  - by rewrite app_nil_r, <-app_assoc.
  - intros rname region. unfold collect. rewrite map_to_list_empty. simpl.
    intros [[_ <-]|[_ ?]]%lookup_insert_Some; [|by eapply Hempty].
    destruct (aligned !! row_rname rows.1) as [region'|] eqn:Hr; simpl; [|done].
    by eapply Hempty.
Qed.

(** X19.  A run in which no pair passes the mapping test — each is
    unmatched, or has a mate with CIGAR [*], or a mapping quality under the
    cutoff, or mates on two references — finishes without decoding any
    CIGAR: the aligned and insertion files are empty and the failure file
    has one row for each pair, in stream order. *)
Theorem sam2aln_all_rejected cfg nthreads remap_csv :
  (∀ n, nthreads = Some n → 0 ≤ n) →
  Forall (λ rows, pair_rejected cfg rows.1 rows.2 = true) (matchmaker remap_csv) →
  sam2aln cfg nthreads remap_csv =
  Finished [] [] (failed_pair_row <$> matchmaker remap_csv).
Proof.
  intros Hvalid Hall. rewrite sam2aln_all_Ok; [|done|].
  - rewrite sam2aln_loop_rejected; [done..|].
    intros rname region Hr. by rewrite lookup_empty in Hr.
  - eapply Forall_impl; [exact Hall|]. intros rows Hrej. eexists.
    by apply parse_sam_rejected.
Qed.

Lemma sam2aln_all_rejected_witness :
  let remap_csv :=
    [ mk_row "a" 99 "R1" 1 44 "bad" "ACGT" "IIII";
      mk_row "b" 99 "R1" 1 3 "4M" "ACGT" "IIII";
      mk_row "b" 147 "R1" 1 44 "4M" "ACGT" "IIII" ] in
  sam2aln cfg0 (Some 2) remap_csv =
  Finished [] [] (failed_pair_row <$> matchmaker remap_csv).
Proof.
  intros remap_csv. apply (sam2aln_all_rejected cfg0 (Some 2) remap_csv).
  - intros n Hn. injection Hn as <-. lia.
  - vm_compute. repeat constructor.
Defined.

(** ** Insertion rows, padding and the exceptions of parse_sam *)

Lemma insert_rows_origin qname rname flag pos (inserts : gmap Z (str * str)) irow :
  irow ∈ insert_rows qname rname flag pos inserts →
  ∃ key iseq iqual,
    inserts !! key = Some (iseq, iqual)
    ∧ irow = InsertRow qname (if is_first_read flag then "F"%char else "R"%char)
                       rname (pos + key) iseq iqual.
Proof.
  unfold insert_rows. intros ([key [iseq iqual]] & -> & Hin)%list_elem_of_fmap.
  apply elem_of_map_to_list in Hin. by exists key, iseq, iqual.
Qed.

(** X20.  Every insertion row [parse_sam] returns comes from one mate of an
    accepted pair: it carries the qname and reference of the first row and
    the strand of that mate, its bases and qualities are one slice of the
    mate's base and quality strings, and its position is the mate's 0-based
    position plus the number of read bases in front of that slice. *)
Theorem parse_sam_insert_rows cfg row1 row2 rname mseqs insert_list failed_list irow :
  parse_sam cfg (row1, row2) = Ok (rname, mseqs, insert_list, failed_list) →
  irow ∈ insert_list →
  ∃ mate (left n : nat),
    (mate = row1 ∨ row2 = Some mate)
    ∧ pair_rejected cfg row1 row2 = false
    ∧ ins_qname irow = row_qname row1
    ∧ ins_refname irow = row_rname row1
    ∧ ins_fwd_rev irow = (if is_first_read (row_flag mate) then "F"%char else "R"%char)
    ∧ ins_pos irow = row_pos mate - 1 + Z.of_nat left
    ∧ (left + n ≤ length (row_seq mate))%nat
    ∧ ins_insert irow = substr (row_seq mate) left n
    ∧ ins_qual irow = substr (row_qual mate) left n.
Proof.
  intros [-> [(_ & _ & ->)|Hacc]]%parse_sam_Ok_inv Hin.
  { by apply elem_of_nil in Hin. }
  destruct Hacc as (mate & s1 & q1 & i1 & s2 & q2 & i2 & -> & Hacc & Hd1 & Hd2 & -> & _).
  apply apply_cigar_Ok_inv in Hd1 as [Hlen1 Hrec1].
  apply apply_cigar_Ok_inv in Hd2 as [Hlen2 Hrec2].
  apply elem_of_app in Hin as [Hin|Hin];
    apply insert_rows_origin in Hin as (key & iseq & iqual & Hkey & ->).
  - apply Hrec1 in Hkey.
    apply recorded_bounds in Hkey as (left & n & -> & Hlen & -> & -> & _); [|lia].
    exists row1, left, n. simpl. split_and!; try done; [by left|lia].
  - apply Hrec2 in Hkey.
    apply recorded_bounds in Hkey as (left & n & -> & Hlen & -> & -> & _); [|lia].
    exists mate, left, n. simpl. split_and!; try done; [by right|lia].
Qed.

Lemma parse_sam_insert_rows_witness :
  let row1 := mk_row "b" 99 "R1" 3 44 "1S1M1I2M" "TACGT" "ABCDE" in
  let row2 := mk_row "b" 147 "R1" 3 44 "4M" "ACGT" "IIII" in
  let irow := InsertRow (lit "b") "F" (lit "R1") 4 (lit "C") (lit "C") in
  ∃ mate (left n : nat),
    (mate = row1 ∨ Some row2 = Some mate)
    ∧ pair_rejected cfg0 row1 (Some row2) = false
    ∧ ins_qname irow = row_qname row1
    ∧ ins_refname irow = row_rname row1
    ∧ ins_fwd_rev irow = (if is_first_read (row_flag mate) then "F"%char else "R"%char)
    ∧ ins_pos irow = row_pos mate - 1 + Z.of_nat left
    ∧ (left + n ≤ length (row_seq mate))%nat
    ∧ ins_insert irow = substr (row_seq mate) left n
    ∧ ins_qual irow = substr (row_qual mate) left n.
Proof.
  intros row1 row2 irow.
  eapply (parse_sam_insert_rows cfg0 row1 (Some row2) _ _ [irow] _ irow).
  - vm_compute. reflexivity.
  - left.
Defined.

(** X21.  Gap padding does not override the mate.  Where one mate has a gap
    of quality [!] and the other a base, and the cutoff is not negative, the
    first loop of [merge_pairs] writes the base when its quality exceeds the
    cutoff and is at least [minimum_q_delta], and [N] otherwise; never the
    gap. *)
Theorem merge_pairs_padding seq1 seq2 qual1 qual2 q_cutoff minimum_q_delta i c2 k2 :
  (length seq1 ≤ length qual1)%nat → (length seq2 ≤ length qual2)%nat →
  0 ≤ q_cutoff →
  seq1 !! i = Some gap → qual1 !! i = Some "!"%char →
  seq2 !! i = Some c2 → qual2 !! i = Some k2 →
  c2 ≠ gap →
  ∃ mseq,
    merge_pairs seq1 seq2 qual1 qual2 None None q_cutoff minimum_q_delta = Some mseq
    ∧ merge_pairs seq2 seq1 qual2 qual1 None None q_cutoff minimum_q_delta = Some mseq
    ∧ mseq !! i =
      Some (if decide (q_cutoff < phred k2 ∧ minimum_q_delta ≤ phred k2)
            then c2 else "N"%char).
Proof.
  intros Hq1 Hq2 Hcut Hc1 Hk1 Hc2 Hk2 Hne.
  destruct (merge_reads_Some seq1 seq2 qual1 qual2 q_cutoff minimum_q_delta Hq1 Hq2)
    as [mseq Hmseq].
  exists mseq. rewrite !merge_pairs_None, (merge_reads_sym seq2).
  split_and!; [done..|].
  apply lookup_lt_Some in Hc1 as Hi1. apply lookup_lt_Some in Hc2 as Hi2.
  assert (merge_overlap gap c2 0 (phred k2) q_cutoff minimum_q_delta =
          if decide (q_cutoff < phred k2 ∧ minimum_q_delta ≤ phred k2)
          then c2 else "N"%char) as Hov.
  { unfold merge_overlap. repeat case_decide; try done; destruct_and?; try done;
      try (exfalso; lia). }
  unfold merge_reads in Hmseq. destruct (decide (length seq2 < length seq1)%nat);
    apply merge_loop_lookup in Hmseq as [_ Hchar];
    rewrite <-Hchar by done; unfold merge_char.
  - rewrite Hc1, Hk1. simpl. rewrite decide_True by done. rewrite Hc2, Hk2. simpl.
    by rewrite merge_overlap_sym, <-Hov.
  - rewrite Hc2, Hk2. simpl. rewrite decide_True by done. rewrite Hc1, Hk1. simpl.
    by rewrite <-Hov.
Qed.

Lemma merge_pairs_padding_witness :
  ∃ mseq,
    merge_pairs (lit "--ACG") (lit "TTAC") (lit "!!III") (lit "I$II")
                None None 0 5 = Some mseq
    ∧ merge_pairs (lit "TTAC") (lit "--ACG") (lit "I$II") (lit "!!III")
                  None None 0 5 = Some mseq
    ∧ mseq !! 1%nat =
      Some (if decide (0 < phred "$" ∧ 5 ≤ phred "$") then "T"%char else "N"%char).
Proof.
  apply (merge_pairs_padding (lit "--ACG") (lit "TTAC") (lit "!!III") (lit "I$II")
           0 5 1 "T" "$").
  - vm_compute. lia.
  - vm_compute. lia.
  - lia.
  - reflexivity.
  - reflexivity.
  - reflexivity.
  - reflexivity.
  - discriminate.
Defined.

Section cutoff_exceptions.
Context (cfg : settings) (qname seq1 seq2 qual1 qual2 : str).

Lemma merge_cutoffs_raises before (q : Z) after mseqs0 failed0 e :
  (∀ q', q' ∈ before →
         ∃ m, merge_pairs seq1 seq2 qual1 qual2 None None q' 5 = Some m
              ∧ strip_gap m ≠ []) →
  match merge_pairs seq1 seq2 qual1 qual2 None None q 5 with
  | None => e = IndexError
  | Some m => strip_gap m = [] ∧ e = ZeroDivisionError
  end →
  merge_cutoffs cfg qname seq1 seq2 qual1 qual2 (before ++ q :: after) mseqs0 failed0
  = Err e.
Proof.
  revert mseqs0 failed0. induction before as [|q0 before IH]; intros mseqs0 failed0 Hok Hq.
  - cbn [app merge_cutoffs].
    destruct (merge_pairs _ _ _ _ _ _ q 5) as [m|]; cbn [of_option rbind]; [|by subst].
    destruct Hq as [-> ->]. by rewrite decide_True.
  - cbn [app merge_cutoffs]. destruct (Hok q0) as (m0 & -> & Hne); [left|].
    cbn [of_option rbind]. rewrite decide_False by (by destruct (strip_gap m0)).
    destruct (PrimFloat.ltb _ _); apply IH; try done;
      intros q' Hq'; apply Hok; by right.
Qed.
End cutoff_exceptions.

(** X22.  A merge that is all gaps, or empty, stops [parse_sam] with a
    division by zero: for an accepted pair that decodes, the first cutoff
    whose merge has nothing left after stripping raises
    [ZeroDivisionError], and no variant, insertion or failure row of the
    pair is returned. *)
Theorem parse_sam_zero_division cfg row1 row2 seq1 qual1 seq2 qual2 before q after m :
  pair_rejected cfg row1 (Some row2) = false →
  padded_read row1 = Ok (seq1, qual1) →
  padded_read row2 = Ok (seq2, qual2) →
  sam2aln_q_cutoffs cfg = before ++ q :: after →
  (∀ q', q' ∈ before →
         ∃ m', merge_pairs seq1 seq2 qual1 qual2 None None q' 5 = Some m'
               ∧ strip_gap m' ≠ []) →
  merge_pairs seq1 seq2 qual1 qual2 None None q 5 = Some m →
  strip_gap m = [] →
  parse_sam cfg (row1, Some row2) = Err ZeroDivisionError.
Proof.
  intros Hacc Hread1 Hread2 Hcuts Hbefore Hm Hstrip.
  unfold parse_sam. rewrite Hacc. unfold padded_read in Hread1, Hread2.
  destruct (apply_cigar (row_cigar row1) _ _ _ _ _) as [[[s1 q1] i1]|e]; [|done].
  destruct (apply_cigar (row_cigar row2) _ _ _ _ _) as [[[s2 q2] i2]|e]; [|done].
  injection Hread1 as <- <-. injection Hread2 as <- <-.
  rewrite Hcuts, (merge_cutoffs_raises cfg _ _ _ _ _ before q after ∅ []
                    ZeroDivisionError); [done..|].
  by rewrite Hm.
Qed.

Lemma parse_sam_zero_division_witness :
  parse_sam cfg0 (mk_row "a" 99 "R1" 1 44 "2D" "" "",
                  Some (mk_row "a" 147 "R1" 1 44 "2D" "" ""))
  = Err ZeroDivisionError.
Proof.
  apply (parse_sam_zero_division cfg0 _ _ (lit "--") (lit "  ") (lit "--") (lit "  ")
           [] 0 [10; 15] (lit "--")).
  - vm_compute. reflexivity.
  - vm_compute. reflexivity.
  - vm_compute. reflexivity.
  - reflexivity.
  - intros q' Hq'. by apply elem_of_nil in Hq'.
  - vm_compute. reflexivity.
  - vm_compute. reflexivity.
Defined.

(** X23.  A quality string shorter than its read stops [parse_sam] with an
    [IndexError]: for an accepted pair that decodes and at least one
    configured cutoff, if either padded quality string is shorter than its
    padded read, no row of the pair is returned. *)
Theorem parse_sam_index_error cfg row1 row2 seq1 qual1 seq2 qual2 :
  pair_rejected cfg row1 (Some row2) = false →
  padded_read row1 = Ok (seq1, qual1) →
  padded_read row2 = Ok (seq2, qual2) →
  sam2aln_q_cutoffs cfg ≠ [] →
  (length qual1 < length seq1 ∨ length qual2 < length seq2)%nat →
  parse_sam cfg (row1, Some row2) = Err IndexError.
Proof.
  intros Hacc Hread1 Hread2 Hcuts Hshort.
  unfold parse_sam. rewrite Hacc. unfold padded_read in Hread1, Hread2.
  destruct (apply_cigar (row_cigar row1) _ _ _ _ _) as [[[s1 q1] i1]|e]; [|done].
  destruct (apply_cigar (row_cigar row2) _ _ _ _ _) as [[[s2 q2] i2]|e]; [|done].
  injection Hread1 as <- <-. injection Hread2 as <- <-.
  destruct (sam2aln_q_cutoffs cfg) as [|q after]; [done|].
  rewrite (merge_cutoffs_raises cfg _ _ _ _ _ [] q after ∅ [] IndexError); [done| |].
  - intros q' Hq'. by apply elem_of_nil in Hq'.
  - destruct (merge_pairs _ _ _ _ None None q 5) as [m|] eqn:Hm; [|done].
    exfalso. assert (is_Some (merge_pairs
      (str_mul gap (row_pos row1 - 1) ++ s1) (str_mul gap (row_pos row2 - 1) ++ s2)
      (str_mul "!"%char (row_pos row1 - 1) ++ q1)
      (str_mul "!"%char (row_pos row2 - 1) ++ q2) None None q 5)) as Hsome
      by (by eexists).
    apply merge_pairs_quals in Hsome. lia.
Qed.

Lemma parse_sam_index_error_witness :
  parse_sam cfg0 (mk_row "a" 99 "R1" 1 44 "4M" "ACGT" "*",
                  Some (mk_row "a" 147 "R1" 1 44 "4M" "ACGT" "IIII"))
  = Err IndexError.
Proof.
  apply (parse_sam_index_error cfg0 _ _ (lit "ACGT") (lit "*") (lit "ACGT") (lit "IIII")).
  - vm_compute. reflexivity.
  - vm_compute. reflexivity.
  - vm_compute. reflexivity.
  - discriminate.
  - left. vm_compute. lia.
Defined.
(** * Worked examples *)

Example apply_cigar_ex1 :
  apply_cigar (lit "2S3M1I2M2D1M") (lit "TTACGAGTC") (lit "##ABCDEFG") 2 0 None
  = Ok (lit "--ACGGT--C", lit "!!ABCEF  G", {[ 7 := (lit "A", lit "D") ]}).
Proof. vm_compute. reflexivity. Qed.

Example merge_pairs_ex1 :
  merge_pairs (lit "ACGT") (lit "ACCTAG-") (lit "IIII") (lit "I5##I#!")
              (Some {[ 2 := (lit "TT", lit "II") ]}) None 10 5
  = Some (lit "ACTTGTANn").
Proof. vm_compute. reflexivity. Qed.

(** A run of 160 pairs, each sent to the failure report for its mapping
    quality but the pair after the first 150, whose CIGAR does not decode:
    the serial run has written 150 failure rows when it stops, and the run
    with a pool the 100 rows of the first chunk. *)
Example sam2aln_pool_ex :
  let pair (k : nat) (mapq : Z) (cigar : string) :=
    [ SamRow (replicate (S k) "q"%char) 99 (lit "R1") 1 mapq (lit cigar)
             (lit "ACGT") (lit "IIII");
      SamRow (replicate (S k) "q"%char) 147 (lit "R1") 1 mapq (lit cigar)
             (lit "ACGT") (lit "IIII") ] in
  let remap_csv :=
    (seq 0 150 ≫= λ k, pair k 3 "4M") ++ pair 150%nat 44 "4Q"
    ++ (seq 151 9 ≫= λ k, pair k 3 "4M") in
  length (matchmaker remap_csv) = 160%nat
  ∧ (∃ failed_csv,
       sam2aln cfg0 None remap_csv =
         Raised (RuntimeError (InvalidCigar (lit "4Q"))) [] failed_csv
       ∧ length failed_csv = 150%nat)
  ∧ (∃ failed_csv,
       sam2aln cfg0 (Some 4) remap_csv =
         Raised (RuntimeError (InvalidCigar (lit "4Q"))) [] failed_csv
       ∧ length failed_csv = 100%nat)
  ∧ sam2aln cfg0 (Some (-1)) remap_csv = Raised ValueError [] [].
Proof.
  intros pair remap_csv. split; [vm_compute; reflexivity|].
  split; [|split].
  - eexists. split; vm_compute; reflexivity.
  - eexists. split; vm_compute; reflexivity.
  - vm_compute. reflexivity.
Qed.
